(** * pending: deferred tasks keyed by ID

    A shallow embedding of the Go package [pending] (manager, options,
    telemetry) and of the part of the Go runtime it leans on (timers,
    [sync.RWMutex], [sync.WaitGroup], [sync.Once], buffered channels and
    [select]), followed by the properties of the scheduler.

    The sequential code of each function is a state-passing function.  The
    concurrent program is an interleaving of atomic steps: each goroutine is a
    program counter, a label names the goroutine that moves, and [step] runs
    its next statement or returns [None] when that statement blocks. *)

From stdpp Require Import gmap strings list fin_maps.
From Stdlib Require Import ZArith Lia.

Set Default Proof Using "Type".

(* ===================================================================== *)
(** ** Data model                                                          *)
(* ===================================================================== *)

(** strategy.go: [type Strategy int] with its two constants. *)
Inductive Strategy := StrategyBlock | StrategyDrop.

(** The error values that reach a caller or the telemetry handler:
    [ErrTaskDropped] of this package, and the two errors a
    [context.Context] reports from [Err()]. *)
Inductive error := ErrTaskDropped | DeadlineExceeded | Canceled.

(** The five methods of [TelemetryHandler], as the calls made on
    [m.logger]. Durations are [time.Duration] values. *)
Inductive TelemetryEvent :=
| OnScheduled (id : string) (d : Z)
| OnRescheduled (id : string)
| OnExecuted (id : string) (duration : Z)
| OnCancelled (id : string)
| OnFailed (id : string) (err : error).

(** A handler is either the package's [nopLogger] or one supplied by the
    caller; the calls it receives are recorded in the trace. *)
Inductive TelemetryHandler := nopLogger | customLogger (name : nat).

(** A task body is opaque; it is known by a name. *)
Definition Task := nat.

#[global] Instance Strategy_eq_dec : EqDecision Strategy.
Proof. solve_decision. Defined.
#[global] Instance error_eq_dec : EqDecision error.
Proof. solve_decision. Defined.
#[global] Instance TelemetryEvent_eq_dec : EqDecision TelemetryEvent.
Proof. solve_decision. Defined.
#[global] Instance TelemetryHandler_eq_dec : EqDecision TelemetryHandler.
Proof. solve_decision. Defined.

(** [sync.RWMutex]: one writer or any number of readers. *)
Record RWMutex := { writer : bool; readers : nat }.

(** [chan struct{}] with a buffer: capacity and number of buffered
    elements. Goroutines parked on a send are found through their program
    counter ([GParked] below). *)
Record chan := { cap : nat; len : nat }.

(** [shutdownOnce]: idle, running the closure of [Shutdown] at one of its
    statements, or done. *)
Inductive once :=
| OnceIdle | OnceLock | OnceClose | OnceRange | OnceSpawn | OnceDone.

(** The [Manager] struct. [pending] maps an ID to the address of its entry. *)
Record Manager := {
  mu : RWMutex;
  pending : gmap string nat;
  semaphore : option chan;
  strategy : Strategy;
  logger : TelemetryHandler;
  wg : nat;
  isClosed : bool;
  shutdownOnce : once;
  shutdownDone : bool
}.

Inductive timer_state := TimerArmed | TimerStopped | TimerFired.

(** The three places [deleteIfCurrent] is called from. *)
Inductive site := AfterDrop | AfterWait | AfterTask.

(** Program counter of the callback given to [time.AfterFunc]. *)
Inductive hpc := HNone | HRLock | HCheck | HAbort | HSpawn | HRUnlock | HExit.

(** Program counter of the function given to [m.wg.Go]. *)
Inductive gpc :=
| GNone | GAcquire | GParked
| GDelete (from : site) | GDeleteUnlock (from : site)
| GStart | GRunning | GExecuted | GRelease | GCancel | GWgDone | GExit.

#[global] Instance once_eq_dec : EqDecision once.
Proof. solve_decision. Defined.
#[global] Instance timer_state_eq_dec : EqDecision timer_state.
Proof. solve_decision. Defined.
#[global] Instance site_eq_dec : EqDecision site.
Proof. solve_decision. Defined.
#[global] Instance hpc_eq_dec : EqDecision hpc.
Proof. solve_decision. Defined.
#[global] Instance gpc_eq_dec : EqDecision gpc.
Proof. solve_decision. Defined.

(** An [entry] on the heap: the two fields of the Go struct ([timer], and
    the token behind [cancel], whose [Done] channel is closed once
    [ctx_done] holds), the variables its timer callback closes over, and,
    since a timer runs its callback at most once, the control state of that
    callback and of the goroutine it starts. *)
Record entry := {
  timer : timer_state;
  ctx_done : bool;
  e_id : string;
  e_task : Task;
  fire_at : nat;
  handler : hpc;
  worker : gpc;
  start : nat
}.

(** Who performs an action. *)
Inductive actor :=
| Caller | Closer | Runtime | Handler (e : nat) | Worker (e : nat) | Drainer.

(** The observable actions, in the order they happen. *)
Inductive action :=
| ATimerStop (e : nat)
| ACancel (e : nat)
| AEmit (ev : TelemetryEvent)
| AInstall (id : string) (e : nat)
| ADelete (id : string) (e : nat)
| ADeleteIfCurrent (id : string) (e : nat) (deleted : bool)
| ASetClosed
| AFire (e : nat)
| AWgGo (e : nat)
| AWgDone
| AAcquire (ok : bool)
| AStart (at_ : nat)
| AInvoke (task : Task)
| AReturn
| AReleaseSlot
| ACloseDone.

#[global] Instance actor_eq_dec : EqDecision actor.
Proof. solve_decision. Defined.
#[global] Instance action_eq_dec : EqDecision action.
Proof. solve_decision. Defined.

(** Program counter of the goroutine [Shutdown] starts to wait for the
    wait group. *)
Inductive dpc := DNone | DWait | DClose | DExit.

#[global] Instance dpc_eq_dec : EqDecision dpc.
Proof. solve_decision. Defined.

(** The whole program: the manager, the entries allocated so far (an
    entry's address is its index), whether a caller of [Schedule] or
    [Cancel] holds [mu], the drain goroutine, the clock and the trace. *)
Record state := {
  mgr : Manager;
  heap : list entry;
  caller_in : bool;
  drainer : dpc;
  now : nat;
  trace : list (actor * action)
}.

(* ===================================================================== *)
(** ** Field updates and primitive operations                              *)
(* ===================================================================== *)

Definition set_mu (v : RWMutex) (m : Manager) : Manager :=
  {| mu := v; pending := pending m; semaphore := semaphore m;
     strategy := strategy m; logger := logger m; wg := wg m;
     isClosed := isClosed m; shutdownOnce := shutdownOnce m;
     shutdownDone := shutdownDone m |}.

Definition set_pending (v : gmap string nat) (m : Manager) : Manager :=
  {| mu := mu m; pending := v; semaphore := semaphore m;
     strategy := strategy m; logger := logger m; wg := wg m;
     isClosed := isClosed m; shutdownOnce := shutdownOnce m;
     shutdownDone := shutdownDone m |}.

Definition set_semaphore (v : option chan) (m : Manager) : Manager :=
  {| mu := mu m; pending := pending m; semaphore := v;
     strategy := strategy m; logger := logger m; wg := wg m;
     isClosed := isClosed m; shutdownOnce := shutdownOnce m;
     shutdownDone := shutdownDone m |}.

Definition set_strategy (v : Strategy) (m : Manager) : Manager :=
  {| mu := mu m; pending := pending m; semaphore := semaphore m;
     strategy := v; logger := logger m; wg := wg m;
     isClosed := isClosed m; shutdownOnce := shutdownOnce m;
     shutdownDone := shutdownDone m |}.

Definition set_logger (v : TelemetryHandler) (m : Manager) : Manager :=
  {| mu := mu m; pending := pending m; semaphore := semaphore m;
     strategy := strategy m; logger := v; wg := wg m;
     isClosed := isClosed m; shutdownOnce := shutdownOnce m;
     shutdownDone := shutdownDone m |}.

Definition set_wg (v : nat) (m : Manager) : Manager :=
  {| mu := mu m; pending := pending m; semaphore := semaphore m;
     strategy := strategy m; logger := logger m; wg := v;
     isClosed := isClosed m; shutdownOnce := shutdownOnce m;
     shutdownDone := shutdownDone m |}.

Definition set_isClosed (v : bool) (m : Manager) : Manager :=
  {| mu := mu m; pending := pending m; semaphore := semaphore m;
     strategy := strategy m; logger := logger m; wg := wg m;
     isClosed := v; shutdownOnce := shutdownOnce m;
     shutdownDone := shutdownDone m |}.

Definition set_shutdownOnce (v : once) (m : Manager) : Manager :=
  {| mu := mu m; pending := pending m; semaphore := semaphore m;
     strategy := strategy m; logger := logger m; wg := wg m;
     isClosed := isClosed m; shutdownOnce := v;
     shutdownDone := shutdownDone m |}.

Definition set_shutdownDone (v : bool) (m : Manager) : Manager :=
  {| mu := mu m; pending := pending m; semaphore := semaphore m;
     strategy := strategy m; logger := logger m; wg := wg m;
     isClosed := isClosed m; shutdownOnce := shutdownOnce m;
     shutdownDone := v |}.

Definition on_mgr (f : Manager -> Manager) (s : state) : state :=
  {| mgr := f (mgr s); heap := heap s; caller_in := caller_in s;
     drainer := drainer s; now := now s; trace := trace s |}.

Definition set_heap (v : list entry) (s : state) : state :=
  {| mgr := mgr s; heap := v; caller_in := caller_in s;
     drainer := drainer s; now := now s; trace := trace s |}.

Definition set_caller_in (v : bool) (s : state) : state :=
  {| mgr := mgr s; heap := heap s; caller_in := v;
     drainer := drainer s; now := now s; trace := trace s |}.

Definition set_drainer (v : dpc) (s : state) : state :=
  {| mgr := mgr s; heap := heap s; caller_in := caller_in s;
     drainer := v; now := now s; trace := trace s |}.

Definition set_now (v : nat) (s : state) : state :=
  {| mgr := mgr s; heap := heap s; caller_in := caller_in s;
     drainer := drainer s; now := v; trace := trace s |}.

(** Every action is appended to the trace together with its actor. *)
Definition note (who : actor) (a : action) (s : state) : state :=
  {| mgr := mgr s; heap := heap s; caller_in := caller_in s;
     drainer := drainer s; now := now s; trace := trace s ++ [(who, a)] |}.

Definition set_timer (v : timer_state) (c : entry) : entry :=
  {| timer := v; ctx_done := ctx_done c; e_id := e_id c; e_task := e_task c;
     fire_at := fire_at c; handler := handler c; worker := worker c;
     start := start c |}.

Definition set_ctx_done (v : bool) (c : entry) : entry :=
  {| timer := timer c; ctx_done := v; e_id := e_id c; e_task := e_task c;
     fire_at := fire_at c; handler := handler c; worker := worker c;
     start := start c |}.

Definition set_handler (v : hpc) (c : entry) : entry :=
  {| timer := timer c; ctx_done := ctx_done c; e_id := e_id c;
     e_task := e_task c; fire_at := fire_at c; handler := v;
     worker := worker c; start := start c |}.

Definition set_worker (v : gpc) (c : entry) : entry :=
  {| timer := timer c; ctx_done := ctx_done c; e_id := e_id c;
     e_task := e_task c; fire_at := fire_at c; handler := handler c;
     worker := v; start := start c |}.

Definition set_start (v : nat) (c : entry) : entry :=
  {| timer := timer c; ctx_done := ctx_done c; e_id := e_id c;
     e_task := e_task c; fire_at := fire_at c; handler := handler c;
     worker := worker c; start := v |}.

(** Update of the entry at address [e]; an address that was never
    allocated is left alone. *)
Definition on_entry (e : nat) (f : entry -> entry) (s : state) : state :=
  set_heap (alter f e (heap s)) s.

(** Statements are chained left to right. *)
Notation "s |> f" := (f s) (at level 45, left associativity, only parsing).

(** [m.logger.OnX(...)]. *)
Definition emit (who : actor) (ev : TelemetryEvent) : state -> state :=
  note who (AEmit ev).

(** [t.Stop()]: disarms a timer that has not fired; a timer that has fired
    keeps running its callback. *)
Definition stop_timer (c : entry) : entry :=
  match timer c with
  | TimerArmed => set_timer TimerStopped c
  | _ => c
  end.

Definition timer_Stop (who : actor) (e : nat) (s : state) : state :=
  s |> on_entry e stop_timer |> note who (ATimerStop e).

(** The [cancel] function of [context.WithCancel]: closes the token's
    [Done] channel. A goroutine parked in the [select] of [acquireSlot] is
    woken by that close and leaves the [select] through its
    [<-ctx.Done()] case. *)
Definition mark_cancelled (c : entry) : entry :=
  set_ctx_done true
    (match worker c with
     | GParked => set_worker (GDelete AfterWait) c
     | _ => c
     end).

Definition cancel (who : actor) (e : nat) (s : state) : state :=
  s |> on_entry e mark_cancelled |> note who (ACancel e).

(* ===================================================================== *)
(** ** options.go and NewManager                                           *)
(* ===================================================================== *)

(** [type Option]: a function that updates the manager it is given. The
    fields of [Manager] are private to the package, so the options there
    are, are the ones the package builds: [WithLimit] and [WithLogger]. *)
Inductive Option :=
| WithLimit (limit : Z) (strat : Strategy)
| WithLogger (l : option TelemetryHandler).

(** The body of the function an option stands for. [WithLimit] sets the
    semaphore and the strategy only for a positive limit; [WithLogger]
    leaves the default in place for a nil handler. *)
Definition apply_option (opt : Option) (m : Manager) : Manager :=
  match opt with
  | WithLimit limit strat =>
      if (0 <? limit)%Z
      then m |> set_semaphore (Some {| cap := Z.to_nat limit; len := 0 |})
             |> set_strategy strat
      else m
  | WithLogger l =>
      match l with
      | Some h => set_logger h m
      | None => m
      end
  end.

Definition NewManager (opts : list Option) : Manager :=
  fold_left (fun m opt => apply_option opt m) opts
    {| mu := {| writer := false; readers := 0 |};
       pending := ∅;
       semaphore := None;
       strategy := StrategyBlock;
       logger := nopLogger;
       wg := 0;
       isClosed := false;
       shutdownOnce := OnceIdle;
       shutdownDone := false |}.

(** The program right after [NewManager] returned. *)
Definition boot (m : Manager) : state :=
  {| mgr := m; heap := []; caller_in := false; drainer := DNone;
     now := 0; trace := [] |}.

(* ===================================================================== *)
(** ** The manager's functions, between Lock and Unlock                    *)
(* ===================================================================== *)

(** [time.AfterFunc(d, f)] with a fresh token: the timer is armed and
    fires no earlier than [d] from now (at once for [d <= 0]). *)
Definition new_entry (id : string) (d : Z) (task : Task) (t : nat) : entry :=
  {| timer := TimerArmed; ctx_done := false; e_id := id; e_task := task;
     fire_at := t + Z.to_nat d; handler := HNone; worker := GNone;
     start := 0 |}.

Definition alloc (c : entry) (s : state) : state :=
  set_heap (heap s ++ [c]) s.

(** [m.pending[id] = e]. *)
Definition install (who : actor) (id : string) (e : nat) (s : state) : state :=
  s |> on_mgr (fun m => set_pending (<[id := e]> (pending m)) m)
    |> note who (AInstall id e).

(** [delete(m.pending, id)]. *)
Definition remove (who : actor) (id : string) (e : nat) (s : state) : state :=
  s |> on_mgr (fun m => set_pending (delete id (pending m)) m)
    |> note who (ADelete id e).

(** [Schedule], from after [m.mu.Lock()] to before the deferred
    [m.mu.Unlock()]. The new entry gets the next free address. *)
Definition Schedule (id : string) (d : Z) (task : Task) (s : state) : state :=
  if isClosed (mgr s) then s
  else
    let e := length (heap s) in
    s |> (match pending (mgr s) !! id with
          | Some old =>
              fun s => s |> timer_Stop Caller old
                         |> cancel Caller old
                         |> emit Caller (OnRescheduled id)
          | None => emit Caller (OnScheduled id d)
          end)
      |> alloc (new_entry id d task (now s))
      |> install Caller id e.

(** [Cancel], between the same two points. *)
Definition Cancel (id : string) (s : state) : state :=
  match pending (mgr s) !! id with
  | Some e =>
      s |> timer_Stop Caller e
        |> cancel Caller e
        |> remove Caller id e
        |> emit Caller (OnCancelled id)
  | None => s
  end.

(** [deleteIfCurrent], between the same two points: the mapping goes only
    when it holds the very entry [target]. *)
Definition deleteIfCurrent (who : actor) (id : string) (target : nat)
    (s : state) : state :=
  match pending (mgr s) !! id with
  | Some current =>
      if decide (current = target)
      then s |> on_mgr (fun m => set_pending (delete id (pending m)) m)
             |> note who (ADeleteIfCurrent id target true)
      else s |> note who (ADeleteIfCurrent id target false)
  | None => s |> note who (ADeleteIfCurrent id target false)
  end.

(** One iteration of [for id, e := range m.pending] in [Shutdown]. *)
Definition shutdown_visit (id : string) (e : nat) (s : state) : state :=
  s |> timer_Stop Closer e
    |> cancel Closer e
    |> remove Closer id e
    |> emit Closer (OnCancelled id).

(* ===================================================================== *)
(** ** Locks, channel and contexts                                         *)
(* ===================================================================== *)

(** [m.mu.Lock()] goes through when nobody holds the lock. *)
Definition lock_taken (s : state) : state :=
  on_mgr (set_mu {| writer := true; readers := 0 |}) s.

Definition mu_Lock (s : state) : option state :=
  if writer (mu (mgr s)) || negb (readers (mu (mgr s)) =? 0) then None
  else Some (lock_taken s).

Definition mu_Unlock (s : state) : state :=
  on_mgr (fun m => set_mu {| writer := false; readers := readers (mu m) |} m) s.

(** [m.mu.RLock()] goes through when no writer holds the lock. (Go also
    holds it back while a writer is waiting; leaving that out only adds
    interleavings.) *)
Definition rlock_taken (s : state) : state :=
  on_mgr (fun m =>
    set_mu {| writer := false; readers := S (readers (mu m)) |} m) s.

Definition mu_RLock (s : state) : option state :=
  if writer (mu (mgr s)) then None else Some (rlock_taken s).

Definition mu_RUnlock (s : state) : state :=
  on_mgr (fun m =>
    set_mu {| writer := writer (mu m); readers := pred (readers (mu m)) |} m) s.

Definition has_room (ch : chan) : bool := len ch <? cap ch.

Definition is_parked (c : entry) : bool :=
  bool_decide (worker c = GParked).

(** A [context.Context] given to [Shutdown]: an optional deadline and
    the time at which its own cancel function is called, if it is. *)
Record Context := { deadline : option nat; canceled : option nat }.

(** [ctx.Err()] at time [t]. The context is done exactly when this is not
    nil: its deadline has passed or its cancel function was called. The
    error is that of the cause that came first and stays: a cancel
    function called when the deadline has passed finds the context done
    and changes nothing. *)
Definition ctx_Err (t : nat) (ctx : Context) : option error :=
  match deadline ctx, canceled ctx with
  | Some dl, Some tc =>
      if tc <? dl
      then (if tc <=? t then Some Canceled else None)
      else (if dl <=? t then Some DeadlineExceeded else None)
  | Some dl, None => if dl <=? t then Some DeadlineExceeded else None
  | None, Some tc => if tc <=? t then Some Canceled else None
  | None, None => None
  end.

(* ===================================================================== *)
(** ** The goroutines, statement by statement                              *)
(* ===================================================================== *)

(** The timer of entry [e] expires: the runtime starts its callback. *)
Definition fire (e : nat) (s : state) : option state :=
  match heap s !! e with
  | Some c =>
      if bool_decide (timer c = TimerArmed) && (fire_at c <=? now s)
      then Some (s |> on_entry e (fun c => set_handler HRLock (set_timer TimerFired c))
                   |> note Runtime (AFire e))
      else None
  | None => None
  end.

(** The callback given to [time.AfterFunc] in [Schedule]:
    [RLock; if isClosed { cancel(); return }; wg.Go(...); RUnlock]. *)
Definition handler_step (e : nat) (s : state) : option state :=
  match heap s !! e with
  | Some c =>
      match handler c with
      | HRLock =>
          s' ← mu_RLock s; Some (on_entry e (set_handler HCheck) s')
      | HCheck =>
          Some (on_entry e
                  (set_handler (if isClosed (mgr s) then HAbort else HSpawn)) s)
      | HAbort =>
          Some (s |> cancel (Handler e) e |> on_entry e (set_handler HRUnlock))
      | HSpawn =>
          Some (s |> on_mgr (fun m => set_wg (S (wg m)) m)
                  |> on_entry e (fun c => set_handler HRUnlock (set_worker GAcquire c))
                  |> note (Handler e) (AWgGo e))
      | HRUnlock =>
          Some (s |> mu_RUnlock |> on_entry e (set_handler HExit))
      | HNone | HExit => None
      end
  | None => None
  end.

(** The slot is granted: [acquireSlot] returns true. *)
Definition grant (e : nat) (s : state) : state :=
  s |> on_entry e (set_worker GStart) |> note (Worker e) (AAcquire true).

(** [m.semaphore <- struct{}{}] on a channel with room. *)
Definition sem_send (s : state) : state :=
  on_mgr (fun m =>
    set_semaphore
      ((fun ch => {| cap := cap ch; len := S (len ch) |}) <$> semaphore m) m) s.

(** Entry into [acquireSlot]: the nil check, the strategy check and the
    first look of the [select] at its cases. When the [select] of the
    blocking strategy finds both cases ready, [pick] chooses (Go chooses at
    random); when it finds none ready, the goroutine parks. *)
Definition acquireSlot (e : nat) (pick : nat) (c : entry) (s : state) : state :=
  match semaphore (mgr s) with
  | None => grant e s
  | Some ch =>
      match strategy (mgr s) with
      | StrategyDrop =>
          if has_room ch then s |> sem_send |> grant e
          else s |> emit (Worker e) (OnFailed (e_id c) ErrTaskDropped)
                 |> on_entry e (set_worker (GDelete AfterDrop))
      | StrategyBlock =>
          match has_room ch, ctx_done c with
          | true, true =>
              match pick with
              | 0 => s |> sem_send |> grant e
              | _ => on_entry e (set_worker (GDelete AfterWait)) s
              end
          | true, false => s |> sem_send |> grant e
          | false, true => on_entry e (set_worker (GDelete AfterWait)) s
          | false, false => on_entry e (set_worker GParked) s
          end
      end
  end.

(** [releaseSlot]: nothing without a semaphore; otherwise a receive from
    the channel. A receive from a full channel with parked senders passes
    the freed slot to one of them, [pick] (Go takes the one parked
    longest), who leaves its [select] through the send case. *)
Definition releaseSlot (e : nat) (pick : nat) (s : state) : option state :=
  match semaphore (mgr s) with
  | None => Some (note (Worker e) AReleaseSlot s)
  | Some ch =>
      if existsb is_parked (heap s) then
        match heap s !! pick with
        | Some w =>
            if is_parked w
            then Some (s |> note (Worker e) AReleaseSlot |> grant pick)
            else None
        | None => None
        end
      else
        match len ch with
        | 0 => None
        | S n => Some (s |> on_mgr (set_semaphore (Some {| cap := cap ch; len := n |}))
                        |> note (Worker e) AReleaseSlot)
        end
  end.

(** Where a goroutine continues after the [deleteIfCurrent] it called from
    [site]: the two calls inside [acquireSlot] are followed by
    [return false], the one after the task by [OnExecuted]. *)
Definition after_delete (e : nat) (from : site) (s : state) : state :=
  match from with
  | AfterTask => on_entry e (set_worker GExecuted) s
  | AfterDrop | AfterWait =>
      s |> note (Worker e) (AAcquire false) |> on_entry e (set_worker GCancel)
  end.

(** The function given to [m.wg.Go]:
    [defer cancel(); if !acquireSlot {return}; defer releaseSlot();
     start := Now(); task(ctx); deleteIfCurrent; OnExecuted],
    then the deferred calls in reverse order, then [wg.Done]. *)
Definition worker_step (e : nat) (pick : nat) (s : state) : option state :=
  match heap s !! e with
  | Some c =>
      match worker c with
      | GAcquire => Some (acquireSlot e pick c s)
      | GDelete from =>
          s' ← mu_Lock s;
          Some (s' |> deleteIfCurrent (Worker e) (e_id c) e
                   |> on_entry e (set_worker (GDeleteUnlock from)))
      | GDeleteUnlock from =>
          Some (s |> mu_Unlock |> after_delete e from)
      | GStart =>
          Some (s |> on_entry e (fun c => set_worker GRunning (set_start (now s) c))
                  |> note (Worker e) (AStart (now s))
                  |> note (Worker e) (AInvoke (e_task c)))
      | GRunning =>
          Some (s |> note (Worker e) AReturn
                  |> on_entry e (set_worker (GDelete AfterTask)))
      | GExecuted =>
          Some (s |> emit (Worker e)
                       (OnExecuted (e_id c) (Z.of_nat (now s) - Z.of_nat (start c)))
                  |> on_entry e (set_worker GRelease))
      | GRelease =>
          s' ← releaseSlot e pick s;
          Some (on_entry e (set_worker GCancel) s')
      | GCancel =>
          Some (s |> cancel (Worker e) e |> on_entry e (set_worker GWgDone))
      | GWgDone =>
          Some (s |> on_mgr (fun m => set_wg (pred (wg m)) m)
                  |> note (Worker e) AWgDone
                  |> on_entry e (set_worker GExit))
      | GNone | GParked | GExit => None
      end
  | None => None
  end.

(** The closure given to [m.shutdownOnce.Do] in [Shutdown]. The range
    over the map visits the keys in no fixed order: [k] is the key visited
    next. *)
Definition closing_step (k : string) (s : state) : option state :=
  match shutdownOnce (mgr s) with
  | OnceLock =>
      s' ← mu_Lock s; Some (on_mgr (set_shutdownOnce OnceClose) s')
  | OnceClose =>
      Some (s |> on_mgr (set_isClosed true) |> note Closer ASetClosed
              |> on_mgr (set_shutdownOnce OnceRange))
  | OnceRange =>
      if bool_decide (pending (mgr s) = ∅)
      then Some (s |> mu_Unlock |> on_mgr (set_shutdownOnce OnceSpawn))
      else match pending (mgr s) !! k with
           | Some e => Some (shutdown_visit k e s)
           | None => None
           end
  | OnceSpawn =>
      Some (s |> set_drainer DWait |> on_mgr (set_shutdownOnce OnceDone))
  | OnceIdle | OnceDone => None
  end.

(** The goroutine started by that closure: [m.wg.Wait(); close(m.shutdownDone)]. *)
Definition drainer_step (s : state) : option state :=
  match drainer s with
  | DWait => if wg (mgr s) =? 0 then Some (set_drainer DClose s) else None
  | DClose =>
      Some (s |> on_mgr (set_shutdownDone true) |> note Drainer ACloseDone
              |> set_drainer DExit)
  | DNone | DExit => None
  end.

(** The [select] that ends [Shutdown], reached once [shutdownOnce.Do] has
    returned: the result, or [None] while both cases block. With both
    cases ready [pick] chooses. *)
Definition Shutdown (ctx : Context) (pick : nat) (s : state)
    : option (option error) :=
  match shutdownOnce (mgr s) with
  | OnceDone =>
      match shutdownDone (mgr s), ctx_Err (now s) ctx with
      | true, Some err => Some (match pick with 0 => None | _ => Some err end)
      | true, None => Some None
      | false, Some err => Some (Some err)
      | false, None => None
      end
  | _ => None
  end.

(* ===================================================================== *)
(** ** The interleaving                                                    *)
(* ===================================================================== *)

Inductive call :=
| CallSchedule (id : string) (d : Z) (task : Task)
| CallCancel (id : string).

Inductive label :=
| Tick                          (* the clock advances *)
| Call (c : call)               (* a caller gets [m.mu.Lock()] and runs the body *)
| Return                        (* that caller's deferred [m.mu.Unlock()] *)
| ShutdownFirst                 (* a [Shutdown] call finds [shutdownOnce] idle *)
| Closing (k : string)          (* next statement of the [shutdownOnce] closure *)
| Fire (e : nat)                (* the timer of entry [e] expires *)
| RunHandler (e : nat)          (* next statement of the timer callback of [e] *)
| RunWorker (e : nat) (pick : nat)  (* next statement of the goroutine of [e] *)
| RunDrainer.                   (* next statement of the drain goroutine *)

Definition run_call (c : call) : state -> state :=
  match c with
  | CallSchedule id d task => Schedule id d task
  | CallCancel id => Cancel id
  end.

Definition step (l : label) (s : state) : option state :=
  match l with
  | Tick => Some (set_now (S (now s)) s)
  | Call c =>
      s' ← mu_Lock s; Some (s' |> run_call c |> set_caller_in true)
  | Return =>
      if caller_in s then Some (s |> mu_Unlock |> set_caller_in false) else None
  | ShutdownFirst =>
      match shutdownOnce (mgr s) with
      | OnceIdle => Some (on_mgr (set_shutdownOnce OnceLock) s)
      | _ => None
      end
  | Closing k => closing_step k s
  | Fire e => fire e s
  | RunHandler e => handler_step e s
  | RunWorker e pick => worker_step e pick s
  | RunDrainer => drainer_step s
  end.

Fixpoint run (ls : list label) (s : state) : option state :=
  match ls with
  | [] => Some s
  | l :: ls' =>
      match step l s with
      | Some s' => run ls' s'
      | None => None
      end
  end.

(** The states the program can be in. *)
Definition reachable (s : state) : Prop :=
  ∃ opts ls, run ls (boot (NewManager opts)) = Some s.

(** The same steps as a relation, one rule for each path through [step];
    [step_Step] and [Step_step] below show that the two agree. *)
Inductive Step : label -> state -> state -> Prop :=
| Step_Tick s :
    Step Tick s (set_now (S (now s)) s)
| Step_Call c s :
    writer (mu (mgr s)) = false -> readers (mu (mgr s)) = 0 ->
    Step (Call c) s (s |> lock_taken |> run_call c |> set_caller_in true)
| Step_Return s :
    caller_in s = true ->
    Step Return s (s |> mu_Unlock |> set_caller_in false)
| Step_ShutdownFirst s :
    shutdownOnce (mgr s) = OnceIdle ->
    Step ShutdownFirst s (on_mgr (set_shutdownOnce OnceLock) s)
| Step_OnceLock k s :
    shutdownOnce (mgr s) = OnceLock ->
    writer (mu (mgr s)) = false -> readers (mu (mgr s)) = 0 ->
    Step (Closing k) s (s |> lock_taken |> on_mgr (set_shutdownOnce OnceClose))
| Step_OnceClose k s :
    shutdownOnce (mgr s) = OnceClose ->
    Step (Closing k) s
      (s |> on_mgr (set_isClosed true) |> note Closer ASetClosed
         |> on_mgr (set_shutdownOnce OnceRange))
| Step_OnceRange k e s :
    shutdownOnce (mgr s) = OnceRange ->
    pending (mgr s) !! k = Some e ->
    Step (Closing k) s (shutdown_visit k e s)
| Step_OnceUnlock k s :
    shutdownOnce (mgr s) = OnceRange ->
    pending (mgr s) = ∅ ->
    Step (Closing k) s (s |> mu_Unlock |> on_mgr (set_shutdownOnce OnceSpawn))
| Step_OnceSpawn k s :
    shutdownOnce (mgr s) = OnceSpawn ->
    Step (Closing k) s (s |> set_drainer DWait |> on_mgr (set_shutdownOnce OnceDone))
| Step_Fire e c s :
    heap s !! e = Some c -> timer c = TimerArmed -> fire_at c <= now s ->
    Step (Fire e) s
      (s |> on_entry e (fun c => set_handler HRLock (set_timer TimerFired c))
         |> note Runtime (AFire e))
| Step_HRLock e c s :
    heap s !! e = Some c -> handler c = HRLock ->
    writer (mu (mgr s)) = false ->
    Step (RunHandler e) s (s |> rlock_taken |> on_entry e (set_handler HCheck))
| Step_HCheck_closed e c s :
    heap s !! e = Some c -> handler c = HCheck -> isClosed (mgr s) = true ->
    Step (RunHandler e) s (on_entry e (set_handler HAbort) s)
| Step_HCheck_open e c s :
    heap s !! e = Some c -> handler c = HCheck -> isClosed (mgr s) = false ->
    Step (RunHandler e) s (on_entry e (set_handler HSpawn) s)
| Step_HAbort e c s :
    heap s !! e = Some c -> handler c = HAbort ->
    Step (RunHandler e) s
      (s |> cancel (Handler e) e |> on_entry e (set_handler HRUnlock))
| Step_HSpawn e c s :
    heap s !! e = Some c -> handler c = HSpawn ->
    Step (RunHandler e) s
      (s |> on_mgr (fun m => set_wg (S (wg m)) m)
         |> on_entry e (fun c => set_handler HRUnlock (set_worker GAcquire c))
         |> note (Handler e) (AWgGo e))
| Step_HRUnlock e c s :
    heap s !! e = Some c -> handler c = HRUnlock ->
    Step (RunHandler e) s (s |> mu_RUnlock |> on_entry e (set_handler HExit))
| Step_Acquire e pick c s :
    heap s !! e = Some c -> worker c = GAcquire ->
    Step (RunWorker e pick) s (acquireSlot e pick c s)
| Step_Delete_current e pick c from s :
    heap s !! e = Some c -> worker c = GDelete from ->
    writer (mu (mgr s)) = false -> readers (mu (mgr s)) = 0 ->
    pending (mgr s) !! e_id c = Some e ->
    Step (RunWorker e pick) s
      (s |> lock_taken
         |> on_mgr (fun m => set_pending (delete (e_id c) (pending m)) m)
         |> note (Worker e) (ADeleteIfCurrent (e_id c) e true)
         |> on_entry e (set_worker (GDeleteUnlock from)))
| Step_Delete_stale e pick c from s :
    heap s !! e = Some c -> worker c = GDelete from ->
    writer (mu (mgr s)) = false -> readers (mu (mgr s)) = 0 ->
    pending (mgr s) !! e_id c ≠ Some e ->
    Step (RunWorker e pick) s
      (s |> lock_taken
         |> note (Worker e) (ADeleteIfCurrent (e_id c) e false)
         |> on_entry e (set_worker (GDeleteUnlock from)))
| Step_DeleteUnlock e pick c from s :
    heap s !! e = Some c -> worker c = GDeleteUnlock from ->
    Step (RunWorker e pick) s (s |> mu_Unlock |> after_delete e from)
| Step_Start e pick c s :
    heap s !! e = Some c -> worker c = GStart ->
    Step (RunWorker e pick) s
      (s |> on_entry e (fun c => set_worker GRunning (set_start (now s) c))
         |> note (Worker e) (AStart (now s))
         |> note (Worker e) (AInvoke (e_task c)))
| Step_TaskReturn e pick c s :
    heap s !! e = Some c -> worker c = GRunning ->
    Step (RunWorker e pick) s
      (s |> note (Worker e) AReturn |> on_entry e (set_worker (GDelete AfterTask)))
| Step_Executed e pick c s :
    heap s !! e = Some c -> worker c = GExecuted ->
    Step (RunWorker e pick) s
      (s |> emit (Worker e)
              (OnExecuted (e_id c) (Z.of_nat (now s) - Z.of_nat (start c)))
         |> on_entry e (set_worker GRelease))
| Step_Release e pick c s s1 :
    heap s !! e = Some c -> worker c = GRelease ->
    releaseSlot e pick s = Some s1 ->
    Step (RunWorker e pick) s (on_entry e (set_worker GCancel) s1)
| Step_DeferCancel e pick c s :
    heap s !! e = Some c -> worker c = GCancel ->
    Step (RunWorker e pick) s
      (s |> cancel (Worker e) e |> on_entry e (set_worker GWgDone))
| Step_WgDone e pick c s :
    heap s !! e = Some c -> worker c = GWgDone ->
    Step (RunWorker e pick) s
      (s |> on_mgr (fun m => set_wg (pred (wg m)) m)
         |> note (Worker e) AWgDone
         |> on_entry e (set_worker GExit))
| Step_DWait s :
    drainer s = DWait -> wg (mgr s) = 0 ->
    Step RunDrainer s (set_drainer DClose s)
| Step_DClose s :
    drainer s = DClose ->
    Step RunDrainer s
      (s |> on_mgr (set_shutdownDone true) |> note Drainer ACloseDone
         |> set_drainer DExit).

(** The outcomes of the first look of [acquireSlot]. *)
Inductive Acquire (e : nat) (c : entry) (s : state) : state -> Prop :=
| Acquire_unlimited :
    semaphore (mgr s) = None ->
    Acquire e c s (grant e s)
| Acquire_slot ch :
    semaphore (mgr s) = Some ch -> has_room ch = true ->
    Acquire e c s (s |> sem_send |> grant e)
| Acquire_dropped ch :
    semaphore (mgr s) = Some ch -> strategy (mgr s) = StrategyDrop ->
    has_room ch = false ->
    Acquire e c s
      (s |> emit (Worker e) (OnFailed (e_id c) ErrTaskDropped)
         |> on_entry e (set_worker (GDelete AfterDrop)))
| Acquire_cancelled ch :
    semaphore (mgr s) = Some ch -> strategy (mgr s) = StrategyBlock ->
    ctx_done c = true ->
    Acquire e c s (on_entry e (set_worker (GDelete AfterWait)) s)
| Acquire_parked ch :
    semaphore (mgr s) = Some ch -> strategy (mgr s) = StrategyBlock ->
    has_room ch = false -> ctx_done c = false ->
    Acquire e c s (on_entry e (set_worker GParked) s).

(** The outcomes of [releaseSlot]. *)
Inductive Release (e : nat) (s : state) : state -> Prop :=
| Release_unlimited :
    semaphore (mgr s) = None ->
    Release e s (note (Worker e) AReleaseSlot s)
| Release_handoff ch w c :
    semaphore (mgr s) = Some ch ->
    heap s !! w = Some c -> worker c = GParked ->
    Release e s (s |> note (Worker e) AReleaseSlot |> grant w)
| Release_free ch n :
    semaphore (mgr s) = Some ch -> len ch = S n ->
    existsb is_parked (heap s) = false ->
    Release e s
      (s |> on_mgr (set_semaphore (Some {| cap := cap ch; len := n |}))
         |> note (Worker e) AReleaseSlot).

(** The paths through [Schedule] and [Cancel]. *)
Inductive Called (s : state) : call -> state -> Prop :=
| Schedule_closed id d task :
    isClosed (mgr s) = true ->
    Called s (CallSchedule id d task) s
| Schedule_replace id d task old :
    isClosed (mgr s) = false -> pending (mgr s) !! id = Some old ->
    Called s (CallSchedule id d task)
      (s |> timer_Stop Caller old |> cancel Caller old
         |> emit Caller (OnRescheduled id)
         |> alloc (new_entry id d task (now s))
         |> install Caller id (length (heap s)))
| Schedule_fresh id d task :
    isClosed (mgr s) = false -> pending (mgr s) !! id = None ->
    Called s (CallSchedule id d task)
      (s |> emit Caller (OnScheduled id d)
         |> alloc (new_entry id d task (now s))
         |> install Caller id (length (heap s)))
| Cancel_known id e :
    pending (mgr s) !! id = Some e ->
    Called s (CallCancel id)
      (s |> timer_Stop Caller e |> cancel Caller e |> remove Caller id e
         |> emit Caller (OnCancelled id))
| Cancel_unknown id :
    pending (mgr s) !! id = None ->
    Called s (CallCancel id) s.

(* ===================================================================== *)
(** ** Vocabulary of the properties                                        *)
(* ===================================================================== *)

(** The trace from [s] on: what [s'] has recorded beyond [s]. *)
Definition since (s s' : state) : list (actor * action) :=
  drop (length (trace s)) (trace s').

(** The actions of one actor, in order. *)
Definition by_actor (who : actor) (tr : list (actor * action)) : list action :=
  omap (fun x => if decide (x.1 = who) then Some x.2 else None) tr.

Definition is_invoke (a : action) : bool :=
  match a with AInvoke _ => true | _ => false end.

Definition is_emit (a : action) : bool :=
  match a with AEmit _ => true | _ => false end.

Definition is_install (a : action) : bool :=
  match a with AInstall _ _ => true | _ => false end.

(** How many times the task body of entry [e] has been invoked. *)
Definition runs (e : nat) (s : state) : nat :=
  length (filter (fun a => is_invoke a = true) (by_actor (Worker e) (trace s))).

(** The telemetry calls made so far. *)
Definition telemetry (tr : list (actor * action)) : list TelemetryEvent :=
  omap (fun x => match x.2 with AEmit ev => Some ev | _ => None end) tr.

(** Number of entries of the heap that satisfy [P]. *)
Fixpoint census (P : entry -> bool) (h : list entry) : nat :=
  match h with
  | [] => 0
  | c :: h' => (if P c then 1 else 0) + census P h'
  end.

(** A goroutine that was neither parked nor refused a slot. *)
Definition unhindered (g : gpc) : bool :=
  match g with
  | GParked | GDelete AfterDrop | GDelete AfterWait
  | GDeleteUnlock AfterDrop | GDeleteUnlock AfterWait => false
  | _ => true
  end.

(** An action that reports a refusal: [OnFailed], or [acquireSlot]
    returning false. *)
Definition is_refusal (a : action) : bool :=
  match a with
  | AEmit (OnFailed _ _) | AAcquire false => true
  | _ => false
  end.

(** No task was dropped or made to wait for capacity. *)
Definition never_refused (s : state) : Prop :=
  Forall (fun c => unhindered (worker c) = true) (heap s) ∧
  Forall (fun x => is_refusal x.2 = false) (trace s).

Definition b2n (b : bool) : nat := if b then 1 else 0.

(** The callback holds the read lock of [mu]. *)
Definition in_read_cs (c : entry) : bool :=
  match handler c with
  | HCheck | HAbort | HSpawn | HRUnlock => true
  | _ => false
  end.

(** The callback found the manager open and has not yet called [wg.Go]. *)
Definition deciding (c : entry) : bool :=
  match handler c with HSpawn => true | _ => false end.

(** The callback has not started a goroutine (yet). *)
Definition before_go (h : hpc) : bool :=
  match h with
  | HNone | HRLock | HCheck | HAbort | HSpawn => true
  | _ => false
  end.

(** The goroutine holds [mu] inside [deleteIfCurrent]. *)
Definition in_delete_cs (c : entry) : bool :=
  match worker c with GDeleteUnlock _ => true | _ => false end.

(** The goroutine was started by [wg.Go] and has not called [wg.Done]. *)
Definition in_flight (c : entry) : bool :=
  match worker c with GNone | GExit => false | _ => true end.

(** The closure of [Shutdown] holds [mu]. *)
Definition once_in_cs (o : once) : bool :=
  match o with OnceClose | OnceRange => true | _ => false end.

(** The closure of [Shutdown] has set [isClosed]. *)
Definition once_closed (o : once) : bool :=
  match o with OnceRange | OnceSpawn | OnceDone => true | _ => false end.

(** The drain goroutine has returned from [wg.Wait]. *)
Definition drained (d : dpc) : bool :=
  match d with DClose | DExit => true | _ => false end.

(** The callback is past its branch on [isClosed]. *)
Definition after_branch (h : hpc) : bool :=
  match h with HRUnlock | HExit => true | _ => false end.

(** An entry whose timer has not fired has no callback; a callback that
    has not called [wg.Go] has no goroutine; a parked goroutine has a live
    token; and a callback that went past its branch without starting a
    goroutine has cancelled its token. *)
Definition entry_ok (c : entry) : Prop :=
  (timer c ≠ TimerFired -> handler c = HNone) ∧
  (before_go (handler c) = true -> worker c = GNone) ∧
  (worker c = GParked -> ctx_done c = false) ∧
  (after_branch (handler c) = true -> worker c = GNone -> ctx_done c = true).

(** What holds in every state the program can be in: the lock is held the
    way the program counters say, [isClosed] and the drain goroutine follow
    [shutdownOnce], and the wait group counts the goroutines in flight. *)
Record consistent (s : state) : Prop := {
  inv_excl : writer (mu (mgr s)) = true -> readers (mu (mgr s)) = 0;
  inv_readers : readers (mu (mgr s)) = census in_read_cs (heap s);
  inv_writer :
    b2n (writer (mu (mgr s))) =
    b2n (caller_in s) + b2n (once_in_cs (shutdownOnce (mgr s))) +
    census in_delete_cs (heap s);
  inv_closed : isClosed (mgr s) = once_closed (shutdownOnce (mgr s));
  inv_deciding : isClosed (mgr s) = true -> census deciding (heap s) = 0;
  inv_wg : wg (mgr s) = census in_flight (heap s);
  inv_drainer : drainer s = DNone <-> shutdownOnce (mgr s) ≠ OnceDone;
  inv_drained : drained (drainer s) = true -> wg (mgr s) = 0;
  inv_done : shutdownDone (mgr s) = true <-> drainer s = DExit;
  inv_entries : Forall entry_ok (heap s)
}.

(** The kinds of action a goroutine started by [wg.Go] performs. *)
Inductive kind :=
| KGranted | KRefused | KFailed | KStart | KInvoke | KReturn | KDelete
| KExecuted | KRelease | KCancel | KWgDone | KOther.

#[global] Instance kind_eq_dec : EqDecision kind.
Proof. solve_decision. Defined.

Definition kind_of (a : action) : kind :=
  match a with
  | AAcquire true => KGranted
  | AAcquire false => KRefused
  | AEmit (OnFailed _ _) => KFailed
  | AEmit (OnExecuted _ _) => KExecuted
  | AStart _ => KStart
  | AInvoke _ => KInvoke
  | AReturn => KReturn
  | ADeleteIfCurrent _ _ _ => KDelete
  | AReleaseSlot => KRelease
  | ACancel _ => KCancel
  | AWgDone => KWgDone
  | _ => KOther
  end.

(** What the goroutine of entry [e] has done between [s] and [s']. *)
Definition done_by (e : nat) (s s' : state) : list kind :=
  map kind_of (by_actor (Worker e) (since s s')).

(** The goroutine is past the [select] of [acquireSlot]: its way to the
    end is settled. *)
Definition committed (g : gpc) : bool :=
  match g with GNone | GAcquire | GParked => false | _ => true end.

(** What a committed goroutine still has to do, in order. *)
Definition ahead (g : gpc) : list kind :=
  match g with
  | GStart =>
      [KStart; KInvoke; KReturn; KDelete; KExecuted; KRelease; KCancel; KWgDone]
  | GRunning => [KReturn; KDelete; KExecuted; KRelease; KCancel; KWgDone]
  | GDelete AfterTask => [KDelete; KExecuted; KRelease; KCancel; KWgDone]
  | GDeleteUnlock AfterTask | GExecuted => [KExecuted; KRelease; KCancel; KWgDone]
  | GRelease => [KRelease; KCancel; KWgDone]
  | GDelete AfterDrop | GDelete AfterWait => [KDelete; KRefused; KCancel; KWgDone]
  | GDeleteUnlock AfterDrop | GDeleteUnlock AfterWait => [KRefused; KCancel; KWgDone]
  | GCancel => [KCancel; KWgDone]
  | GWgDone => [KWgDone]
  | GNone | GAcquire | GParked | GExit => []
  end.

(** The task body of the goroutine has not been invoked and may still be. *)
Definition body_ahead (g : gpc) : bool :=
  match g with GNone | GAcquire | GParked | GStart => true | _ => false end.

(** An entry that will never run: no goroutine, and either its timer was
    stopped before it fired or its callback found the manager closed. *)
Definition dormant (c : entry) : Prop :=
  worker c = GNone ∧
  match handler c with
  | HNone => timer c = TimerStopped
  | HAbort | HRUnlock | HExit => True
  | _ => False
  end.

(** No task body is invoked twice, and none is invoked before its
    goroutine is past [acquireSlot]. *)
Definition runs_ok (s : state) : Prop :=
  ∀ e, runs e s <= 1 ∧
       (from_option (fun c => body_ahead (worker c)) true (heap s !! e) = true ->
        runs e s = 0).

(** A fired task that was turned away by its own callback: the callback
    found the manager closed, starts no goroutine and cancels its token. *)
Definition excluded (c : entry) : Prop :=
  worker c = GNone ∧
  (handler c = HAbort ∨ (after_branch (handler c) = true ∧ ctx_done c = true)).

(** An action that neither installs an entry nor invokes the task of an
    entry allocated at address [n] or later. *)
Definition quiet (n : nat) (x : actor * action) : Prop :=
  is_install x.2 = false ∧
  (is_invoke x.2 = true -> ∃ e, x.1 = Worker e ∧ e < n).

(* ===================================================================== *)
(** ** Concrete runs                                                       *)
(* ===================================================================== *)

(** The state a run ends in (the start state, should the run block). *)
Definition after (ls : list label) (s : state) : state :=
  default s (run ls s).

(** [Shutdown] on a fresh manager, up to the start of the drain
    goroutine. *)
Definition closing_run : list label :=
  [ShutdownFirst; Closing "x"; Closing "x"; Closing "x"; Closing "x"].

Definition closing_state : state := after closing_run (boot (NewManager [])).

(** The same, with the drain goroutine run to its end. *)
Definition drained_state : state :=
  after (closing_run ++ [RunDrainer; RunDrainer]) (boot (NewManager [])).

(** A context without deadline whose cancel function was called, and a
    context whose deadline has passed. *)
Definition cancelled_ctx : Context := {| deadline := None; canceled := Some 0 |}.
Definition expired_ctx : Context := {| deadline := Some 0; canceled := None |}.

(** The actions of [done] that are among [ks] happen in the order of
    [ks]. *)
Definition in_order (ks done : list kind) : Prop :=
  filter (fun k => k ∈ ks) done `prefix_of` ks.

(** The order of the goroutine after it was granted a slot. *)
Definition order_after_grant : list kind :=
  [KStart; KInvoke; KReturn; KDelete; KExecuted; KRelease; KCancel; KWgDone].

(** The order of the goroutine after it was refused a slot or cancelled
    while it waited for one. *)
Definition order_after_refusal : list kind :=
  [KDelete; KRefused; KCancel; KWgDone].

(** One task on a manager with one slot, up to the grant of the slot, and
    from there to the end of its goroutine. *)
Definition granted_run : list label :=
  [Call (CallSchedule "a" 0 7); Return; Fire 0;
   RunHandler 0; RunHandler 0; RunHandler 0; RunHandler 0; RunWorker 0 0].

Definition granted_state : state :=
  after granted_run (boot (NewManager [WithLimit 1 StrategyBlock])).

Definition finishing_run : list label :=
  [RunWorker 0 0; RunWorker 0 0; RunWorker 0 0; RunWorker 0 0;
   RunWorker 0 0; RunWorker 0 0; RunWorker 0 0; RunWorker 0 0].

(** Two calls of [Schedule] for the same ID, the second one still
    inside. *)
Definition scheduled_state : state :=
  after [Call (CallSchedule "x" 10 1); Return] (boot (NewManager [])).

Definition rescheduled_state : state :=
  after [Call (CallSchedule "x" 10 2)] scheduled_state.

(** A task that was replaced while it ran: its body has returned and its
    goroutine is about to call [deleteIfCurrent]. *)
Definition stale_run : list label :=
  [Call (CallSchedule "z" 0 1); Return; Fire 0;
   RunHandler 0; RunHandler 0; RunHandler 0; RunHandler 0;
   RunWorker 0 0; RunWorker 0 0;
   Call (CallSchedule "z" 100 2); Return; RunWorker 0 0].

Definition stale_state : state := after stale_run (boot (NewManager [])).

(** A timer callback that found the manager open and is about to call
    [wg.Go]. *)
Definition spawning_state : state :=
  after [Call (CallSchedule "a" 0 7); Return; Fire 0; RunHandler 0; RunHandler 0]
    (boot (NewManager [])).

(** One slot, taken by "a", and the goroutine of "b" about to ask for
    it. *)
Definition contended_run : list label :=
  granted_run ++
  [Call (CallSchedule "b" 0 8); Return; Fire 1;
   RunHandler 1; RunHandler 1; RunHandler 1; RunHandler 1].

Definition dropping_state : state :=
  after contended_run (boot (NewManager [WithLimit 1 StrategyDrop])).

(** The same under the blocking strategy, with the goroutine of "b"
    parked in its [select], and then [Cancel] called for "b". *)
Definition parked_state : state :=
  after (contended_run ++ [RunWorker 1 0])
    (boot (NewManager [WithLimit 1 StrategyBlock])).

Definition unparked_state : state :=
  after [Call (CallCancel "b")] parked_state.

(** A context that is not done. *)
Definition background_ctx : Context := {| deadline := None; canceled := None |}.

(** Every entry of the registry was allocated. *)
Definition registry_ok (s : state) : Prop :=
  map_Forall (fun _ e => e < length (heap s)) (pending (mgr s)).

(** The steps of the program itself, as opposed to the calls of its
    users. *)
Definition internal (l : label) : bool :=
  match l with Call _ | ShutdownFirst => false | _ => true end.

(** The goroutine holds an admission slot. *)
Definition holding (g : gpc) : bool :=
  match g with
  | GStart | GRunning | GDelete AfterTask | GDeleteUnlock AfterTask
  | GExecuted | GRelease => true
  | _ => false
  end.

(** The debounce scenario: on a fresh manager, [Schedule] twice for the
    same ID, time passing in between, all calls returned. *)
Definition debounce_run (id : string) (d1 : Z) (f1 : Task) (n : nat)
    (d2 : Z) (f2 : Task) : list label :=
  [Call (CallSchedule id d1 f1); Return] ++ replicate n Tick ++
  [Call (CallSchedule id d2 f2); Return].

(** What holds from the end of that scenario on, as long as the users
    make no further call: the heap holds the replaced entry [c0], which
    will never run, and its replacement [c1], which is alone: nobody
    cancels it and nobody competes for its slot. *)
Record alone (s : state) (c0 c1 : entry) : Prop := {
  al_heap : heap s = [c0; c1];
  al_stopped : timer c0 = TimerStopped ∧ handler c0 = HNone ∧ worker c0 = GNone;
  al_open : isClosed (mgr s) = false;
  al_once : shutdownOnce (mgr s) = OnceIdle;
  al_caller : caller_in s = false;
  al_sem :
    match semaphore (mgr s) with
    | None => True
    | Some ch => cap ch ≠ 0 ∧ len ch = b2n (holding (worker c1))
    end;
  al_ctx : ctx_done c1 = true -> worker c1 = GWgDone ∨ worker c1 = GExit;
  al_unhindered : unhindered (worker c1) = true;
  al_ran : body_ahead (worker c1) = false -> runs 1 s = 1;
  al_timer : timer c1 ≠ TimerStopped;
  al_fired : timer c1 = TimerFired -> handler c1 ≠ HNone;
  al_noabort : handler c1 ≠ HAbort;
  al_started : after_branch (handler c1) = true -> worker c1 ≠ GNone
}.

Definition debounced (s : state) : Prop :=
  consistent s ∧ runs_ok s ∧ ∃ c0 c1, alone s c0 c1.

(** How far the replacement is from the end of its goroutine. *)
Definition h_rank (h : hpc) : nat :=
  match h with
  | HNone => 5 | HRLock => 4 | HCheck => 3 | HSpawn => 2 | HRUnlock => 1
  | HAbort | HExit => 0
  end.

Definition g_rank (g : gpc) : nat :=
  match g with
  | GNone => 11 | GAcquire => 10 | GStart => 9 | GRunning => 8
  | GDelete _ => 7 | GDeleteUnlock _ => 6 | GExecuted => 5 | GRelease => 4
  | GCancel => 3 | GWgDone => 2 | GParked => 1 | GExit => 0
  end.

Definition distance (t : nat) (c : entry) : nat :=
  (fire_at c - t) + b2n (bool_decide (timer c = TimerArmed)) +
  h_rank (handler c) + g_rank (worker c).

(** How far the replacement at address 1 is from the end. *)
Definition remaining (s : state) : nat :=
  from_option (distance (now s)) 0 (heap s !! 1).

(** The goroutine of the entry at address [e] has ended. *)
Definition finished (e : nat) (s : state) : Prop :=
  ∃ c, heap s !! e = Some c ∧ worker c = GExit.

(** A predicate on entries that the statements of a canceller leave
    alone: it looks at the program counters only, and not at whether a
    goroutine is parked. *)
Definition canceller_proof (P : entry -> bool) : Prop :=
  (∀ c, P (stop_timer c) = P c) ∧ (∀ c, P (mark_cancelled c) = P c).

(* ===================================================================== *)
(** ** Vocabulary of the further properties                                *)
(* ===================================================================== *)

(** The goroutine of the entry holds an admission slot; the task body of
    the entry is running. *)
Definition holds_slot (c : entry) : bool := holding (worker c).

Definition in_body (c : entry) : bool :=
  match worker c with GRunning => true | _ => false end.

(** The semaphore counts the goroutines that hold a slot, never beyond
    its capacity, which is not zero, and a goroutine is parked only in
    front of a full semaphore; without semaphore none is parked. *)
Definition slots_ok (s : state) : Prop :=
  match semaphore (mgr s) with
  | None => census is_parked (heap s) = 0
  | Some ch =>
      census holds_slot (heap s) = len ch ∧ len ch <= cap ch ∧
      (1 <= census is_parked (heap s) -> len ch = cap ch) ∧ 1 <= cap ch
  end.

(** What [NewManager] fixes for the life of the manager. *)
Definition config (m : Manager) : option nat * Strategy * TelemetryHandler :=
  (cap <$> semaphore m, strategy m, logger m).

(** The options that take effect: the last [WithLimit] with a positive
    limit, and the last [WithLogger] with a handler that is not nil. *)
Definition positive_limit (opt : Option) : option (Z * Strategy) :=
  match opt with
  | WithLimit limit strat => if (0 <? limit)%Z then Some (limit, strat) else None
  | WithLogger _ => None
  end.

Definition given_logger (opt : Option) : option TelemetryHandler :=
  match opt with
  | WithLogger l => l
  | WithLimit _ _ => None
  end.

Definition effective_limit (opts : list Option) : option (Z * Strategy) :=
  last (omap positive_limit opts).

Definition effective_logger (opts : list Option) : option TelemetryHandler :=
  last (omap given_logger opts).

(** The goroutine is past its [deleteIfCurrent]; it has called its
    deferred [cancel]. *)
Definition cleaned (g : gpc) : bool :=
  match g with
  | GDeleteUnlock _ | GExecuted | GRelease | GCancel | GWgDone | GExit => true
  | _ => false
  end.

Definition ended (g : gpc) : bool :=
  match g with GWgDone | GExit => true | _ => false end.

(** An entry that is still to be served: its token is not cancelled, its
    goroutine has not done its cleanup, and its callback did not find the
    manager closed. *)
Definition live (c : entry) : bool :=
  negb (ctx_done c) && negb (cleaned (worker c)) &&
  negb (bool_decide (handler c = HAbort)).

(** The closure of [Shutdown] is past its critical section. *)
Definition once_over (o : once) : bool :=
  match o with OnceSpawn | OnceDone => true | _ => false end.

(** The registry and the entries agree: the registry holds [e] under the
    ID of [e] exactly while [e] is live; a goroutine that has ended has
    cancelled its token; and a cancelled token has no armed timer. *)
Definition tidy_entry (p : gmap string nat) (e : nat) (c : entry) : Prop :=
  (p !! e_id c = Some e <-> live c = true) ∧
  (ended (worker c) = true -> ctx_done c = true) ∧
  (ctx_done c = true -> timer c ≠ TimerArmed).

Record tidy (s : state) : Prop := {
  td_names : ∀ id e, pending (mgr s) !! id = Some e ->
                     ∃ c, heap s !! e = Some c ∧ e_id c = id;
  td_entries : ∀ e c, heap s !! e = Some c -> tidy_entry (pending (mgr s)) e c;
  td_over : once_over (shutdownOnce (mgr s)) = true -> pending (mgr s) = ∅
}.

(** Timers are on time: a timer has fired no earlier than it was due, and
    a task body that was invoked was started after its timer fired. *)
Definition timely (s : state) : Prop :=
  ∀ e c, heap s !! e = Some c ->
    (timer c = TimerFired -> fire_at c <= now s) ∧
    (1 <= runs e s -> fire_at c <= start c ∧ start c <= now s).

(** The task bodies the goroutine of entry [e] has invoked. *)
Definition invoked (e : nat) (s : state) : list action :=
  filter (fun a => is_invoke a = true) (by_actor (Worker e) (trace s)).

(** A goroutine invokes the task of its own entry only. *)
Definition invokes_own (s : state) : Prop :=
  ∀ e c, heap s !! e = Some c ->
         Forall (fun a => a = AInvoke (e_task c)) (invoked e s).

(** [Cancel] called and returned, then the callback of [e] and the first
    two statements of its goroutine. *)
Definition late_cancel_run (id : string) (e : nat) : list label :=
  [Call (CallCancel id); Return;
   RunHandler e; RunHandler e; RunHandler e; RunHandler e;
   RunWorker e 0; RunWorker e 0].

(** A timer that has fired while nobody held the lock yet. *)
Definition fired_state : state :=
  after [Call (CallSchedule "a" 0 7); Return; Fire 0] (boot (NewManager [])).

(** A whole call of [Schedule] or [Cancel], from [m.mu.Lock()] to the
    deferred [m.mu.Unlock()]. *)
Definition returned (c : call) (s : state) : state :=
  s |> lock_taken |> run_call c |> set_caller_in true
    |> mu_Unlock |> set_caller_in false.

(** The IDs for which the closure of [Shutdown] has emitted
    [OnCancelled], in order. *)
Definition closed_ids (tr : list (actor * action)) : list string :=
  omap (fun x => match x with
                 | (Closer, AEmit (OnCancelled id)) => Some id
                 | _ => None
                 end) tr.

(** The closure of [Shutdown] holds the lock or is past it. *)
Definition once_locked (o : once) : bool :=
  match o with OnceIdle | OnceLock => false | _ => true end.

(** Two registered tasks and [Shutdown] inside its loop. *)
Definition ranging_state : state :=
  after [Call (CallSchedule "a" 10 1); Return; Call (CallSchedule "b" 10 2);
         Return; ShutdownFirst; Closing "a"; Closing "a"]
    (boot (NewManager [])).

Definition ranged_state : state :=
  after [Closing "b"; Closing "a"; Closing "a"] ranging_state.

(** What is left to do before the drain of [Shutdown] is over: the
    statements each callback and each goroutine still has before it, the
    stages of the closure and of the drain goroutine, one turn of the
    loop for each registered ID, and the return of a caller. *)
Definition h_todo (h : hpc) : nat :=
  match h with
  | HRLock => 18 | HCheck => 17 | HSpawn => 16 | HAbort => 2 | HRUnlock => 1
  | HNone | HExit => 0
  end.

Definition g_todo (g : gpc) : nat :=
  match g with
  | GAcquire => 12 | GParked => 11 | GStart => 10 | GRunning => 9
  | GDelete _ => 8 | GDeleteUnlock _ => 7 | GExecuted => 6 | GRelease => 5
  | GCancel => 4 | GWgDone => 3
  | GNone | GExit => 0
  end.

Definition todo (c : entry) : nat := h_todo (handler c) + g_todo (worker c).

Fixpoint total (w : entry -> nat) (h : list entry) : nat :=
  match h with
  | [] => 0
  | c :: h' => w c + total w h'
  end.

Definition once_todo (o : once) : nat :=
  match o with
  | OnceIdle => 10 | OnceLock => 9 | OnceClose => 8 | OnceRange => 7
  | OnceSpawn => 6 | OnceDone => 0
  end.

Definition drain_todo (d : dpc) : nat :=
  match d with DWait => 2 | DClose => 1 | DNone | DExit => 0 end.

Definition backlog (s : state) : nat :=
  total todo (heap s) + once_todo (shutdownOnce (mgr s)) +
  drain_todo (drainer s) + size (pending (mgr s)) + b2n (caller_in s).

(** The callback or the goroutine of the entry has a statement to run
    that needs neither a slot nor a lock held by somebody else. *)
Definition at_rlock (c : entry) : bool :=
  match handler c with HRLock => true | _ => false end.

Definition running (c : entry) : bool :=
  match worker c with
  | GAcquire | GStart | GRunning | GDelete _ | GExecuted | GRelease
  | GCancel | GWgDone => true
  | _ => false
  end.

(** Nothing is going on: no caller is inside, no callback and no
    goroutine has a statement left, and [Shutdown], if it was called, is
    through with its drain. *)
Definition busy (c : entry) : bool := negb (todo c =? 0).

Definition settled (s : state) : Prop :=
  caller_in s = false ∧ census busy (heap s) = 0 ∧
  (shutdownOnce (mgr s) = OnceIdle ∨ shutdownDone (mgr s) = true).

(** The steps the program takes by itself once its timers have fired:
    no call, no tick of the clock, no timer firing. *)
Definition winding_down (l : label) : bool :=
  match l with
  | Call _ | ShutdownFirst | Tick | Fire _ => false
  | _ => true
  end.

(** The telemetry calls among some actions, and those the goroutine of
    entry [e] has made. *)
Definition emitted (tr : list action) : list TelemetryEvent :=
  omap (fun a => match a with AEmit ev => Some ev | _ => None end) tr.

Definition reported (e : nat) (s : state) : list TelemetryEvent :=
  emitted (by_actor (Worker e) (trace s)).

(** The goroutine of [e] was turned away by the drop strategy, or has run
    its task and reported it. *)
Definition was_dropped (s : state) (e : nat) (c : entry) : Prop :=
  reported e s = [OnFailed (e_id c) ErrTaskDropped] ∧ runs e s = 0 ∧
  strategy (mgr s) = StrategyDrop ∧ semaphore (mgr s) ≠ None.

Definition was_executed (s : state) (e : nat) (c : entry) : Prop :=
  ∃ d, reported e s = [OnExecuted (e_id c) d] ∧
       (0 ≤ d ≤ Z.of_nat (now s) - Z.of_nat (start c))%Z ∧ runs e s = 1.

(** What the goroutine of an entry has reported, by the statement it is
    at. *)
Definition report_ok (s : state) (e : nat) (c : entry) : Prop :=
  match worker c with
  | GNone | GAcquire | GParked | GStart
  | GDelete AfterWait | GDeleteUnlock AfterWait =>
      reported e s = [] ∧ runs e s = 0
  | GRunning | GDelete AfterTask | GDeleteUnlock AfterTask | GExecuted =>
      reported e s = [] ∧ runs e s = 1
  | GDelete AfterDrop | GDeleteUnlock AfterDrop => was_dropped s e c
  | GRelease => was_executed s e c
  | GCancel | GWgDone | GExit =>
      (reported e s = [] ∧ runs e s = 0) ∨ was_dropped s e c ∨ was_executed s e c
  end.

Definition reports_ok (s : state) : Prop :=
  ∀ e, match heap s !! e with
       | Some c => report_ok s e c
       | None => by_actor (Worker e) (trace s) = []
       end.

(** The statements a goroutine goes through, one after the other; a
    parked goroutine is moved on by whoever cancels its token or hands it
    a slot. *)
Definition pc_next (g g' : gpc) : bool :=
  match g, g' with
  | GNone, GAcquire
  | GAcquire, (GStart | GParked | GDelete AfterDrop | GDelete AfterWait)
  | GParked, (GStart | GDelete AfterWait)
  | GStart, GRunning
  | GRunning, GDelete AfterTask
  | GDeleteUnlock AfterTask, GExecuted
  | GDeleteUnlock AfterDrop, GCancel
  | GDeleteUnlock AfterWait, GCancel
  | GExecuted, GRelease
  | GRelease, GCancel
  | GCancel, GWgDone
  | GWgDone, GExit => true
  | GDelete f, GDeleteUnlock f' => bool_decide (f = f')
  | _, _ => false
  end.

(** What the goroutine of an entry says and invokes as it goes from one
    statement to the next. *)
Definition said (c c' : entry) (t : nat) : list TelemetryEvent :=
  match worker c, worker c' with
  | GAcquire, GDelete AfterDrop => [OnFailed (e_id c) ErrTaskDropped]
  | GExecuted, GRelease =>
      [OnExecuted (e_id c) (Z.of_nat t - Z.of_nat (start c))]
  | _, _ => []
  end.

Definition entered (c c' : entry) : nat :=
  match worker c, worker c' with
  | GStart, GRunning => 1
  | _, _ => 0
  end.

(** The second task finds the only slot taken and is dropped. *)
Definition dropped_state : state := after [RunWorker 1 0] dropping_state.


(* ********************************************************************* *)
(** * Proofs                                                               *)
(* ********************************************************************* *)

(* ===================================================================== *)
(** ** Proof tools                                                         *)
(* ===================================================================== *)

Lemma run_app ls1 ls2 s :
  run (ls1 ++ ls2) s = s' ← run ls1 s; run ls2 s'.
Proof.
  revert s. induction ls1 as [|l ls1 IH]; intros s; simpl; [done|].
  destruct (step l s); simpl; auto.
Qed.

(** An invariant of the steps holds along every run. *)
Lemma run_invariant (P : state -> Prop) :
  (∀ l s s', P s -> step l s = Some s' -> P s') ->
  ∀ ls s s', P s -> run ls s = Some s' -> P s'.
Proof.
  intros Hstep ls. induction ls as [|l ls IH]; intros s s' HP Hrun; simpl in Hrun.
  - by simplify_eq.
  - destruct (step l s) as [s1|] eqn:E; [|done]. eauto.
Qed.

Lemma NewManager_snoc opts opt :
  NewManager (opts ++ [opt]) = apply_option opt (NewManager opts).
Proof. unfold NewManager. by rewrite fold_left_app. Qed.

(** What every freshly built manager looks like. *)
Lemma NewManager_fresh opts :
  let m := NewManager opts in
  mu m = {| writer := false; readers := 0 |} ∧ pending m = ∅ ∧ wg m = 0 ∧
  isClosed m = false ∧ shutdownOnce m = OnceIdle ∧ shutdownDone m = false ∧
  (semaphore m = None ∨
   ∃ n, semaphore m = Some {| cap := S n; len := 0 |}).
Proof.
  induction opts as [|opt opts IH] using rev_ind; simpl.
  - repeat split; auto.
  - rewrite NewManager_snoc. simpl in IH.
    destruct IH as (?&?&?&?&?&?&Hs).
    destruct opt as [limit strat|[h|]]; simpl; [|by repeat split..].
    destruct (0 <? limit)%Z eqn:E; simpl; [|by repeat split].
    repeat split; auto. right. exists (pred (Z.to_nat limit)).
    apply Z.ltb_lt in E. do 2 f_equal. lia.
Qed.

Lemma step_Step l s s' : step l s = Some s' -> Step l s s'.
Proof.
  intros H. destruct l; simpl in H.
  - simplify_eq. constructor.
  - unfold mu_Lock in H.
    destruct (writer (mu (mgr s))) eqn:Ew; [done|].
    destruct (readers (mu (mgr s))) eqn:Er; [|done].
    simpl in H. simplify_eq. by constructor.
  - destruct (caller_in s) eqn:E; simplify_eq. by constructor.
  - destruct (shutdownOnce (mgr s)) eqn:E; simplify_eq. by constructor.
  - unfold closing_step, mu_Lock in H.
    destruct (shutdownOnce (mgr s)) eqn:E; simplify_eq.
    + destruct (writer (mu (mgr s))) eqn:Ew; [done|].
      destruct (readers (mu (mgr s))) eqn:Er; [|done].
      simpl in H. simplify_eq. by constructor.
    + by constructor.
    + case_bool_decide.
      * simplify_eq. by constructor.
      * destruct (pending (mgr s) !! k) eqn:Ek; simplify_eq. by constructor.
    + by constructor.
  - unfold fire in H. destruct (heap s !! e) as [c|] eqn:Ec; [|done].
    case_bool_decide; [|done]. simpl in H.
    destruct (fire_at c <=? now s) eqn:Et; simplify_eq.
    apply Nat.leb_le in Et. by econstructor.
  - unfold handler_step, mu_RLock in H.
    destruct (heap s !! e) as [c|] eqn:Ec; [|done].
    destruct (handler c) eqn:Eh; simplify_eq; try by econstructor.
    + destruct (writer (mu (mgr s))) eqn:Ew; simplify_eq/=. by econstructor.
    + destruct (isClosed (mgr s)) eqn:Ecl;
        [by eapply Step_HCheck_closed|by eapply Step_HCheck_open].
  - unfold worker_step, mu_Lock in H.
    destruct (heap s !! e) as [c|] eqn:Ec; [|done].
    destruct (worker c) eqn:Eg; simplify_eq; try by econstructor.
    + destruct (writer (mu (mgr s))) eqn:Ew; [done|].
      destruct (readers (mu (mgr s))) eqn:Er; [|done].
      simpl in H. simplify_eq. unfold deleteIfCurrent. simpl.
      destruct (pending (mgr s) !! e_id c) as [cur|] eqn:Ep.
      * case_decide; subst; [by eapply Step_Delete_current|].
        eapply Step_Delete_stale; eauto; congruence.
      * eapply Step_Delete_stale; eauto; congruence.
    + destruct (releaseSlot e pick s) eqn:Erel; simplify_eq/=. by econstructor.
  - unfold drainer_step in H. destruct (drainer s) eqn:Ed; simplify_eq.
    + destruct (wg (mgr s) =? 0) eqn:Ew; simplify_eq.
      apply Nat.eqb_eq in Ew. by constructor.
    + by constructor.
Qed.

Lemma Step_step l s s' : Step l s s' -> step l s = Some s'.
Proof.
  destruct 1; simpl; try done;
    unfold closing_step, fire, handler_step, worker_step, drainer_step,
      mu_Lock, mu_RLock;
    repeat match goal with H : _ = _ |- _ => rewrite H end; simpl; try done.
  - rewrite bool_decide_eq_false_2; [done|].
    intros He. rewrite He, lookup_empty in *. done.
  - destruct (fire_at c <=? now s) eqn:Et; [done|]. apply Nat.leb_gt in Et. lia.
  - unfold deleteIfCurrent. simpl. rewrite H3. by rewrite decide_True.
  - unfold deleteIfCurrent. simpl.
    destruct (pending (mgr s) !! e_id c) as [cur|] eqn:Ep; [|done].
    rewrite decide_False; [done|congruence].
Qed.

Lemma acquireSlot_cases e pick c s : Acquire e c s (acquireSlot e pick c s).
Proof.
  unfold acquireSlot.
  destruct (semaphore (mgr s)) as [ch|] eqn:Es; [|by constructor].
  destruct (strategy (mgr s)) eqn:Est.
  - destruct (has_room ch) eqn:Er, (ctx_done c) eqn:Ed.
    + destruct pick; [by eapply Acquire_slot|by eapply Acquire_cancelled].
    + by eapply Acquire_slot.
    + by eapply Acquire_cancelled.
    + by eapply Acquire_parked.
  - destruct (has_room ch) eqn:Er; [by eapply Acquire_slot|by eapply Acquire_dropped].
Qed.

Lemma releaseSlot_cases e pick s s' :
  releaseSlot e pick s = Some s' -> Release e s s'.
Proof.
  unfold releaseSlot. intros H.
  destruct (semaphore (mgr s)) as [ch|] eqn:Es; [|simplify_eq; by constructor].
  destruct (existsb is_parked (heap s)) eqn:Ep.
  - destruct (heap s !! pick) as [w|] eqn:Ew; [|done].
    destruct (is_parked w) eqn:Ew'; simplify_eq.
    unfold is_parked in Ew'. apply bool_decide_eq_true in Ew'.
    by eapply Release_handoff.
  - destruct (len ch) eqn:El; simplify_eq. by eapply Release_free.
Qed.

Lemma run_call_cases c s : Called s c (run_call c s).
Proof.
  destruct c as [id d task|id]; simpl.
  - unfold Schedule. destruct (isClosed (mgr s)) eqn:Ec; [by constructor|].
    destruct (pending (mgr s) !! id) eqn:Ep; by constructor.
  - unfold Cancel. destruct (pending (mgr s) !! id) eqn:Ep; by constructor.
Qed.

(** Case analysis on a step: every path through [step], with the paths
    through [Schedule], [Cancel], [acquireSlot], [releaseSlot] and
    [after_delete] spelled out. *)
Ltac split_acquire e p c s :=
  let s1 := fresh "s" in let Heq := fresh "Heq" in let HA := fresh "HA" in
  remember (acquireSlot e p c s) as s1 eqn:Heq;
  pose proof (acquireSlot_cases e p c s) as HA;
  rewrite <- Heq in HA; clear Heq; destruct HA.

Ltac split_call c s :=
  let s1 := fresh "s" in let Heq := fresh "Heq" in let HA := fresh "HA" in
  remember (run_call c s) as s1 eqn:Heq;
  pose proof (run_call_cases c s) as HA;
  rewrite <- Heq in HA; clear Heq; destruct HA.

Ltac Step_cases H :=
  match type of H with
  | step ?l _ = _ =>
      tryif is_var l then idtac
      else (let l' := fresh "l" in let Hl := fresh "Hl" in
            remember l as l' eqn:Hl)
  end;
  apply step_Step in H; destruct H;
  try match goal with Hl : _ = _ :> label |- _ => simplify_eq end;
  try match goal with H : releaseSlot _ _ _ = Some _ |- _ =>
    apply releaseSlot_cases in H; destruct H end;
  try match goal with
  | |- context [acquireSlot ?e ?p ?c ?s] => split_acquire e p c s
  | _ : context [acquireSlot ?e ?p ?c ?s] |- _ => split_acquire e p c s
  end;
  try match goal with
  | |- context [run_call ?c ?s] => split_call c s
  | _ : context [run_call ?c ?s] |- _ => split_call c s
  end;
  try match goal with
  | |- context [after_delete _ ?f] => destruct f
  | _ : context [after_delete _ ?f] |- _ => destruct f
  end.

Lemma step_trace_grows l s s' :
  step l s = Some s' -> ∃ tr, trace s' = trace s ++ tr.
Proof.
  intros H. Step_cases H; unfold shutdown_visit, deleteIfCurrent; simpl;
    repeat case_match; simpl; rewrite <- ?app_assoc;
    solve [eexists; reflexivity | exists []; by rewrite app_nil_r].
Qed.

Lemma run_trace_grows ls s s' :
  run ls s = Some s' -> ∃ tr, trace s' = trace s ++ tr.
Proof.
  revert s. induction ls as [|l ls IH]; intros s H; simpl in H.
  - simplify_eq. exists []. by rewrite app_nil_r.
  - destruct (step l s) as [s1|] eqn:E; [|done].
    destruct (step_trace_grows _ _ _ E) as [tr1 H1].
    destruct (IH _ H) as [tr2 H2].
    exists (tr1 ++ tr2). by rewrite H2, H1, app_assoc.
Qed.

Lemma since_app s s' tr : trace s' = trace s ++ tr -> since s s' = tr.
Proof. intros H. unfold since. by rewrite H, drop_app_length. Qed.

Lemma trace_since_run ls s s' :
  run ls s = Some s' -> trace s' = trace s ++ since s s'.
Proof.
  intros H. destruct (run_trace_grows _ _ _ H) as [tr Htr].
  by rewrite (since_app _ _ _ Htr).
Qed.

(* ===================================================================== *)
(** ** A manager without semaphore                                        *)
(* ===================================================================== *)

Lemma WithLimit_nonpositive limit strat m :
  (limit ≤ 0)%Z -> apply_option (WithLimit limit strat) m = m.
Proof. intros H. simpl. destruct (0 <? limit)%Z eqn:E; [|done]. apply Z.ltb_lt in E. lia. Qed.

Lemma step_keeps_no_semaphore l s s' :
  step l s = Some s' -> semaphore (mgr s) = None -> semaphore (mgr s') = None.
Proof.
  intros H Hs. Step_cases H; unfold shutdown_visit, deleteIfCurrent; simpl in *;
    repeat case_match; simpl; congruence.
Qed.

Lemma Forall_alter_weak {A} (P : A -> Prop) (f : A -> A) (l : list A) i :
  Forall P l -> (∀ x, l !! i = Some x -> P x -> P (f x)) -> Forall P (alter f i l).
Proof.
  intros Hl Hf. apply Forall_lookup. intros j y Hy.
  destruct (decide (i = j)) as [->|Hne].
  - rewrite list_lookup_alter_eq in Hy. destruct (l !! j) as [x|] eqn:E; simplify_eq/=.
    apply Hf; auto. eapply Forall_lookup_1; eauto.
  - rewrite list_lookup_alter_ne in Hy by done. eapply Forall_lookup_1; eauto.
Qed.

Lemma unhindered_mark_cancelled c :
  unhindered (worker c) = true -> unhindered (worker (mark_cancelled c)) = true.
Proof.
  unfold mark_cancelled. destruct (worker c) eqn:E; simpl; rewrite ?E; done.
Qed.

Lemma step_never_refused l s s' :
  step l s = Some s' -> semaphore (mgr s) = None ->
  never_refused s -> never_refused s'.
Proof.
  intros H Hs [Hh Ht]. unfold never_refused.
  Step_cases H;
    try match goal with Hl : heap _ !! _ = Some ?c, Hw : worker ?c = _ |- _ =>
      pose proof (Forall_lookup_1 _ _ _ _ Hh Hl) as Hc; simpl in Hc;
      rewrite Hw in Hc; try discriminate Hc end;
    unfold shutdown_visit, deleteIfCurrent; simpl in *;
    repeat case_match; simpl; simplify_eq/=;
    rewrite ?Forall_app, ?Forall_singleton, ?Forall_cons; simpl;
    repeat split; auto;
    repeat (apply Forall_alter_weak; [|intros [] ? ?; simpl in *; simplify_eq/=; auto
                          using unhindered_mark_cancelled]); auto.
  all: try (unfold stop_timer; simpl; case_match; simpl; auto).
  all: try (apply unhindered_mark_cancelled; simpl; auto).
Qed.

(* ===================================================================== *)
(** ** Counting entries                                                    *)
(* ===================================================================== *)

Lemma census_app P h1 h2 : census P (h1 ++ h2) = census P h1 + census P h2.
Proof. induction h1 as [|c h1 IH]; simpl; [done|]. rewrite IH. lia. Qed.

Lemma census_alter P f e h :
  census P (alter f e h) + from_option (fun c => b2n (P c)) 0 (h !! e) =
  census P h + from_option (fun c => b2n (P (f c))) 0 (h !! e).
Proof.
  revert e. induction h as [|c h IH]; intros [|e]; simpl; try done.
  - unfold b2n. destruct (P c), (P (f c)); lia.
  - specialize (IH e). unfold alter in IH. lia.
Qed.

Lemma census_alter_same P f e h :
  (∀ c, h !! e = Some c -> P (f c) = P c) ->
  census P (alter f e h) = census P h.
Proof.
  intros Hf. pose proof (census_alter P f e h) as H.
  destruct (h !! e) as [c|]; simpl in H; [rewrite Hf in H by done|]; lia.
Qed.

Lemma census_zero P h e c :
  census P h = 0 -> h !! e = Some c -> P c = false.
Proof.
  revert e. induction h as [|c' h IH]; intros [|e] H0 Hc; simplify_eq/=.
  - destruct (P c); [lia|done].
  - eapply IH; [|done]. lia.
Qed.

(* ===================================================================== *)
(** ** The invariant                                                       *)
(* ===================================================================== *)

Lemma handler_mark_cancelled c : handler (mark_cancelled c) = handler c.
Proof.
  unfold mark_cancelled. destruct (worker c) eqn:E; simpl; rewrite ?E; reflexivity.
Qed.

Lemma timer_mark_cancelled c : timer (mark_cancelled c) = timer c.
Proof.
  unfold mark_cancelled. destruct (worker c) eqn:E; simpl; rewrite ?E; reflexivity.
Qed.

Lemma in_flight_mark_cancelled c : in_flight (mark_cancelled c) = in_flight c.
Proof.
  unfold mark_cancelled, in_flight. destruct (worker c) eqn:E; simpl; rewrite ?E; reflexivity.
Qed.

Lemma in_delete_cs_mark_cancelled c :
  in_delete_cs (mark_cancelled c) = in_delete_cs c.
Proof.
  unfold mark_cancelled, in_delete_cs. destruct (worker c) eqn:E; simpl; rewrite ?E; reflexivity.
Qed.

Lemma in_read_cs_mark_cancelled c : in_read_cs (mark_cancelled c) = in_read_cs c.
Proof. unfold in_read_cs. by rewrite handler_mark_cancelled. Qed.

Lemma deciding_mark_cancelled c : deciding (mark_cancelled c) = deciding c.
Proof. unfold deciding. by rewrite handler_mark_cancelled. Qed.

Lemma ctx_done_mark_cancelled c : ctx_done (mark_cancelled c) = true.
Proof. unfold mark_cancelled. by destruct (worker c). Qed.

Lemma stop_timer_handler c : handler (stop_timer c) = handler c.
Proof. unfold stop_timer. destruct (timer c) eqn:E; simpl; reflexivity. Qed.

Lemma stop_timer_worker c : worker (stop_timer c) = worker c.
Proof. unfold stop_timer. destruct (timer c) eqn:E; simpl; reflexivity. Qed.

Lemma stop_timer_ctx_done c : ctx_done (stop_timer c) = ctx_done c.
Proof. unfold stop_timer. destruct (timer c) eqn:E; simpl; reflexivity. Qed.

Lemma canceller_proof_read : canceller_proof in_read_cs.
Proof.
  split; intros c; [unfold in_read_cs; by rewrite stop_timer_handler|].
  apply in_read_cs_mark_cancelled.
Qed.

Lemma canceller_proof_deciding : canceller_proof deciding.
Proof.
  split; intros c; [unfold deciding; by rewrite stop_timer_handler|].
  apply deciding_mark_cancelled.
Qed.

Lemma canceller_proof_delete : canceller_proof in_delete_cs.
Proof.
  split; intros c; [unfold in_delete_cs; by rewrite stop_timer_worker|].
  apply in_delete_cs_mark_cancelled.
Qed.

Lemma canceller_proof_flight : canceller_proof in_flight.
Proof.
  split; intros c; [unfold in_flight; by rewrite stop_timer_worker|].
  apply in_flight_mark_cancelled.
Qed.

Lemma census_stop_cancel P e h :
  canceller_proof P ->
  census P (alter mark_cancelled e (alter stop_timer e h)) = census P h.
Proof.
  intros [H1 H2]. rewrite !census_alter_same; auto.
Qed.

Lemma entry_ok_stop_timer c : entry_ok c -> entry_ok (stop_timer c).
Proof.
  intros (H1 & H2 & H3 & H4). unfold entry_ok.
  rewrite stop_timer_handler, stop_timer_worker, stop_timer_ctx_done.
  split_and!; auto. intros Hn. apply H1. intros Hf. apply Hn.
  unfold stop_timer. by rewrite Hf.
Qed.

Lemma entry_ok_mark_cancelled c : entry_ok c -> entry_ok (mark_cancelled c).
Proof.
  intros (H1 & H2 & H3 & H4). unfold entry_ok.
  rewrite handler_mark_cancelled, timer_mark_cancelled.
  rewrite ctx_done_mark_cancelled.
  split_and!; auto.
  - intros Hb. pose proof (H2 Hb) as Hw. unfold mark_cancelled. rewrite Hw. simpl. exact Hw.
  - unfold mark_cancelled. destruct (worker c) eqn:E; simpl; rewrite ?E; done.
Qed.

Lemma boot_consistent opts : consistent (boot (NewManager opts)).
Proof.
  destruct (NewManager_fresh opts) as (Hmu & Hp & Hwg & Hc & Ho & Hd & Hs).
  split; simpl; rewrite ?Hmu, ?Hwg, ?Hc, ?Ho, ?Hd; simpl; try done.
Qed.

Lemma b2n_le b : b2n b <= 1.
Proof. destruct b; simpl; lia. Qed.

Lemma worker_mark_cancelled c :
  worker c ≠ GParked -> worker (mark_cancelled c) = worker c.
Proof.
  intros Hn. unfold mark_cancelled. destruct (worker c) eqn:E; simpl; rewrite ?E; done.
Qed.

(** The entry a step works on is well formed. *)
Ltac entry_facts He :=
  repeat match goal with
  | Hl : heap _ !! ?e = Some ?c |- _ =>
      lazymatch goal with
      | _ : entry_ok c |- _ => fail
      | _ => pose proof (Forall_lookup_1 _ _ _ _ He Hl : entry_ok c)
      end
  end;
  repeat match goal with
  | Hk : entry_ok ?c |- _ =>
      let K1 := fresh "K" in let K2 := fresh "K" in let K3 := fresh "K" in
      let K4 := fresh "K" in
      pose proof Hk as (K1 & K2 & K3 & K4); revert Hk;
      try match goal with Ht : timer c = _ |- _ => rewrite Ht in K1 end;
      try match goal with Hh : handler c = _ |- _ => rewrite Hh in K1 end;
      try specialize (K1 ltac:(discriminate));
      try match goal with Hh : handler c = _ |- _ => rewrite Hh in K2 end;
      try match goal with Hw : worker c = _ |- _ => rewrite Hw in K2, K3, K4 end;
      try match goal with Hh : handler c = _ |- _ => rewrite Hh in K4 end;
      try specialize (K2 eq_refl);
      try specialize (K3 eq_refl);
      try specialize (K4 eq_refl)
  end;
  intros; try congruence.

(** Replaces the census of an updated heap by the census before the
    update and the difference the updated entry makes. *)
Ltac census_norm E :=
  repeat first
    [ rewrite list_lookup_alter_eq in E
    | rewrite list_lookup_alter_ne in E by congruence ];
  repeat match goal with
  | Hl : _ !! _ = Some _ |- _ => rewrite Hl in E
  end;
  simpl in E;
  unfold in_read_cs, deciding, in_delete_cs, in_flight in E; simpl in E;
  rewrite ?stop_timer_handler, ?stop_timer_worker, ?handler_mark_cancelled in E;
  rewrite ?worker_mark_cancelled in E by congruence;
  repeat match goal with
  | Hh : handler ?c = _ |- _ => rewrite Hh in E
  | Hw : worker ?c = _ |- _ => rewrite Hw in E
  end;
  simpl in E.

Ltac census_one P f e h :=
  let E := fresh "E" in
  pose proof (census_alter P f e h) as E;
  let n := fresh "n" in
  set (n := census P (alter f e h)) in *; clearbody n;
  let m := fresh "m" in
  set (m := census P h) in *;
  census_norm E; subst m.

Ltac census_out :=
  repeat match goal with
  | |- context [census ?P (alter ?f ?e ?h)] => census_one P f e h
  | H : context [census ?P (alter ?f ?e ?h)] |- _ => census_one P f e h
  end.

Ltac b2n_bounds :=
  repeat match goal with
  | |- context [b2n ?b] =>
      lazymatch goal with
      | _ : b2n b <= 1 |- _ => fail
      | _ => pose proof (b2n_le b)
      end
  | H : context [b2n ?b] |- _ =>
      lazymatch goal with
      | _ : b2n b <= 1 |- _ => fail
      | _ => pose proof (b2n_le b)
      end
  end.

(** Names the fields of the state, so that what a step knows about them
    is substituted everywhere. *)
Ltac open_state s :=
  destruct s as [[[? ?] ? ? ? ? ? ? ? ?] ? ? ? ? ?]; simpl in *; subst.

Lemma census_le P Q h :
  (∀ c, P c = true -> Q c = true) -> census P h <= census Q h.
Proof.
  intros HPQ. induction h as [|c h IH]; simpl; [done|].
  destruct (P c) eqn:E; [rewrite (HPQ _ E)|]; destruct (Q c); lia.
Qed.

Lemma census_deciding_le h : census deciding h <= census in_read_cs h.
Proof.
  apply census_le. intros c. unfold deciding, in_read_cs.
  by destruct (handler c).
Qed.

Lemma census_pos P h e c : h !! e = Some c -> P c = true -> 1 <= census P h.
Proof.
  intros Hc HP. destruct (census P h) eqn:E; [|lia].
  rewrite (census_zero _ _ _ _ E Hc) in HP. done.
Qed.

Lemma entry_ok_new id d task t : entry_ok (new_entry id d task t).
Proof. by split_and!. Qed.

Lemma Forall_canceller e (h : list entry) :
  Forall entry_ok h ->
  Forall entry_ok (alter mark_cancelled e (alter stop_timer e h)).
Proof.
  intros Hh. repeat apply Forall_alter_weak; auto;
    intros; auto using entry_ok_stop_timer, entry_ok_mark_cancelled.
Qed.

Lemma Forall_entry_ok_alter f e (h : list entry) c :
  h !! e = Some c -> entry_ok (f c) -> Forall entry_ok h ->
  Forall entry_ok (alter f e h).
Proof.
  intros Hc Hf Hh. apply Forall_alter_weak; [done|].
  intros x Hx _. by simplify_eq.
Qed.

Ltac entry_ok_tac :=
  rewrite ?list_alter_alter_eq;
  repeat (eapply Forall_entry_ok_alter;
          [ first [ eassumption
                  | rewrite list_lookup_alter_ne by congruence; eassumption ]
          | | ]);
  try assumption;
  unfold entry_ok, compose; simpl;
  rewrite ?timer_mark_cancelled, ?handler_mark_cancelled;
  rewrite ?worker_mark_cancelled by congruence;
  rewrite ?ctx_done_mark_cancelled;
  repeat match goal with
  | Hh : handler ?c = _ |- _ => rewrite Hh
  | Hw : worker ?c = _ |- _ => rewrite Hw
  | Ht : timer ?c = _ |- _ => rewrite Ht
  end;
  simpl; split_and!; intros; solve [intuition congruence].

Lemma step_consistent l s s' :
  consistent s -> step l s = Some s' -> consistent s'.
Proof.
  intros [Hx Hr Hw Hc Hd Hg Hdr Hdd Hdn He] H.
  Step_cases H.
  all: entry_facts He.
  all: repeat match goal with
       | Hl : heap _ !! _ = Some ?c, Hh : handler ?c = HSpawn |- _ =>
           lazymatch goal with
           | _ : 1 <= census deciding _ |- _ => fail
           | _ => pose proof (census_pos deciding _ _ _ Hl
                                ltac:(unfold deciding; by rewrite Hh))
           end
       end.
  all: pose proof (census_deciding_le (heap s)).
  all: open_state s.
  all: split; simpl in *.
  all: rewrite ?census_app; simpl.
  all: rewrite ?census_stop_cancel by
         auto using canceller_proof_read, canceller_proof_deciding,
                    canceller_proof_delete, canceller_proof_flight.
  all: try tauto; try congruence; try lia.
  all: try (intuition congruence).
  all: try lazymatch goal with
       | |- Forall entry_ok _ =>
           first [ apply Forall_canceller; assumption
                 | apply Forall_app_2;
                   [ first [assumption | apply Forall_canceller; assumption]
                   | apply Forall_singleton, entry_ok_new ]
                 | solve [entry_ok_tac] ]
       | _ => idtac
       end.
  all: try (census_out; b2n_bounds; first [lia | congruence | intuition (congruence || lia)]).
  all: try (repeat match goal with
            | b : bool |- _ => destruct b
            | o : once |- _ => destruct o
            | d : dpc |- _ => destruct d
            end; simpl in *; solve [intuition (congruence || lia)]).
Qed.

Lemma run_consistent ls s s' :
  consistent s -> run ls s = Some s' -> consistent s'.
Proof. apply (run_invariant consistent). intros; eauto using step_consistent. Qed.

Lemma reachable_consistent s : reachable s -> consistent s.
Proof.
  intros (opts & ls & H). eapply run_consistent; [apply boot_consistent|done].
Qed.

(* ===================================================================== *)
(** ** One entry across a step                                             *)
(* ===================================================================== *)

(** Rewrites [since s s'] into the actions the step appended. *)
Ltac since_tac :=
  unfold done_by;
  repeat match goal with
  | |- context [since ?s ?s'] =>
      erewrite (since_app s s')
        by (simpl; rewrite <- ?app_assoc;
            first [reflexivity | symmetry; apply app_nil_r])
  end.

(** Resolves a lookup in the heap after a step. *)
Ltac norm_lookup Hc :=
  simpl in Hc;
  try (rewrite lookup_app_l in Hc
         by (rewrite ?length_alter; eapply lookup_lt_Some; eassumption));
  repeat (rewrite list_lookup_alter in Hc; case_decide; subst);
  repeat match goal with
  | Hl : heap _ !! _ = Some _ |- _ =>
      tryif constr_eq Hl Hc then fail else rewrite Hl in Hc
  end;
  simpl in Hc; simplify_eq.

Lemma step_heap_grows l s s' e c :
  step l s = Some s' -> heap s !! e = Some c -> is_Some (heap s' !! e).
Proof.
  intros H Hc. Step_cases H; simpl;
    try (rewrite lookup_app_l
           by (rewrite ?length_alter; eapply lookup_lt_Some; eassumption));
    rewrite ?list_lookup_alter; repeat case_decide; subst;
    rewrite ?Hc; simpl; eauto.
Qed.

Lemma by_actor_app who tr1 tr2 :
  by_actor who (tr1 ++ tr2) = by_actor who tr1 ++ by_actor who tr2.
Proof. unfold by_actor. apply omap_app. Qed.

Lemma since_trans s1 s2 s3 tr1 tr2 :
  trace s2 = trace s1 ++ tr1 -> trace s3 = trace s2 ++ tr2 ->
  since s1 s3 = since s1 s2 ++ since s2 s3.
Proof.
  intros H1 H2. rewrite (since_app _ _ _ H1), (since_app _ _ _ H2).
  apply since_app. by rewrite H2, H1, app_assoc.
Qed.

Lemma since_step_run l ls s s1 s' :
  step l s = Some s1 -> run ls s1 = Some s' ->
  since s s' = since s s1 ++ since s1 s'.
Proof.
  intros H1 H2. destruct (step_trace_grows _ _ _ H1) as [tr1 E1].
  destruct (run_trace_grows _ _ _ H2) as [tr2 E2]. eapply since_trans; eauto.
Qed.

Lemma since_refl s : since s s = [].
Proof. unfold since. apply drop_all. Qed.

(** A committed goroutine does what lies ahead of it, in that order, and
    nothing else. *)
Lemma committed_step l s s' e c c' :
  consistent s ->
  step l s = Some s' ->
  heap s !! e = Some c -> committed (worker c) = true ->
  heap s' !! e = Some c' ->
  committed (worker c') = true ∧ e_id c' = e_id c ∧
  done_by e s s' ++ ahead (worker c') = ahead (worker c).
Proof.
  intros Hs H Hc Hk Hc'. pose proof (inv_entries _ Hs) as He.
  Step_cases H; entry_facts He; since_tac; norm_lookup Hc'; simpl;
    unfold by_actor; simpl; repeat case_decide; simplify_eq/=;
    repeat match goal with
    | Hw : worker ?c = _ |- _ => rewrite Hw in *
    end;
    simpl in *; try done;
    unfold mark_cancelled, stop_timer;
    repeat match goal with
    | |- context [match worker ?c with _ => _ end] => destruct (worker c) eqn:?
    | |- context [match timer ?c with _ => _ end] => destruct (timer c) eqn:?
    | |- context [match ?f with AfterDrop => _ | _ => _ end] => destruct f
    end; simpl in *; simplify_eq;
    repeat match goal with
    | Hw : worker ?c = _ |- _ => rewrite Hw in *
    end; try done.
Qed.

Lemma committed_run ls s s' e c :
  consistent s ->
  run ls s = Some s' ->
  heap s !! e = Some c -> committed (worker c) = true ->
  ∃ c', heap s' !! e = Some c' ∧ committed (worker c') = true ∧
        e_id c' = e_id c ∧
        done_by e s s' ++ ahead (worker c') = ahead (worker c).
Proof.
  revert s c. induction ls as [|l ls IH]; intros s c Hs Hrun Hc Hk; simpl in Hrun.
  - simplify_eq. exists c. unfold done_by. by rewrite since_refl.
  - destruct (step l s) as [s1|] eqn:E; [|done].
    destruct (step_heap_grows _ _ _ _ _ E Hc) as [c1 Hc1].
    destruct (committed_step _ _ _ _ _ _ Hs E Hc Hk Hc1) as (Hk1 & Hid1 & Hd1).
    destruct (IH s1 c1 (step_consistent _ _ _ Hs E) Hrun Hc1 Hk1)
      as (c' & Hc' & Hk' & Hid' & Hd').
    exists c'. split_and!; auto; [congruence|].
    unfold done_by in *. rewrite (since_step_run _ _ _ _ _ E Hrun).
    rewrite by_actor_app, map_app, <- app_assoc. by rewrite Hd', Hd1.
Qed.

(** An entry that will never run stays that way, and its goroutine does
    nothing. *)
Lemma dormant_step l s s' e c c' :
  consistent s ->
  step l s = Some s' ->
  heap s !! e = Some c -> dormant c ->
  heap s' !! e = Some c' ->
  dormant c' ∧ by_actor (Worker e) (since s s') = [].
Proof.
  intros Hs H Hc [Hw Hh] Hc'. pose proof (inv_entries _ Hs) as He.
  Step_cases H; entry_facts He; since_tac; norm_lookup Hc'; simpl;
    unfold by_actor, dormant; simpl; repeat case_decide; simplify_eq/=;
    rewrite ?stop_timer_handler, ?stop_timer_worker, ?handler_mark_cancelled,
      ?timer_mark_cancelled;
    rewrite ?worker_mark_cancelled by (rewrite ?stop_timer_worker; congruence);
    rewrite ?stop_timer_worker;
    repeat match goal with
    | Hw : worker ?c = _ |- _ => rewrite Hw in *
    | Hw : handler ?c = _ |- _ => rewrite Hw in *
    end;
    simpl in *; try done;
    rewrite ?stop_timer_handler, ?stop_timer_worker;
    repeat match goal with
    | H : context [match handler ?x with _ => _ end] |- _ =>
        destruct (handler x) eqn:?
    end; simpl in *; try done; try congruence;
    unfold stop_timer;
    repeat match goal with
    | |- context [match timer ?x with _ => _ end] => destruct (timer x) eqn:?
    end; simpl; try done; try congruence.
Qed.

Lemma dormant_run ls s s' e c :
  consistent s ->
  run ls s = Some s' ->
  heap s !! e = Some c -> dormant c ->
  ∃ c', heap s' !! e = Some c' ∧ dormant c' ∧
        by_actor (Worker e) (since s s') = [].
Proof.
  revert s c. induction ls as [|l ls IH]; intros s c Hs Hrun Hc Hd; simpl in Hrun.
  - simplify_eq. exists c. by rewrite since_refl.
  - destruct (step l s) as [s1|] eqn:E; [|done].
    destruct (step_heap_grows _ _ _ _ _ E Hc) as [c1 Hc1].
    destruct (dormant_step _ _ _ _ _ _ Hs E Hc Hd Hc1) as (Hd1 & Hn1).
    destruct (IH s1 c1 (step_consistent _ _ _ Hs E) Hrun Hc1 Hd1)
      as (c' & Hc' & Hd' & Hn').
    exists c'. split_and!; auto.
    rewrite (since_step_run _ _ _ _ _ E Hrun), by_actor_app. by rewrite Hn1, Hn'.
Qed.

Lemma runs_since e s s' tr :
  trace s' = trace s ++ tr ->
  runs e s' =
  runs e s + length (filter (fun a => is_invoke a = true) (by_actor (Worker e) tr)).
Proof.
  intros H. unfold runs. by rewrite H, by_actor_app, filter_app, length_app.
Qed.

Lemma runs_since_run ls e s s' :
  run ls s = Some s' ->
  runs e s' =
  runs e s +
  length (filter (fun a => is_invoke a = true) (by_actor (Worker e) (since s s'))).
Proof. intros H. apply runs_since. by apply trace_since_run in H. Qed.

(** A step invokes the task body of [e] only as the goroutine of [e] at
    [GStart], which then moves on to [GRunning]. *)
Lemma step_invokes l s s' e :
  step l s = Some s' ->
  filter (fun a => is_invoke a = true) (by_actor (Worker e) (since s s')) = [] ∨
  ∃ c, heap s !! e = Some c ∧ worker c = GStart ∧
       filter (fun a => is_invoke a = true) (by_actor (Worker e) (since s s'))
         = [AInvoke (e_task c)] ∧
       ∀ c', heap s' !! e = Some c' -> worker c' = GRunning.
Proof.
  intros H.
  Step_cases H; since_tac; unfold by_actor; simpl;
    repeat case_decide; simplify_eq/=; auto.
  right. eexists. split_and!; eauto.
  intros c' Hc'. rewrite list_lookup_alter_eq, H in Hc'. by simplify_eq/=.
Qed.

(** Case analysis on the program counters a canceller looks at. *)
Ltac crush_pcs :=
  intros;
  rewrite ?stop_timer_worker, ?stop_timer_handler in *;
  unfold mark_cancelled, stop_timer in *;
  repeat match goal with
  | |- context [match worker ?c with _ => _ end] => destruct (worker c) eqn:?
  | H : context [match worker ?c with _ => _ end] |- _ =>
      destruct (worker c) eqn:?
  | |- context [match timer ?c with _ => _ end] => destruct (timer c) eqn:?
  | H : context [match timer ?c with _ => _ end] |- _ =>
      destruct (timer c) eqn:?
  | |- context [match ?f with AfterDrop => _ | _ => _ end] => destruct f
  end;
  simpl in *; simplify_eq;
  repeat match goal with
  | Hw : worker ?c = _ |- _ => rewrite Hw in *
  end;
  simpl in *; try done; try congruence.

Lemma step_body_ahead l s s' e c c' :
  consistent s ->
  step l s = Some s' ->
  heap s !! e = Some c -> heap s' !! e = Some c' ->
  body_ahead (worker c') = true -> body_ahead (worker c) = true.
Proof.
  intros Hs H Hc Hc'. pose proof (inv_entries _ Hs) as He.
  Step_cases H; entry_facts He; norm_lookup Hc'; simpl;
    repeat match goal with
    | Hw : worker ?c = _ |- _ => rewrite Hw in *
    end;
    simpl in *; try done; crush_pcs.
Qed.

Lemma step_heap_none l s s' e :
  step l s = Some s' -> heap s !! e = None ->
  by_actor (Worker e) (since s s') = [].
Proof.
  intros H Hn.
  Step_cases H; since_tac; unfold by_actor; simpl;
    repeat case_decide; simplify_eq/=; auto.
Qed.

Lemma step_runs_ok l s s' :
  consistent s -> runs_ok s -> step l s = Some s' -> runs_ok s'.
Proof.
  intros Hs Hr H e. destruct (Hr e) as [Hle Hz].
  destruct (step_trace_grows _ _ _ H) as [tr Htr].
  rewrite (runs_since e s s' tr Htr).
  pose proof (since_app _ _ _ Htr) as Hsince.
  destruct (heap s !! e) as [c|] eqn:Hc; simpl in Hz.
  - destruct (step_heap_grows _ _ _ _ _ H Hc) as [c' Hc']. rewrite Hc'. simpl.
    destruct (step_invokes l s s' e H) as [Hn|(c0 & Hc0 & Hw0 & Hn & Hnext)];
      rewrite Hsince in Hn; rewrite Hn; simpl.
    + split; [lia|]. intros Hb. rewrite Hz; [done|].
      eapply step_body_ahead; eauto.
    + simplify_eq. rewrite Hw0 in Hz. rewrite (Hz eq_refl).
      split; [lia|]. rewrite (Hnext _ Hc'). done.
  - pose proof (step_heap_none _ _ _ _ H Hc) as Hn.
    rewrite Hsince in Hn. rewrite Hn. simpl. rewrite (Hz eq_refl). split; [lia|auto].
Qed.

Lemma boot_runs_ok opts : runs_ok (boot (NewManager opts)).
Proof. intros e. unfold runs. simpl. split; [lia|done]. Qed.

Lemma reachable_runs_ok s : reachable s -> runs_ok s.
Proof.
  intros (opts & ls & H).
  cut (consistent s ∧ runs_ok s); [tauto|].
  eapply (run_invariant (fun s => consistent s ∧ runs_ok s)); [|split|exact H].
  - intros l s1 s2 [H1 H2] Hstep. split; eauto using step_consistent, step_runs_ok.
  - apply boot_consistent.
  - apply boot_runs_ok.
Qed.

(* ===================================================================== *)
(** ** Timer callbacks against Shutdown                                    *)
(* ===================================================================== *)

Lemma excluded_dormant c : excluded c -> dormant c.
Proof.
  intros [Hw [Hh|[Hh _]]]; split; auto; [by rewrite Hh|].
  by destruct (handler c).
Qed.

Lemma dormant_never_runs ls s s' e c :
  consistent s -> runs_ok s ->
  heap s !! e = Some c -> dormant c ->
  runs e s = 0 ∧
  (run ls s = Some s' ->
   ∃ c', heap s' !! e = Some c' ∧ dormant c' ∧ runs e s' = 0).
Proof.
  intros Hs Hr Hc Hd.
  assert (runs e s = 0) as H0.
  { apply Hr. rewrite Hc. simpl. destruct Hd as [-> _]. done. }
  split; [done|]. intros Hrun.
  destruct (dormant_run _ _ _ _ _ Hs Hrun Hc Hd) as (c' & Hc' & Hd' & Hn).
  exists c'. split_and!; auto.
  rewrite (runs_since_run _ _ _ _ Hrun), Hn, H0. done.
Qed.

(** C7. The closed-check and the [wg.Go] of a timer callback exclude the
    closing transition of [Shutdown]. In every state the program can
    reach: (1) while a callback is between [RLock] and [RUnlock], nobody
    holds the write lock and the closure of [Shutdown] is outside its
    critical section; (2) a callback that found the manager open and is
    about to call [wg.Go] still has an open manager, and the drain
    goroutine has not been started; (3) the wait group counts exactly the
    goroutines in flight; (4) once the drain goroutine is past [wg.Wait],
    or [shutdownDone] is closed, the manager is closed, the wait group is
    at zero, no callback is about to call [wg.Go] and no goroutine is in
    flight; (5) the branch of the callback is decided by [isClosed]; and
    (6) every fired task is either still before its check, or excluded
    (no goroutine, token cancelled or about to be, and its body is never
    invoked in any continuation), or about to be counted, or was started
    and, while in flight, is counted by a wait group that has not been
    seen at zero. *)
Theorem fire_shutdown_exclusion s :
  reachable s ->
  (∀ e c, heap s !! e = Some c -> in_read_cs c = true ->
     writer (mu (mgr s)) = false ∧ once_in_cs (shutdownOnce (mgr s)) = false) ∧
  (∀ e c, heap s !! e = Some c -> handler c = HSpawn ->
     isClosed (mgr s) = false ∧ drainer s = DNone) ∧
  wg (mgr s) = census in_flight (heap s) ∧
  (drained (drainer s) = true ∨ shutdownDone (mgr s) = true ->
     isClosed (mgr s) = true ∧ wg (mgr s) = 0 ∧
     ∀ e c, heap s !! e = Some c -> handler c ≠ HSpawn ∧ in_flight c = false) ∧
  (∀ e c, heap s !! e = Some c -> handler c = HCheck ->
     step (RunHandler e) s =
     Some (on_entry e
             (set_handler (if isClosed (mgr s) then HAbort else HSpawn)) s)) ∧
  (∀ e c, heap s !! e = Some c -> handler c ≠ HNone ->
     ((handler c = HRLock ∨ handler c = HCheck) ∧ worker c = GNone) ∨
     (excluded c ∧ runs e s = 0 ∧
      ∀ ls s', run ls s = Some s' ->
        ∃ c', heap s' !! e = Some c' ∧ worker c' = GNone ∧ runs e s' = 0) ∨
     (handler c = HSpawn ∧ worker c = GNone) ∨
     (worker c ≠ GNone ∧
      (in_flight c = true ->
       1 <= wg (mgr s) ∧ drained (drainer s) = false ∧
       shutdownDone (mgr s) = false))).
Proof.
  intros Hreach.
  pose proof (reachable_consistent _ Hreach) as Hs.
  pose proof (reachable_runs_ok _ Hreach) as Hr.
  assert (∀ e c, heap s !! e = Some c -> excluded c ->
            excluded c ∧ runs e s = 0 ∧
            ∀ ls s', run ls s = Some s' ->
              ∃ c', heap s' !! e = Some c' ∧ worker c' = GNone ∧ runs e s' = 0)
    as Hexcl.
  { intros e c Hl Hex. pose proof (excluded_dormant _ Hex) as Hdo.
    split; [done|].
    destruct (dormant_never_runs [] s s e c Hs Hr Hl Hdo) as [H0 _].
    split; [done|]. intros ls s' Hrun.
    destruct (dormant_never_runs ls s s' e c Hs Hr Hl Hdo) as [_ Hfut].
    destruct (Hfut Hrun) as (c' & Hc' & [Hw' _] & Hr'). eauto. }
  destruct Hs as [Hx Hrd Hw Hc Hd Hg Hdr Hdd Hdn He].
  assert (∀ e c, heap s !! e = Some c -> handler c = HSpawn ->
            isClosed (mgr s) = false ∧ drainer s = DNone) as Hopen.
  { intros e c Hl Hh.
    assert (1 <= census deciding (heap s)) as Hpos.
    { eapply census_pos; [done|]. unfold deciding. by rewrite Hh. }
    assert (isClosed (mgr s) = false) as Hcl.
    { destruct (isClosed (mgr s)); [|done]. specialize (Hd eq_refl). lia. }
    split; [done|]. apply Hdr. intros Ho. rewrite Ho in Hc. simpl in Hc. congruence. }
  assert (drained (drainer s) = true ∨ shutdownDone (mgr s) = true ->
          isClosed (mgr s) = true ∧ wg (mgr s) = 0) as Hdrain.
  { intros Hor.
    assert (drained (drainer s) = true) as Hdt.
    { destruct Hor as [|Hsd]; [done|]. apply Hdn in Hsd. by rewrite Hsd. }
    split; [|auto].
    assert (shutdownOnce (mgr s) = OnceDone) as Ho.
    { destruct (decide (shutdownOnce (mgr s) = OnceDone)) as [|Hn]; [done|].
      apply Hdr in Hn. rewrite Hn in Hdt. done. }
    rewrite Hc, Ho. done. }
  split_and!; auto.
  - intros e c Hl Hin.
    assert (1 <= census in_read_cs (heap s)) as Hpos by (eapply census_pos; eauto).
    assert (writer (mu (mgr s)) = false) as Hwf.
    { destruct (writer (mu (mgr s))); [|done]. specialize (Hx eq_refl). lia. }
    split; [done|]. rewrite Hwf in Hw. simpl in Hw.
    destruct (once_in_cs (shutdownOnce (mgr s))); [simpl in Hw; lia|done].
  - intros Hor. destruct (Hdrain Hor) as [Hcl Hz]. split_and!; auto.
    intros e c Hl. split.
    + intros Hh. destruct (Hopen _ _ Hl Hh). congruence.
    + rewrite Hg in Hz. eapply census_zero; eauto.
  - intros e c Hl Hh. apply Step_step.
    destruct (isClosed (mgr s)) eqn:Ecl;
      [by eapply Step_HCheck_closed|by eapply Step_HCheck_open].
  - intros e c Hl Hh.
    pose proof (Forall_lookup_1 _ _ _ _ He Hl) as (K1 & K2 & K3 & K4).
    destruct (decide (worker c = GNone)) as [Hwn|Hwn].
    + destruct (handler c) eqn:Ehc; try done.
      * left. auto.
      * left. auto.
      * right. left. apply Hexcl; [done|]. split; [done|left; done].
      * right. right. left. auto.
      * right. left. apply Hexcl; [done|]. split; [done|right].
        rewrite Ehc. split; [done|]. apply K4; auto.
      * right. left. apply Hexcl; [done|]. split; [done|right].
        rewrite Ehc. split; [done|]. apply K4; auto.
    + right. right. right. split; [done|]. intros Hfl.
      assert (1 <= census in_flight (heap s)) as Hpos by (eapply census_pos; eauto).
      split; [lia|].
      assert (drained (drainer s) = false) as Hnd.
      { destruct (drained (drainer s)) eqn:Edr; [|done].
        specialize (Hdd eq_refl). lia. }
      split; [done|].
      destruct (shutdownDone (mgr s)) eqn:Esd; [|done].
      destruct Hdn as [Hdn _]. rewrite (Hdn eq_refl) in Hnd. done.
Qed.

(* ===================================================================== *)
(** ** A limit that is not positive                                        *)
(* ===================================================================== *)

Lemma run_no_semaphore ls s s' :
  semaphore (mgr s) = None -> never_refused s -> run ls s = Some s' ->
  semaphore (mgr s') = None ∧ never_refused s'.
Proof.
  intros H1 H2 Hrun.
  apply (run_invariant (fun s => semaphore (mgr s) = None ∧ never_refused s))
    with ls s; auto.
  intros l s1 s2 [Ha Hb] Hstep.
  eauto using step_keeps_no_semaphore, step_never_refused.
Qed.

(** C10. A limit that is not positive means no limit. For every
    [limit <= 0] and either strategy, the option [WithLimit limit strat]
    leaves the manager as it is, so a manager built with it equals the one
    built without it: no semaphore, and the strategy it had. In every state
    such a manager reaches there is still no semaphore, [acquireSlot]
    grants the slot at once, [releaseSlot] changes nothing, and no task was
    ever dropped, refused or parked. *)
Theorem nonpositive_limit_is_unlimited (limit : Z) (strat : Strategy) :
  (limit <= 0)%Z ->
  (∀ m, apply_option (WithLimit limit strat) m = m) ∧
  (∀ before after,
     NewManager (before ++ WithLimit limit strat :: after) =
     NewManager (before ++ after)) ∧
  semaphore (NewManager [WithLimit limit strat]) = None ∧
  strategy (NewManager [WithLimit limit strat]) = strategy (NewManager []) ∧
  (∀ ls s, run ls (boot (NewManager [WithLimit limit strat])) = Some s ->
     semaphore (mgr s) = None ∧
     (∀ e pick c, heap s !! e = Some c -> worker c = GAcquire ->
        step (RunWorker e pick) s = Some (grant e s)) ∧
     (∀ e pick, releaseSlot e pick s = Some (note (Worker e) AReleaseSlot s)) ∧
     never_refused s).
Proof.
  intros Hle.
  assert (∀ m, apply_option (WithLimit limit strat) m = m) as Hid
    by (intros m; by apply WithLimit_nonpositive).
  assert (NewManager [WithLimit limit strat] = NewManager []) as Heq.
  { unfold NewManager. simpl fold_left. apply Hid. }
  split_and!; auto.
  - intros before after. unfold NewManager.
    rewrite !fold_left_app. cbn [fold_left]. by rewrite Hid.
  - by rewrite Heq.
  - by rewrite Heq.
  - intros ls s Hrun. rewrite Heq in Hrun.
    destruct (run_no_semaphore ls (boot (NewManager [])) s) as [Hsem Hnr];
      [done|by split; apply Forall_nil_2|done|].
    split_and!; auto.
    + intros e pick c Hc Hw. simpl. unfold worker_step.
      rewrite Hc, Hw. unfold acquireSlot. by rewrite Hsem.
    + intros e pick. unfold releaseSlot. by rewrite Hsem.
Qed.

(* ===================================================================== *)
(** ** Cleanup by the entry's own goroutine                                *)
(* ===================================================================== *)

Lemma deleteIfCurrent_pending who id target s :
  pending (mgr (deleteIfCurrent who id target s)) =
  if decide (pending (mgr s) !! id = Some target)
  then delete id (pending (mgr s)) else pending (mgr s).
Proof.
  unfold deleteIfCurrent. destruct (pending (mgr s) !! id) as [cur|] eqn:E.
  - destruct (decide (cur = target)) as [->|Hn];
      destruct (decide (Some _ = Some target)); simplify_eq; done.
  - destruct (decide (None = Some target)); simplify_eq; done.
Qed.

(** A statement of the goroutine of [e] either leaves the registry alone
    or is its [deleteIfCurrent], called with its own ID and address. *)
Lemma worker_registry_cases s e pick s' c :
  heap s !! e = Some c ->
  step (RunWorker e pick) s = Some s' ->
  (∀ from, worker c ≠ GDelete from) ∧ pending (mgr s') = pending (mgr s) ∨
  (∃ from, worker c = GDelete from) ∧
  pending (mgr s') = pending (mgr (deleteIfCurrent (Worker e) (e_id c) e s)).
Proof.
  intros Hc H.
  Step_cases H; simplify_eq;
    first [ left; split; [congruence|done]
          | right; split; [eauto|]; rewrite deleteIfCurrent_pending;
            first [rewrite decide_True by done | rewrite decide_False by done];
            done ].
Qed.

(** C2. The stale-completion guard. [deleteIfCurrent id target] removes
    the mapping of [id] exactly when it holds [target] itself, and leaves
    the registry alone otherwise. The goroutine of entry [e] changes the
    registry only through this function, called with its own ID and its
    own address at the three places it ends (task returned, slot refused
    by the drop strategy, cancelled while waiting); every other of its
    statements leaves the registry alone. Hence no step of the goroutine
    of [e] removes a mapping that holds another entry [e'], also when [e']
    was registered later under the same ID. *)
Theorem stale_completion_guard s e pick s' c :
  heap s !! e = Some c ->
  step (RunWorker e pick) s = Some s' ->
  (∀ who id target s0,
     pending (mgr (deleteIfCurrent who id target s0)) =
     if decide (pending (mgr s0) !! id = Some target)
     then delete id (pending (mgr s0)) else pending (mgr s0)) ∧
  (∀ from, worker c = GDelete from ->
     pending (mgr s') =
     pending (mgr (deleteIfCurrent (Worker e) (e_id c) e s))) ∧
  ((∀ from, worker c ≠ GDelete from) -> pending (mgr s') = pending (mgr s)) ∧
  (∀ k e', e' ≠ e -> pending (mgr s) !! k = Some e' ->
     pending (mgr s') !! k = Some e').
Proof.
  intros Hc H. split; [intros; apply deleteIfCurrent_pending|].
  pose proof (worker_registry_cases _ _ _ _ _ Hc H) as Hcases.
  split_and!.
  - intros from Hw. destruct Hcases as [[Hn _]|[_ Hdel]]; [|done].
    by destruct (Hn from).
  - intros Hn. destruct Hcases as [[_ Hsame]|[[from Hw] _]]; [done|].
    by destruct (Hn from).
  - intros k e' Hne Hk. destruct Hcases as [[_ ->]|[_ ->]]; [done|].
    rewrite deleteIfCurrent_pending. case_decide; [|done].
    destruct (decide (k = e_id c)) as [->|Hk']; [congruence|].
    by rewrite lookup_delete_ne.
Qed.

(* ===================================================================== *)
(** ** Schedule on a closed manager                                        *)
(* ===================================================================== *)

Lemma Schedule_closed_noop id d task s :
  isClosed (mgr s) = true -> Schedule id d task s = s.
Proof. intros H. unfold Schedule. by rewrite H. Qed.

Lemma closed_step l s s' :
  isClosed (mgr s) = true -> step l s = Some s' ->
  isClosed (mgr s') = true ∧ length (heap s') = length (heap s) ∧
  pending (mgr s') ⊆ pending (mgr s) ∧
  Forall (quiet (length (heap s))) (since s s').
Proof.
  intros Hcl H.
  Step_cases H; since_tac; simpl in *; try congruence;
    rewrite ?length_alter;
    (split_and!; [done|done| |]);
    try reflexivity; try apply delete_subseteq;
    repeat apply Forall_cons_2; try apply Forall_nil_2;
    unfold quiet; simpl; (split; [done|]); try done;
    intros _; eexists; (split; [done|]); eapply lookup_lt_Some; eauto.
Qed.

Lemma closed_run ls s s' :
  isClosed (mgr s) = true -> run ls s = Some s' ->
  isClosed (mgr s') = true ∧ length (heap s') = length (heap s) ∧
  pending (mgr s') ⊆ pending (mgr s) ∧
  Forall (quiet (length (heap s))) (since s s').
Proof.
  revert s. induction ls as [|l ls IH]; intros s Hcl Hrun; simpl in Hrun.
  - simplify_eq. rewrite since_refl. by split_and!.
  - destruct (step l s) as [s1|] eqn:E; [|done].
    destruct (closed_step _ _ _ Hcl E) as (Hc1 & Hl1 & Hp1 & Hq1).
    destruct (IH _ Hc1 Hrun) as (Hc2 & Hl2 & Hp2 & Hq2).
    split_and!; auto; [congruence|by etrans|].
    rewrite (since_step_run _ _ _ _ _ E Hrun). apply Forall_app_2; [done|].
    by rewrite <- Hl1.
Qed.

Lemma Shutdown_returns_after_once ctx pick s r :
  Shutdown ctx pick s = Some r -> shutdownOnce (mgr s) = OnceDone.
Proof. unfold Shutdown. by destruct (shutdownOnce (mgr s)). Qed.

(** C3. [Schedule] on a closed manager does nothing. When [isClosed] is
    set (as it is, in particular, in every reachable state in which a call
    of [Shutdown] returns nil), [Schedule id d task] returns the state it
    was given: no entry, no timer, no telemetry call. The step of the whole
    call changes the lock and nothing else. From then on, in every
    continuation, the manager stays closed, no entry is allocated or
    installed, the registry only shrinks, and every task body that is
    invoked belongs to an entry that existed before the call. *)
Theorem schedule_after_close_is_noop s id d task :
  isClosed (mgr s) = true ∨
  (reachable s ∧ ∃ ctx pick, Shutdown ctx pick s = Some None) ->
  isClosed (mgr s) = true ∧
  Schedule id d task s = s ∧
  (∀ s1, step (Call (CallSchedule id d task)) s = Some s1 ->
     heap s1 = heap s ∧ pending (mgr s1) = pending (mgr s) ∧
     trace s1 = trace s ∧ isClosed (mgr s1) = true) ∧
  (∀ ls s', run ls s = Some s' ->
     isClosed (mgr s') = true ∧
     length (heap s') = length (heap s) ∧
     pending (mgr s') ⊆ pending (mgr s) ∧
     Forall (quiet (length (heap s))) (since s s')).
Proof.
  intros Hor.
  assert (isClosed (mgr s) = true) as Hcl.
  { destruct Hor as [|[Hreach (ctx & pick & Hret)]]; [done|].
    apply Shutdown_returns_after_once in Hret.
    rewrite (inv_closed _ (reachable_consistent _ Hreach)), Hret. done. }
  split_and!; auto using Schedule_closed_noop.
  - intros s1 H. simpl in H. unfold mu_Lock in H.
    destruct (writer (mu (mgr s)) || negb (readers (mu (mgr s)) =? 0)); [done|].
    simpl in H. simplify_eq.
    rewrite Schedule_closed_noop by done. done.
  - intros ls s' Hrun. by apply (closed_run ls).
Qed.

(* ===================================================================== *)
(** ** Shutdown                                                            *)
(* ===================================================================== *)

Lemma reachable_after ls opts :
  is_Some (run ls (boot (NewManager opts))) ->
  reachable (after ls (boot (NewManager opts))).
Proof.
  intros [s Hs]. exists opts, ls. unfold after. by rewrite Hs.
Qed.

Lemma closing_state_reachable : reachable closing_state.
Proof. apply reachable_after. vm_compute. eauto. Qed.

Lemma drained_state_reachable : reachable drained_state.
Proof. apply reachable_after. vm_compute. eauto. Qed.

(** C8, as stated, fails: a context that has no deadline and was
    cancelled makes [Shutdown] return [context.Canceled]. *)
Lemma shutdown_error_without_deadline :
  ¬ (∀ s ctx pick err,
       reachable s -> Shutdown ctx pick s = Some (Some err) ->
       (∃ dl, deadline ctx = Some dl ∧ dl <= now s) ∧
       shutdownDone (mgr s) = false).
Proof.
  intros H.
  destruct (H closing_state cancelled_ctx 0 Canceled closing_state_reachable)
    as [(dl & Hdl & _) _]; [by vm_compute|].
  discriminate Hdl.
Qed.

(** What the [select] of [Shutdown] returns: nil only with [shutdownDone]
    closed, an error only as the error of the context. *)
Lemma Shutdown_result ctx pick s r :
  Shutdown ctx pick s = Some r ->
  (r = None -> shutdownDone (mgr s) = true) ∧
  (∀ err, r = Some err -> ctx_Err (now s) ctx = Some err) ∧
  (ctx_Err (now s) ctx = None -> r = None).
Proof.
  intros H. unfold Shutdown in H.
  destruct (shutdownOnce (mgr s)); try done.
  destruct (shutdownDone (mgr s)), (ctx_Err (now s) ctx) as [err'|] eqn:E;
    try done; [destruct pick|..]; simplify_eq; split_and!; try done;
    intros; by simplify_eq.
Qed.

Lemma ctx_Err_cases t ctx err :
  ctx_Err t ctx = Some err ->
  (err = DeadlineExceeded ∨ err = Canceled) ∧
  (err = DeadlineExceeded -> ∃ dl, deadline ctx = Some dl ∧ dl <= t).
Proof.
  unfold ctx_Err.
  destruct (deadline ctx) as [dl|], (canceled ctx) as [tc|]; try done;
    repeat case_match; try done; intros [= <-]; (split; [auto|]); try done;
    intros _; exists dl; (split; [done|]); by apply Nat.leb_le.
Qed.

(** The context is done exactly when its deadline has passed or its
    cancel function was called, and of the two causes the first one gives
    the error. *)
Lemma ctx_Err_done t ctx :
  ctx_Err t ctx = None <->
  (∀ dl, deadline ctx = Some dl -> t < dl) ∧
  (∀ tc, canceled ctx = Some tc -> t < tc).
Proof.
  unfold ctx_Err.
  destruct (deadline ctx) as [dl|], (canceled ctx) as [tc|];
    repeat case_match;
    repeat match goal with
    | H : (_ <? _) = true |- _ => apply Nat.ltb_lt in H
    | H : (_ <? _) = false |- _ => apply Nat.ltb_ge in H
    | H : (_ <=? _) = true |- _ => apply Nat.leb_le in H
    | H : (_ <=? _) = false |- _ => apply Nat.leb_gt in H
    end;
    (split; [intros ?; try done; split; intros ? [= <-]; lia
            |intros [H1 H2]; try done;
             try (specialize (H1 _ eq_refl)); try (specialize (H2 _ eq_refl));
             lia]).
Qed.

Lemma ctx_Err_first_cause t ctx dl tc :
  deadline ctx = Some dl -> canceled ctx = Some tc ->
  dl <= t ∨ tc <= t ->
  ctx_Err t ctx = Some (if tc <? dl then Canceled else DeadlineExceeded).
Proof.
  intros Hd Hc Ht. unfold ctx_Err. rewrite Hd, Hc.
  destruct (tc <? dl) eqn:E.
  - apply Nat.ltb_lt in E. destruct (tc <=? t) eqn:E2; [done|].
    apply Nat.leb_gt in E2. lia.
  - apply Nat.ltb_ge in E. destruct (dl <=? t) eqn:E2; [done|].
    apply Nat.leb_gt in E2. lia.
Qed.

(** C8, amended. [Shutdown] returns an error only when its context is
    done, by a deadline that passed or by cancellation, and the error is
    the context's own [Err()]; it returns nil only when [shutdownDone] is
    closed; and with a context that is not done it returns nil. A call of
    [Schedule] or [Cancel] that got the lock always completes, and has no
    error to return. *)
Theorem shutdown_error_is_context_error ctx pick s r :
  Shutdown ctx pick s = Some r ->
  (∀ err, r = Some err ->
     ctx_Err (now s) ctx = Some err ∧
     (err = DeadlineExceeded ∨ err = Canceled) ∧
     (err = DeadlineExceeded ->
      ∃ dl, deadline ctx = Some dl ∧ dl <= now s)) ∧
  (r = None -> shutdownDone (mgr s) = true) ∧
  (ctx_Err (now s) ctx = None -> r = None) ∧
  (∀ c s0, writer (mu (mgr s0)) = false -> readers (mu (mgr s0)) = 0 ->
     is_Some (step (Call c) s0)).
Proof.
  intros H. destruct (Shutdown_result _ _ _ _ H) as (Hn & He & Hz).
  split_and!; auto.
  - intros err Hr. pose proof (He _ Hr) as Hctx.
    split; [done|]. by apply ctx_Err_cases.
  - intros c s0 Hw Hr. simpl. unfold mu_Lock. rewrite Hw, Hr. simpl. eauto.
Qed.

(** C4, as stated, fails in its last part: after the drain, a call of
    [Shutdown] whose context is already done may still return the
    context's error, because the [select] has both cases ready. *)
Lemma drained_shutdown_can_report_deadline :
  ¬ (∀ s ctx pick r,
       reachable s -> shutdownDone (mgr s) = true ->
       Shutdown ctx pick s = Some r -> r = None).
Proof.
  intros H.
  specialize (H drained_state expired_ctx 1 (Some DeadlineExceeded)
                drained_state_reachable).
  discriminate H; by vm_compute.
Qed.

Lemma step_once_started l s s' :
  step l s = Some s' -> shutdownOnce (mgr s) ≠ OnceIdle ->
  shutdownOnce (mgr s') ≠ OnceIdle.
Proof. intros H Hn. Step_cases H; simpl in *; congruence. Qed.

Lemma step_done_stays l s s' :
  step l s = Some s' -> shutdownDone (mgr s) = true ->
  shutdownDone (mgr s') = true.
Proof. intros H Hn. Step_cases H; simpl in *; congruence. Qed.

Lemma closer_excludes l s s' :
  consistent s -> once_in_cs (shutdownOnce (mgr s)) = true ->
  step l s = Some s' -> (∀ k, l ≠ Closing k) ->
  pending (mgr s') = pending (mgr s) ∧ isClosed (mgr s') = isClosed (mgr s).
Proof.
  intros Hs Hin H Hl.
  assert (writer (mu (mgr s)) = true) as Hw.
  { pose proof (inv_writer _ Hs) as Hw. rewrite Hin in Hw.
    destruct (writer (mu (mgr s))); [done|]. simpl in Hw. lia. }
  Step_cases H; simpl in *; try congruence; try done.
  all: by destruct (Hl k).
Qed.

Lemma run_once_started ls s s' :
  run ls s = Some s' -> shutdownOnce (mgr s) ≠ OnceIdle ->
  shutdownOnce (mgr s') ≠ OnceIdle.
Proof.
  intros Hrun Hn.
  apply (run_invariant (fun s => shutdownOnce (mgr s) ≠ OnceIdle)) with ls s;
    eauto using step_once_started.
Qed.

Lemma run_done_stays ls s s' :
  run ls s = Some s' -> shutdownDone (mgr s) = true ->
  shutdownDone (mgr s') = true.
Proof.
  intros Hrun Hn.
  apply (run_invariant (fun s => shutdownDone (mgr s) = true)) with ls s;
    eauto using step_done_stays.
Qed.

(** C4, amended. The outcome protocol of [Shutdown], in every state the
    program can reach. (1) Only a call that finds [shutdownOnce] idle
    starts the closure, and [shutdownOnce] is never idle again. (2) The
    closure sets [isClosed]; then each turn of its loop takes one
    registered entry, stops its timer, cancels its token, removes it and
    emits [OnCancelled], in that order; the loop is left only with an empty
    registry; and while the closure holds the lock no other step changes
    the registry or [isClosed]. (3) Every call ends in the same [select]:
    nil only when [shutdownDone] is closed, an error only as the context's
    own error. (4) While [shutdownDone] is open, a call whose context is
    done returns that error, and the drain goroutine is still there.
    (5) The drain goroutine gets past [wg.Wait] exactly when the wait group
    is at zero. (6) Once [shutdownDone] is closed the wait group is at
    zero, it stays closed for ever, and every call whose context is not
    yet done returns nil (a call whose context is already done may return
    either). *)
Theorem shutdown_outcome_protocol s :
  reachable s ->
  (step ShutdownFirst s =
   if decide (shutdownOnce (mgr s) = OnceIdle)
   then Some (on_mgr (set_shutdownOnce OnceLock) s) else None) ∧
  (shutdownOnce (mgr s) ≠ OnceIdle ->
   ∀ ls s', run ls s = Some s' -> shutdownOnce (mgr s') ≠ OnceIdle) ∧
  (∀ k s', shutdownOnce (mgr s) = OnceClose -> step (Closing k) s = Some s' ->
     isClosed (mgr s') = true ∧ since s s' = [(Closer, ASetClosed)] ∧
     shutdownOnce (mgr s') = OnceRange ∧ pending (mgr s') = pending (mgr s)) ∧
  (∀ k e s', shutdownOnce (mgr s) = OnceRange ->
     pending (mgr s) !! k = Some e -> step (Closing k) s = Some s' ->
     since s s' = [(Closer, ATimerStop e); (Closer, ACancel e);
                   (Closer, ADelete k e); (Closer, AEmit (OnCancelled k))] ∧
     pending (mgr s') = delete k (pending (mgr s)) ∧
     shutdownOnce (mgr s') = OnceRange ∧
     ∀ c', heap s' !! e = Some c' -> timer c' ≠ TimerArmed ∧ ctx_done c' = true) ∧
  (∀ k s', shutdownOnce (mgr s) = OnceRange -> step (Closing k) s = Some s' ->
     shutdownOnce (mgr s') = OnceSpawn -> pending (mgr s) = ∅) ∧
  (∀ l s', once_in_cs (shutdownOnce (mgr s)) = true -> step l s = Some s' ->
     (∀ k, l ≠ Closing k) ->
     pending (mgr s') = pending (mgr s) ∧ isClosed (mgr s') = isClosed (mgr s)) ∧
  (∀ ctx pick r, Shutdown ctx pick s = Some r ->
     (r = None -> shutdownDone (mgr s) = true) ∧
     (∀ err, r = Some err -> ctx_Err (now s) ctx = Some err)) ∧
  (∀ ctx pick err,
     shutdownOnce (mgr s) = OnceDone -> shutdownDone (mgr s) = false ->
     ctx_Err (now s) ctx = Some err ->
     Shutdown ctx pick s = Some (Some err) ∧
     (drainer s = DWait ∨ drainer s = DClose)) ∧
  (drainer s = DWait -> is_Some (step RunDrainer s) <-> wg (mgr s) = 0) ∧
  (shutdownDone (mgr s) = true ->
   wg (mgr s) = 0 ∧
   ∀ ls s', run ls s = Some s' ->
     shutdownDone (mgr s') = true ∧
     ∀ ctx pick, ctx_Err (now s') ctx = None ->
       Shutdown ctx pick s' = Some None).
Proof.
  intros Hreach. pose proof (reachable_consistent _ Hreach) as Hs.
  assert (∀ s0, consistent s0 -> shutdownDone (mgr s0) = true ->
            shutdownOnce (mgr s0) = OnceDone ∧ wg (mgr s0) = 0) as Hdone.
  { intros s0 Hs0 Hd. apply (inv_done _ Hs0) in Hd.
    split.
    - destruct (decide (shutdownOnce (mgr s0) = OnceDone)) as [|Hn]; [done|].
      apply (inv_drainer _ Hs0) in Hn. congruence.
    - apply (inv_drained _ Hs0). by rewrite Hd. }
  split_and!.
  - simpl. destruct (shutdownOnce (mgr s)) eqn:E; by case_decide.
  - intros Hn ls s' Hrun. eapply run_once_started; eauto.
  - intros k s' Ho H. Step_cases H; simpl in *; try congruence.
    since_tac. by split_and!.
  - intros k e s' Ho Hk H. Step_cases H; simpl in *; try congruence.
    + simplify_eq. since_tac. split_and!; try done.
      intros c' Hc'. rewrite list_lookup_alter_eq in Hc'.
      destruct (alter stop_timer e (heap s) !! e) as [c1|] eqn:E1; [|done].
      simpl in Hc'. simplify_eq.
      rewrite timer_mark_cancelled, ctx_done_mark_cancelled. split; [|done].
      rewrite list_lookup_alter_eq in E1.
      destruct (heap s !! e) as [c0|]; [|done]. simpl in E1. simplify_eq.
      unfold stop_timer. by destruct (timer c0) eqn:Et; simpl; rewrite ?Et.
    + rewrite H0 in Hk. by rewrite lookup_empty in Hk.
  - intros k s' Ho H Ho'. Step_cases H; simpl in *; congruence.
  - intros l s' Hin H Hl. by apply (closer_excludes l).
  - intros ctx pick r H.
    destruct (Shutdown_result _ _ _ _ H) as (Hn & He & _).
    split; [done|]. intros err Hr. by apply He.
  - intros ctx pick err Ho Hd He. unfold Shutdown. rewrite Ho, Hd, He.
    split; [done|].
    destruct (drainer s) eqn:Ed; auto.
    + apply (inv_drainer _ Hs) in Ed. done.
    + apply (inv_done _ Hs) in Ed. congruence.
  - intros Hd. simpl. unfold drainer_step. rewrite Hd.
    destruct (wg (mgr s) =? 0) eqn:E.
    + apply Nat.eqb_eq in E. split; eauto.
    + apply Nat.eqb_neq in E. split; [by intros []|done].
  - intros Hd. split; [by apply Hdone|].
    intros ls s' Hrun.
    pose proof (run_done_stays _ _ _ Hrun Hd) as Hd'.
    split; [done|]. intros ctx pick He.
    destruct (Hdone s' (run_consistent _ _ _ Hs Hrun) Hd') as [Ho' _].
    unfold Shutdown. by rewrite Ho', Hd', He.
Qed.

(* ===================================================================== *)
(** ** The goroutine past the admission gate                               *)
(* ===================================================================== *)

(** No step changes the ID or the task of an entry, and its start time is
    written only by its own goroutine at [GStart]. *)
Lemma step_frame l s s' e c c' :
  step l s = Some s' -> heap s !! e = Some c -> heap s' !! e = Some c' ->
  e_id c' = e_id c ∧ e_task c' = e_task c ∧
  (worker c ≠ GStart -> start c' = start c).
Proof.
  intros H Hc Hc'.
  Step_cases H; norm_lookup Hc'; simpl;
    unfold mark_cancelled, stop_timer;
    repeat match goal with
    | |- context [match worker ?c with _ => _ end] => destruct (worker c) eqn:?
    | |- context [match timer ?c with _ => _ end] => destruct (timer c) eqn:?
    end; simpl; split_and!; try done; congruence.
Qed.

Lemma no_invoke_kind l :
  KInvoke ∉ map kind_of l -> filter (fun a => is_invoke a = true) l = [].
Proof.
  induction l as [|a l IH]; simpl; [done|]. intros Hn.
  apply not_elem_of_cons in Hn as [Ha Hl].
  rewrite filter_cons. destruct (decide (is_invoke a = true)) as [Hi|Hi]; [|auto].
  destruct a; simpl in *; try done.
Qed.

Lemma committed_run_prefix ls s s' e c :
  consistent s -> run ls s = Some s' ->
  heap s !! e = Some c -> committed (worker c) = true ->
  done_by e s s' `prefix_of` ahead (worker c).
Proof.
  intros Hs Hrun Hc Hk.
  destruct (committed_run _ _ _ _ _ Hs Hrun Hc Hk) as (c' & _ & _ & _ & Hd).
  exists (ahead (worker c')). by rewrite Hd.
Qed.

(** A goroutine whose way to the end has no invocation ahead never
    invokes its task body. *)
Lemma committed_never_invokes ls s s' e c :
  consistent s -> run ls s = Some s' ->
  heap s !! e = Some c -> committed (worker c) = true ->
  KInvoke ∉ ahead (worker c) ->
  runs e s' = runs e s.
Proof.
  intros Hs Hrun Hc Hk Hn.
  rewrite (runs_since_run _ _ _ _ Hrun).
  destruct (committed_run_prefix _ _ _ _ _ Hs Hrun Hc Hk) as [k Hpre].
  rewrite no_invoke_kind; [simpl; lia|].
  intros Hin. apply Hn. rewrite Hpre. apply elem_of_app. by left.
Qed.

Lemma refusal_has_no_invoke : KInvoke ∉ order_after_refusal.
Proof.
  unfold order_after_refusal.
  repeat (apply not_elem_of_cons; split; [done|]). apply not_elem_of_nil.
Qed.

Lemma worker_delete_step s e pick s' c from :
  heap s !! e = Some c -> worker c = GDelete from ->
  step (RunWorker e pick) s = Some s' ->
  pending (mgr s') = pending (mgr (deleteIfCurrent (Worker e) (e_id c) e s)).
Proof.
  intros Hc Hw H.
  destruct (worker_registry_cases _ _ _ _ _ Hc H) as [[Hn _]|[_ Hdel]]; [|done].
  by destruct (Hn from).
Qed.

(** C5. Rejection by the drop strategy. In a reachable state with a
    semaphore that has no room and the drop strategy, the goroutine of an
    entry that enters [acquireSlot] makes one telemetry call,
    [OnFailed(id, ErrTaskDropped)], and goes on to [deleteIfCurrent] with
    its own ID and address; the registry is not touched by this step.
    From there on, in every continuation, it does at most
    [deleteIfCurrent], the return of false, the deferred [cancel] and
    [wg.Done], in that order, and its task body is never invoked.
    [ErrTaskDropped] differs from every other error. The rejection is an
    effect of a goroutine's step: [Schedule] itself returns a state and no
    error. *)
Theorem drop_rejects_without_running s e c ch pick :
  reachable s ->
  heap s !! e = Some c -> worker c = GAcquire ->
  semaphore (mgr s) = Some ch -> strategy (mgr s) = StrategyDrop ->
  has_room ch = false ->
  ∃ s1 c1,
    step (RunWorker e pick) s = Some s1 ∧
    since s s1 = [(Worker e, AEmit (OnFailed (e_id c) ErrTaskDropped))] ∧
    pending (mgr s1) = pending (mgr s) ∧
    heap s1 !! e = Some c1 ∧ worker c1 = GDelete AfterDrop ∧
    e_id c1 = e_id c ∧
    (∀ p s2,
       step (RunWorker e p) s1 = Some s2 ->
       pending (mgr s2) =
       pending (mgr (deleteIfCurrent (Worker e) (e_id c) e s1))) ∧
    (∀ ls s', run ls s1 = Some s' ->
       runs e s' = 0 ∧ done_by e s1 s' `prefix_of` order_after_refusal) ∧
    ErrTaskDropped ≠ DeadlineExceeded ∧ ErrTaskDropped ≠ Canceled.
Proof.
  intros Hreach Hc Hw Hsem Hst Hroom.
  pose proof (reachable_consistent _ Hreach) as Hs.
  pose proof (reachable_runs_ok _ Hreach) as Hr.
  set (s1 := s |> emit (Worker e) (OnFailed (e_id c) ErrTaskDropped)
               |> on_entry e (set_worker (GDelete AfterDrop))).
  assert (step (RunWorker e pick) s = Some s1) as Hstep.
  { simpl. unfold worker_step. rewrite Hc, Hw. unfold acquireSlot.
    by rewrite Hsem, Hst, Hroom. }
  assert (heap s1 !! e = Some (set_worker (GDelete AfterDrop) c)) as Hc1.
  { simpl. by rewrite list_lookup_alter_eq, Hc. }
  pose proof (step_consistent _ _ _ Hs Hstep) as Hs1.
  assert (runs e s1 = 0) as Hr1.
  { rewrite (runs_since e s s1 [(Worker e, AEmit (OnFailed (e_id c) ErrTaskDropped))])
      by done.
    destruct (Hr e) as [_ Hz]. rewrite Hc in Hz. simpl in Hz. rewrite Hw in Hz.
    rewrite (Hz eq_refl). unfold by_actor. simpl. by rewrite decide_True. }
  exists s1, (set_worker (GDelete AfterDrop) c).
  split_and!; try done.
  - by apply since_app.
  - intros p s2 H2. by apply (worker_delete_step _ _ _ _ _ _ Hc1 eq_refl H2).
  - intros ls s' Hrun. split.
    + rewrite <- Hr1. eapply committed_never_invokes; eauto.
      apply refusal_has_no_invoke.
    + by apply (committed_run_prefix ls s1 s' e _ Hs1 Hrun Hc1).
Qed.

(** C6. Cancellation while waiting for a slot. Let the goroutine of entry
    [e] be parked in the [select] of the blocking strategy, in a reachable
    state, and let a step cancel its token. That step is a call of
    [Schedule] or [Cancel] or a statement of the closure of [Shutdown];
    it takes the goroutine out of the [select] through the [ctx.Done]
    case, on its way to [deleteIfCurrent] with its own ID and address, and
    the goroutine itself has done nothing in that step. From there on, in
    every continuation, it does at most [deleteIfCurrent], the return of
    false, the deferred [cancel] and [wg.Done], in that order: it makes no
    telemetry call and never invokes its task body. *)
Theorem cancel_while_waiting s e c l s' c' :
  reachable s ->
  heap s !! e = Some c -> worker c = GParked ->
  step l s = Some s' -> heap s' !! e = Some c' -> ctx_done c' = true ->
  ctx_done c = false ∧
  ((∃ call, l = Call call) ∨ (∃ k, l = Closing k)) ∧
  worker c' = GDelete AfterWait ∧ e_id c' = e_id c ∧
  by_actor (Worker e) (since s s') = [] ∧
  (∀ p s2,
     step (RunWorker e p) s' = Some s2 ->
     pending (mgr s2) =
     pending (mgr (deleteIfCurrent (Worker e) (e_id c) e s'))) ∧
  (∀ ls s'', run ls s' = Some s'' ->
     runs e s'' = 0 ∧
     done_by e s' s'' `prefix_of` order_after_refusal ∧
     Forall (fun a => is_emit a = false ∧ is_invoke a = false)
       (by_actor (Worker e) (since s' s''))).
Proof.
  intros Hreach Hc Hw Hstep Hc' Hdone.
  pose proof (reachable_consistent _ Hreach) as Hs.
  pose proof (reachable_runs_ok _ Hreach) as Hr.
  pose proof (step_consistent _ _ _ Hs Hstep) as Hs'.
  pose proof (Forall_lookup_1 _ _ _ _ (inv_entries _ Hs) Hc) as (_ & K2 & K3 & _).
  specialize (K3 Hw).
  assert (((∃ call, l = Call call) ∨ (∃ k, l = Closing k)) ∧
          worker c' = GDelete AfterWait ∧ e_id c' = e_id c ∧
          by_actor (Worker e) (since s s') = []) as (Hl & Hw' & Hid & Hby).
  { pose proof Hstep as H.
    Step_cases H; since_tac; norm_lookup Hc'; simpl; unfold by_actor; simpl;
      repeat case_decide; simplify_eq/=;
      try congruence;
      rewrite ?ctx_done_mark_cancelled in *;
      try (destruct (before_go (handler c)) eqn:Hb;
           [specialize (K2 eq_refl); congruence|]);
      repeat match goal with
      | Hh : handler ?c = _ |- _ => rewrite Hh in *
      end; simpl in *; try done;
      (split_and!; [eauto|..]; try done);
      unfold mark_cancelled; rewrite stop_timer_worker, Hw; simpl; try done;
      unfold stop_timer; by destruct (timer c). }
  assert (runs e s' = 0) as Hr0.
  { destruct (step_trace_grows _ _ _ Hstep) as [tr Htr].
    rewrite (runs_since e s s' tr Htr).
    rewrite (since_app _ _ _ Htr) in Hby. rewrite Hby.
    destruct (Hr e) as [_ Hz]. rewrite Hc in Hz. simpl in Hz. rewrite Hw in Hz.
    by rewrite (Hz eq_refl). }
  split_and!; try done.
  - intros p s2 H2. rewrite <- Hid.
    by apply (worker_delete_step _ _ _ _ _ _ Hc' Hw' H2).
  - intros ls s'' Hrun.
    assert (committed (worker c') = true) as Hk by (by rewrite Hw').
    pose proof (committed_run_prefix ls s' s'' e c' Hs' Hrun Hc' Hk) as Hpre.
    rewrite Hw' in Hpre. simpl in Hpre.
    split_and!; [|done|].
    + rewrite <- Hr0. eapply committed_never_invokes; eauto.
      rewrite Hw'. apply refusal_has_no_invoke.
    + destruct Hpre as [k Hpre]. unfold done_by in Hpre.
      revert Hpre. generalize (by_actor (Worker e) (since s' s'')).
      intros acts Hpre. apply Forall_forall. intros a Ha.
      assert (kind_of a ∈ order_after_refusal) as Hin.
      { unfold order_after_refusal. rewrite Hpre. apply elem_of_app. left.
        apply list_elem_of_fmap. eauto. }
      unfold order_after_refusal in Hin.
      destruct a as [| |[]| | | | | | | |[]| | | | |]; simpl in *; try done;
        repeat (apply elem_of_cons in Hin as [?|Hin]; [done|]);
        by apply elem_of_nil in Hin.
Qed.

Lemma granted_state_reachable : reachable granted_state.
Proof. apply reachable_after. vm_compute. eauto. Qed.

(** C9, as stated, fails: the slot is released by a deferred call, after
    [deleteIfCurrent] and [OnExecuted], not before them. *)
Lemma release_comes_after_cleanup :
  ¬ (∀ s e c ls s',
       reachable s -> heap s !! e = Some c -> worker c = GStart ->
       run ls s = Some s' ->
       in_order [KStart; KInvoke; KRelease; KDelete; KExecuted]
         (done_by e s s')).
Proof.
  intros H.
  assert (∃ c, heap granted_state !! 0 = Some c ∧ worker c = GStart)
    as (c & Hc & Hw) by (vm_compute; eauto).
  assert (∃ s', run finishing_run granted_state = Some s' ∧
                done_by 0 granted_state s' = order_after_grant)
    as (s' & Hrun & Hdone) by (vm_compute; eauto).
  specialize (H granted_state 0 c finishing_run s'
                granted_state_reachable Hc Hw Hrun).
  rewrite Hdone in H. destruct H as [k Hk]. vm_compute in Hk. discriminate Hk.
Qed.

Lemma prefix_filter {A} (P : A -> Prop) `{∀ x, Decision (P x)} (l1 l2 : list A) :
  l1 `prefix_of` l2 -> filter P l1 `prefix_of` filter P l2.
Proof. intros [k ->]. rewrite filter_app. by eexists. Qed.

(** C9, amended. The order after admission. From a reachable state in
    which the goroutine of entry [e] holds its slot and is about to start,
    in every continuation what this goroutine does is a prefix of: record
    the start time, invoke the task body, (the body returns,)
    [deleteIfCurrent], [OnExecuted], and then the deferred calls,
    [releaseSlot] first and [cancel] second, and [wg.Done]. So the slot is
    released after the entry was removed and [OnExecuted] was emitted. The
    start step records the clock and invokes the entry's task; the
    [OnExecuted] step reports the clock minus the recorded start; the
    [deleteIfCurrent] step removes the mapping of the entry's ID only if it
    holds this entry; the release step is [releaseSlot]; and no other step
    changes the ID, the task or the recorded start. *)
Theorem post_admission_order s e c :
  reachable s ->
  heap s !! e = Some c -> worker c = GStart ->
  (∀ ls s', run ls s = Some s' ->
     done_by e s s' `prefix_of` order_after_grant ∧
     in_order [KStart; KInvoke; KDelete; KExecuted; KRelease] (done_by e s s')) ∧
  (∀ pick, ∃ s1 c1,
     step (RunWorker e pick) s = Some s1 ∧
     since s s1 = [(Worker e, AStart (now s)); (Worker e, AInvoke (e_task c))] ∧
     heap s1 !! e = Some c1 ∧ worker c1 = GRunning ∧ start c1 = now s) ∧
  (∀ l s2 s3 c2 c3,
     step l s2 = Some s3 -> heap s2 !! e = Some c2 -> heap s3 !! e = Some c3 ->
     e_id c3 = e_id c2 ∧ e_task c3 = e_task c2 ∧
     (worker c2 ≠ GStart -> start c3 = start c2)) ∧
  (∀ pick s2 s3 c2,
     heap s2 !! e = Some c2 -> step (RunWorker e pick) s2 = Some s3 ->
     (worker c2 = GDelete AfterTask ->
      pending (mgr s3) =
      pending (mgr (deleteIfCurrent (Worker e) (e_id c2) e s2))) ∧
     (worker c2 = GExecuted ->
      since s2 s3 =
      [(Worker e,
        AEmit (OnExecuted (e_id c2) (Z.of_nat (now s2) - Z.of_nat (start c2))))]) ∧
     (worker c2 = GRelease ->
      ∃ s2', releaseSlot e pick s2 = Some s2' ∧
             s3 = on_entry e (set_worker GCancel) s2')).
Proof.
  intros Hreach Hc Hw. pose proof (reachable_consistent _ Hreach) as Hs.
  split_and!.
  - intros ls s' Hrun.
    assert (committed (worker c) = true) as Hk by (by rewrite Hw).
    pose proof (committed_run_prefix ls s s' e c Hs Hrun Hc Hk) as Hpre.
    rewrite Hw in Hpre. split; [exact Hpre|].
    unfold in_order.
    apply (prefix_filter
             (fun k => k ∈ [KStart; KInvoke; KDelete; KExecuted; KRelease]))
      in Hpre.
    assert (filter (fun k => k ∈ [KStart; KInvoke; KDelete; KExecuted; KRelease])
              (ahead GStart) =
            [KStart; KInvoke; KDelete; KExecuted; KRelease]) as Hf
      by (vm_compute; reflexivity).
    by rewrite Hf in Hpre.
  - intros pick. eexists _, _. split_and!.
    + simpl. unfold worker_step. by rewrite Hc, Hw.
    + apply since_app. simpl. by rewrite <- app_assoc.
    + simpl. by rewrite list_lookup_alter_eq, Hc.
    + done.
    + done.
  - intros l s2 s3 c2 c3 H H2 H3. by apply (step_frame l s2 s3 e).
  - intros pick s2 s3 c2 H2 H. split_and!.
    + intros Hw2. by apply (worker_delete_step _ _ _ _ _ _ H2 Hw2 H).
    + intros Hw2. simpl in H. unfold worker_step in H. rewrite H2, Hw2 in H.
      simplify_eq. by apply since_app.
    + intros Hw2. simpl in H. unfold worker_step in H. rewrite H2, Hw2 in H.
      destruct (releaseSlot e pick s2) as [s2'|]; [|done].
      simpl in H. simplify_eq. eauto.
Qed.

(* ===================================================================== *)
(** ** Debounce                                                            *)
(* ===================================================================== *)

Lemma step_registry_ok l s s' :
  registry_ok s -> step l s = Some s' -> registry_ok s'.
Proof.
  unfold registry_ok. intros Hreg H.
  Step_cases H; simpl in *; rewrite ?length_app, ?length_alter; simpl;
    try done;
    try (apply map_Forall_delete; done);
    try (apply map_Forall_insert_2; [lia|]);
    try (eapply map_Forall_impl; [exact Hreg|]; simpl; intros; lia).
Qed.

Lemma reachable_registry_ok s : reachable s -> registry_ok s.
Proof.
  intros (opts & ls & H).
  eapply (run_invariant registry_ok); [|  |exact H].
  - intros; eauto using step_registry_ok.
  - unfold registry_ok. simpl.
    destruct (NewManager_fresh opts) as (_ & -> & _). apply map_Forall_empty.
Qed.

Ltac runs_delta :=
  match goal with
  | |- context [runs ?e ?s'] =>
      lazymatch goal with
      | Hr : runs_ok ?s |- _ =>
          erewrite (runs_since e s s')
            by (simpl; rewrite <- ?app_assoc;
                first [reflexivity | symmetry; apply app_nil_r])
      end
  end.

Lemma has_room_empty ch : cap ch ≠ 0 -> len ch = 0 -> has_room ch = true.
Proof. intros H1 H2. unfold has_room. rewrite H2. apply Nat.ltb_lt. lia. Qed.

Ltac use_pcs_all :=
  repeat match goal with
  | Hh : handler _ = _ |- _ => rewrite Hh in *
  | Hw : worker _ = _ |- _ => rewrite Hw in *
  | Ht : timer _ = _ |- _ => rewrite Ht in *
  | Hm : semaphore _ = _ |- _ => rewrite Hm in *
  end.

Lemma debounced_step l s s' :
  debounced s -> internal l = true -> step l s = Some s' -> debounced s'.
Proof.
  intros (Hs & Hr & c0 & c1 & Ha) Hint H.
  split; [eauto using step_consistent|].
  split; [eauto using step_runs_ok|].
  destruct Ha as [Hheap (Ht0 & Hh0 & Hw0) Hopen Honce Hcaller Hsem Hctx Hunh Hran
                    Htimer Hfired Hnoabort Hstarted].
  pose proof (Hr 1) as [Hle1 Hz1]. rewrite Hheap in Hz1. simpl in Hz1.
  assert (drainer s = DNone) as Hdr.
  { apply (inv_drainer _ Hs). by rewrite Honce. }
  assert (entry_ok c1) as (K1 & K2 & K3 & K4).
  { apply (Forall_lookup_1 _ _ 1 _ (inv_entries _ Hs)). by rewrite Hheap. }
  Step_cases H; simpl in Hint; try discriminate;
    try congruence;
    repeat match goal with
    | Hl : heap s !! ?e = Some _ |- _ =>
        rewrite Hheap in Hl; destruct e as [|[|?]]; simpl in Hl; simplify_eq
    end;
    try congruence.
  all: use_pcs_all; simpl in *.
  all: try specialize (K1 ltac:(discriminate)).
  all: try specialize (K2 eq_refl).
  all: use_pcs_all; simpl in *.
  all: try match goal with
       | Hroom : has_room ?ch = false |- _ =>
           rewrite has_room_empty in Hroom by tauto; discriminate Hroom
       end.
  all: try (destruct Hctx as [|]; [done|discriminate|discriminate]).
  all: try (exists c0; eexists; split; simpl; rewrite ?Hheap; simpl;
            try reflexivity; try done;
            unfold mark_cancelled, stop_timer; simpl;
            use_pcs_all; simpl in *; try done; try congruence; try tauto;
            try (intuition congruence);
            try (intros Hb; runs_delta; unfold by_actor; simpl;
                 rewrite ?decide_True by done; simpl;
                 first [rewrite Hran by done; lia | rewrite Hz1 by done; lia]);
            try lia).
Qed.

Lemma debounced_lock s c0 c1 :
  consistent s -> alone s c0 c1 ->
  writer (mu (mgr s)) = in_delete_cs c1 ∧
  readers (mu (mgr s)) = b2n (in_read_cs c1).
Proof.
  intros Hs [Hheap (Ht0 & Hh0 & Hw0) Hopen Honce Hcaller _ _ _ _ _ _ _ _].
  pose proof (inv_writer _ Hs) as Hw. pose proof (inv_readers _ Hs) as Hr.
  rewrite Hheap, Hcaller, Honce in Hw. rewrite Hheap in Hr. simpl in *.
  unfold in_delete_cs, in_read_cs in *. rewrite Hw0 in Hw. rewrite Hh0 in Hr.
  simpl in *. split; [|unfold b2n; lia].
  destruct (writer (mu (mgr s))),
    (match worker c1 with GDeleteUnlock _ => true | _ => false end);
    simpl in *; try done; lia.
Qed.

(** Runs one statement and measures what remains. *)
Ltac advance l :=
  exists l; eexists; split; [done|]; split;
  [ simpl; unfold fire, handler_step, worker_step, mu_Lock, mu_RLock;
    repeat (match goal with
            | Hheap : heap _ = _ |- _ => rewrite Hheap
            | Hh : handler _ = _ |- _ => rewrite Hh
            | Hw : worker _ = _ |- _ => rewrite Hw
            | Ht : timer _ = _ |- _ => rewrite Ht
            | Hm : writer _ = _ |- _ => rewrite Hm
            | Hm : readers _ = _ |- _ => rewrite Hm
            | Hm : isClosed _ = _ |- _ => rewrite Hm
            end; simpl);
    try reflexivity
  | ].

Lemma debounced_progress s :
  debounced s -> ¬ finished 1 s ->
  ∃ l s', internal l = true ∧ step l s = Some s' ∧ remaining s' < remaining s.
Proof.
  intros (Hs & Hr & c0 & c1 & Ha) Hnf.
  destruct (debounced_lock s c0 c1 Hs Ha) as [Hwr Hrd].
  destruct Ha as [Hheap (Ht0 & Hh0 & Hw0) Hopen Honce Hcaller Hsem Hctx Hunh Hran
                    Htimer Hfired Hnoabort Hstarted].
  assert (entry_ok c1) as (K1 & K2 & K3 & K4).
  { apply (Forall_lookup_1 _ _ 1 _ (inv_entries _ Hs)). by rewrite Hheap. }
  assert (worker c1 ≠ GExit) as Hne.
  { intros Hx. apply Hnf. exists c1. by rewrite Hheap. }
  unfold remaining. rewrite Hheap. simpl.
  unfold in_delete_cs, in_read_cs in *.
  destruct (timer c1) eqn:Et; [| done |].
  - (* the timer is armed *)
    specialize (K1 ltac:(discriminate)). rewrite K1 in K2.
    specialize (K2 eq_refl). rewrite K1, K2 in *. simpl in *.
    destruct (decide (fire_at c1 <= now s)) as [Hdue|Hearly].
    + advance (Fire 1).
      * rewrite ?bool_decide_eq_true_2 by done. simpl.
        destruct (fire_at c1 <=? now s) eqn:E; [done|]. apply Nat.leb_gt in E. lia.
      * simpl. rewrite ?Hheap. simpl. unfold distance. simpl.
        rewrite ?Et, ?K1, ?K2. simpl. lia.
    + advance Tick. simpl. rewrite ?Hheap. simpl. unfold distance.
      rewrite ?Et, ?K1, ?K2. simpl. lia.
  - (* the timer has fired *)
    specialize (Hfired eq_refl).
    destruct (handler c1) eqn:Eh; try done; simpl in *.
    all: try (specialize (K2 eq_refl); rewrite K2 in * ); simpl in *.
    + advance (RunHandler 1). simpl. rewrite ?Hheap. simpl. unfold distance.
      simpl. rewrite ?Et, ?Eh, ?K2. simpl. lia.
    + advance (RunHandler 1). simpl. rewrite ?Hheap. simpl. unfold distance.
      simpl. rewrite ?Et, ?Eh, ?K2. simpl. lia.
    + advance (RunHandler 1). simpl. rewrite ?Hheap. simpl. unfold distance.
      simpl. rewrite ?Et, ?Eh, ?K2. simpl. lia.
    + advance (RunHandler 1). simpl. rewrite ?Hheap. simpl. unfold distance.
      simpl. rewrite ?Et, ?Eh. simpl. lia.
    + specialize (Hstarted eq_refl).
      destruct (worker c1) as [| | |from|from| | | | | | |] eqn:Ew; try done;
        try (destruct from; try done); simpl in *.
      all: try (advance (RunWorker 1 0); simpl; rewrite ?Hheap; simpl;
                unfold distance; simpl; rewrite ?Et, ?Eh, ?Ew; simpl; lia).
      * (* acquireSlot *)
        assert (ctx_done c1 = false) as Hcd.
        { destruct (ctx_done c1); [|done]. by destruct Hctx as [?|?]. }
        advance (RunWorker 1 0).
        unfold acquireSlot. simpl.
        destruct (semaphore (mgr s)) as [ch|] eqn:Esem; simpl.
        -- destruct Hsem as [Hcap Hlen].
           assert (has_room ch = true) as ->.
           { unfold has_room. apply Nat.ltb_lt. lia. }
           rewrite Hcd.
           destruct (strategy (mgr s)); simpl; rewrite ?Hheap; simpl;
             unfold distance; simpl; rewrite ?Et, ?Eh, ?Ew; simpl; lia.
        -- rewrite ?Hheap; simpl; unfold distance; simpl;
             rewrite ?Et, ?Eh, ?Ew; simpl; lia.
      * (* deleteIfCurrent after the task *)
        advance (RunWorker 1 0).
        unfold deleteIfCurrent. simpl.
        destruct (pending (mgr s) !! e_id c1) as [cur|]; simpl;
          [destruct (decide (cur = 1)); simpl|];
          rewrite ?Hheap; simpl; unfold distance; simpl;
          rewrite ?Et, ?Eh, ?Ew; simpl; lia.
      * (* releaseSlot *)
        destruct (semaphore (mgr s)) as [ch|] eqn:Esem;
          [destruct Hsem as [Hcap Hlen]|];
          (advance (RunWorker 1 0);
           [ unfold releaseSlot; rewrite ?Hheap, ?Esem; simpl;
             unfold is_parked; rewrite ?Hw0, ?Ew; simpl;
             rewrite ?Hlen; simpl; reflexivity
           | simpl; rewrite ?Hheap; simpl; unfold distance; simpl;
             rewrite ?Et, ?Eh, ?Ew; simpl; lia ]).
      * (* the deferred cancel *)
        advance (RunWorker 1 0).
        simpl. rewrite ?Hheap. simpl. unfold distance, mark_cancelled. simpl.
        rewrite ?Ew. simpl. rewrite ?Et, ?Eh, ?Ew. simpl. lia.
Qed.


Lemma debounced_run ls s s' :
  debounced s -> Forall (fun l => internal l = true) ls ->
  run ls s = Some s' -> debounced s'.
Proof.
  revert s. induction ls as [|l ls IH]; intros s Hd Hall Hrun; simpl in Hrun.
  - by simplify_eq.
  - destruct (step l s) as [s1|] eqn:E; [|done].
    apply Forall_cons in Hall as [Hl Hall].
    eauto using debounced_step.
Qed.

(** Left alone, the replacement reaches the end of its goroutine. *)
Lemma debounced_completes s :
  debounced s ->
  ∃ ls s', Forall (fun l => internal l = true) ls ∧ run ls s = Some s' ∧
           finished 1 s'.
Proof.
  remember (remaining s) as k eqn:Hk. revert s Hk.
  induction k as [k IH] using lt_wf_ind. intros s -> Hd.
  assert (finished 1 s ∨ ¬ finished 1 s) as [Hf|Hnf].
  { destruct Hd as (_ & _ & c0 & c1 & Ha). pose proof (al_heap _ _ _ Ha) as Hh.
    destruct (decide (worker c1 = GExit)) as [Hw|Hw].
    - left. exists c1. by rewrite Hh.
    - right. intros (c & Hc & Hx). rewrite Hh in Hc. simpl in Hc. congruence. }
  - exists [], s. by split_and!.
  - destruct (debounced_progress s Hd Hnf) as (l & s1 & Hl & Hstep & Hlt).
    destruct (IH _ Hlt s1 eq_refl (debounced_step _ _ _ Hd Hl Hstep))
      as (ls & s' & Hall & Hrun & Hf).
    exists (l :: ls), s'. split_and!; [by constructor| |done].
    simpl. by rewrite Hstep.
Qed.

Lemma debounced_runs s :
  debounced s -> runs 0 s = 0 ∧ runs 1 s <= 1 ∧ (finished 1 s -> runs 1 s = 1).
Proof.
  intros (Hs & Hr & c0 & c1 & Ha).
  destruct Ha as [Hheap (Ht0 & Hh0 & Hw0) _ _ _ _ _ _ Hran _ _ _ _].
  split_and!.
  - apply (Hr 0). rewrite Hheap. simpl. by rewrite Hw0.
  - apply (Hr 1).
  - intros (c & Hc & Hx). rewrite Hheap in Hc. simpl in Hc. simplify_eq.
    apply Hran. by rewrite Hx.
Qed.

(** A goroutine that has ended invokes nothing any more. *)
Lemma finished_stays ls s s' e :
  consistent s -> finished e s -> run ls s = Some s' -> runs e s' = runs e s.
Proof.
  intros Hs (c & Hc & Hx) Hrun.
  eapply committed_never_invokes; eauto.
  - by rewrite Hx.
  - rewrite Hx. simpl. apply not_elem_of_nil.
Qed.

Lemma run_ticks n s :
  run (replicate n Tick) s = Some (set_now (n + now s) s).
Proof.
  revert s. induction n as [|n IH]; intros [m h c d t tr]; simpl; [done|].
  rewrite IH. unfold set_now. simpl. do 2 f_equal. lia.
Qed.

(** The scenario on a fresh manager ends in a state where the replacement
    is alone. *)
Lemma debounce_run_alone m id d1 f1 n d2 f2 :
  mu m = {| writer := false; readers := 0 |} -> pending m = ∅ ->
  isClosed m = false -> shutdownOnce m = OnceIdle ->
  (semaphore m = None ∨ ∃ k, semaphore m = Some {| cap := S k; len := 0 |}) ->
  ∃ s c0 c1,
    run (debounce_run id d1 f1 n d2 f2) (boot m) = Some s ∧ alone s c0 c1.
Proof.
  intros Hmu Hp Hcl Honce Hsem. destruct m; simpl in *; subst.
  unfold debounce_run. unfold mu_Lock, Schedule. simpl.
  rewrite lookup_empty. simpl.
  rewrite run_app, run_ticks. simpl. unfold mu_Lock, Schedule. simpl.
  rewrite lookup_insert_eq. simpl.
  eexists _, _, _. split; [reflexivity|].
  split; simpl; try done.
  - destruct Hsem as [->|[k ->]]; simpl; [done|]. split; [lia|done].
Qed.

Lemma debounce_run_debounced opts id d1 f1 n d2 f2 :
  ∃ s, run (debounce_run id d1 f1 n d2 f2) (boot (NewManager opts)) = Some s ∧
       debounced s.
Proof.
  destruct (NewManager_fresh opts) as (Hmu & Hp & _ & Hcl & Honce & _ & Hsem).
  destruct (debounce_run_alone (NewManager opts) id d1 f1 n d2 f2)
    as (s & c0 & c1 & Hrun & Ha); auto.
  exists s. split; [done|].
  assert (reachable s) as Hreach by (by exists opts, (debounce_run id d1 f1 n d2 f2)).
  split_and!; eauto using reachable_consistent, reachable_runs_ok.
Qed.


Lemma reachable_step l s s' : reachable s -> step l s = Some s' -> reachable s'.
Proof.
  intros (opts & ls & H) Hstep. exists opts, (ls ++ [l]).
  rewrite run_app, H. simpl. by rewrite Hstep.
Qed.

Lemma reachable_run ls s s' : reachable s -> run ls s = Some s' -> reachable s'.
Proof.
  intros (opts & ls0 & H) Hrun. exists opts, (ls0 ++ ls).
  rewrite run_app, H. simpl. done.
Qed.


(* ===================================================================== *)
(** ** The theorems at concrete runs                                       *)
(* ===================================================================== *)

Lemma scheduled_state_reachable : reachable scheduled_state.
Proof. apply reachable_after. vm_compute. eauto. Qed.

Lemma spawning_state_reachable : reachable spawning_state.
Proof. apply reachable_after. vm_compute. eauto. Qed.

Lemma dropping_state_reachable : reachable dropping_state.
Proof. apply reachable_after. vm_compute. eauto. Qed.

Lemma parked_state_reachable : reachable parked_state.
Proof. apply reachable_after. vm_compute. eauto. Qed.


(** The goroutine of the replaced "z" leaves the mapping of "z" to its
    replacement alone. *)
Lemma stale_completion_guard_witness :
  pending (mgr stale_state) !! "z" = Some 1 ∧
  step (RunWorker 0 0) stale_state = Some (after [RunWorker 0 0] stale_state) ∧
  pending (mgr (after [RunWorker 0 0] stale_state)) !! "z" = Some 1.
Proof.
  assert (pending (mgr stale_state) !! "z" = Some 1) as Hz
    by (vm_compute; reflexivity).
  assert (step (RunWorker 0 0) stale_state =
          Some (after [RunWorker 0 0] stale_state)) as Hstep
    by (vm_compute; reflexivity).
  assert (heap stale_state !! 0 =
          Some {| timer := TimerFired; ctx_done := true; e_id := "z";
                  e_task := 1; fire_at := 0; handler := HExit;
                  worker := GDelete AfterTask; start := 0 |}) as Hc
    by (vm_compute; reflexivity).
  destruct (stale_completion_guard stale_state 0 0 _ _ Hc Hstep)
    as (_ & _ & _ & Hkeep).
  split_and!; [exact Hz|exact Hstep|].
  apply (Hkeep "z" 1); [lia|exact Hz].
Defined.

(** After a [Shutdown] that returned nil, [Schedule] changes nothing. *)
Lemma schedule_after_close_is_noop_witness :
  Shutdown background_ctx 0 drained_state = Some None ∧
  Schedule "a" 0 7 drained_state = drained_state.
Proof.
  assert (Shutdown background_ctx 0 drained_state = Some None) as Hret
    by (vm_compute; reflexivity).
  split; [exact Hret|].
  apply (schedule_after_close_is_noop drained_state "a" 0 7).
  right. split; [exact drained_state_reachable|].
  exists background_ctx, 0. exact Hret.
Defined.

(** After the drain the wait group is at zero and [Shutdown] returns nil
    to a context that is not done. *)
Lemma shutdown_outcome_protocol_witness :
  shutdownDone (mgr drained_state) = true ∧
  wg (mgr drained_state) = 0 ∧
  Shutdown background_ctx 0 drained_state = Some None.
Proof.
  assert (shutdownDone (mgr drained_state) = true) as Hd
    by (vm_compute; reflexivity).
  destruct (shutdown_outcome_protocol drained_state drained_state_reachable)
    as (_ & _ & _ & _ & _ & _ & _ & _ & _ & Hlast).
  destruct (Hlast Hd) as [Hwg Hfut].
  split_and!; [exact Hd|exact Hwg|].
  destruct (Hfut [] drained_state eq_refl) as [_ Hnil].
  apply Hnil. vm_compute. reflexivity.
Defined.

(** With the only slot taken, the drop strategy turns "b" away, and "b"
    never runs. *)
Lemma drop_rejects_without_running_witness :
  has_room {| cap := 1; len := 1 |} = false ∧
  ∃ s1, step (RunWorker 1 0) dropping_state = Some s1 ∧
        since dropping_state s1 =
          [(Worker 1, AEmit (OnFailed "b" ErrTaskDropped))] ∧
        ∀ ls s', run ls s1 = Some s' -> runs 1 s' = 0.
Proof.
  split; [reflexivity|].
  assert (heap dropping_state !! 1 =
          Some {| timer := TimerFired; ctx_done := false; e_id := "b";
                  e_task := 8; fire_at := 0; handler := HExit;
                  worker := GAcquire; start := 0 |}) as Hc
    by (vm_compute; reflexivity).
  assert (semaphore (mgr dropping_state) = Some {| cap := 1; len := 1 |}) as Hsem
    by (vm_compute; reflexivity).
  assert (strategy (mgr dropping_state) = StrategyDrop) as Hst
    by (vm_compute; reflexivity).
  destruct (drop_rejects_without_running dropping_state 1 _ _ 0
              dropping_state_reachable Hc eq_refl Hsem Hst eq_refl)
    as (s1 & c1 & Hstep & Hsince & _ & _ & _ & _ & _ & Hfut & _).
  exists s1. split_and!; [exact Hstep|exact Hsince|].
  intros ls s' Hrun. apply (Hfut ls s' Hrun).
Defined.

(** [Cancel "b"] while "b" waits for the slot: "b" never runs. *)
Lemma cancel_while_waiting_witness :
  step (Call (CallCancel "b")) parked_state = Some unparked_state ∧
  ∀ ls s', run ls unparked_state = Some s' -> runs 1 s' = 0.
Proof.
  assert (step (Call (CallCancel "b")) parked_state = Some unparked_state)
    as Hstep by (vm_compute; reflexivity).
  split; [exact Hstep|].
  assert (heap parked_state !! 1 =
          Some {| timer := TimerFired; ctx_done := false; e_id := "b";
                  e_task := 8; fire_at := 0; handler := HExit;
                  worker := GParked; start := 0 |}) as Hc
    by (vm_compute; reflexivity).
  assert (heap unparked_state !! 1 =
          Some {| timer := TimerFired; ctx_done := true; e_id := "b";
                  e_task := 8; fire_at := 0; handler := HExit;
                  worker := GDelete AfterWait; start := 0 |}) as Hc'
    by (vm_compute; reflexivity).
  destruct (cancel_while_waiting parked_state 1 _ _ unparked_state _
              parked_state_reachable Hc eq_refl Hstep Hc' eq_refl)
    as (_ & _ & _ & _ & _ & _ & Hfut).
  intros ls s' Hrun. apply (Hfut ls s' Hrun).
Defined.

(** A callback about to call [wg.Go] has an open manager before it. *)
Lemma fire_shutdown_exclusion_witness :
  isClosed (mgr spawning_state) = false ∧ drainer spawning_state = DNone ∧
  wg (mgr spawning_state) = census in_flight (heap spawning_state).
Proof.
  assert (heap spawning_state !! 0 =
          Some {| timer := TimerFired; ctx_done := false; e_id := "a";
                  e_task := 7; fire_at := 0; handler := HSpawn;
                  worker := GNone; start := 0 |}) as Hc
    by (vm_compute; reflexivity).
  destruct (fire_shutdown_exclusion spawning_state spawning_state_reachable)
    as (_ & Hopen & Hwg & _).
  destruct (Hopen 0 _ Hc eq_refl) as [Ho Hd].
  split_and!; [exact Ho|exact Hd|exact Hwg].
Defined.

(** A deadline that has passed, before the drain is over. *)
Lemma shutdown_error_is_context_error_witness :
  Shutdown expired_ctx 0 closing_state = Some (Some DeadlineExceeded) ∧
  ctx_Err (now closing_state) expired_ctx = Some DeadlineExceeded ∧
  ∃ dl, deadline expired_ctx = Some dl ∧ dl <= now closing_state.
Proof.
  assert (Shutdown expired_ctx 0 closing_state = Some (Some DeadlineExceeded))
    as Hret by (vm_compute; reflexivity).
  split; [exact Hret|].
  destruct (shutdown_error_is_context_error _ _ _ _ Hret) as (Herr & _).
  destruct (Herr DeadlineExceeded eq_refl) as (He & _ & Hdl).
  split; [exact He|]. exact (Hdl eq_refl).
Defined.

(** The whole goroutine of "a" after it got the slot. *)
Lemma post_admission_order_witness :
  run finishing_run granted_state =
    Some (after finishing_run granted_state) ∧
  done_by 0 granted_state (after finishing_run granted_state)
    `prefix_of` order_after_grant.
Proof.
  assert (run finishing_run granted_state =
          Some (after finishing_run granted_state)) as Hrun
    by (vm_compute; reflexivity).
  assert (heap granted_state !! 0 =
          Some {| timer := TimerFired; ctx_done := false; e_id := "a";
                  e_task := 7; fire_at := 0; handler := HExit;
                  worker := GStart; start := 0 |}) as Hc
    by (vm_compute; reflexivity).
  destruct (post_admission_order granted_state 0 _
              granted_state_reachable Hc eq_refl) as (Hord & _).
  split; [exact Hrun|]. apply (Hord finishing_run _ Hrun).
Defined.

(** A negative limit with the drop strategy. *)
Lemma nonpositive_limit_is_unlimited_witness :
  (-1 <= 0)%Z ∧ semaphore (NewManager [WithLimit (-1) StrategyDrop]) = None.
Proof.
  split; [lia|].
  apply (nonpositive_limit_is_unlimited (-1) StrategyDrop). lia.
Defined.

(* ===================================================================== *)
(** ** The admission gate                                                  *)
(* ===================================================================== *)

Lemma step_config l s s' :
  step l s = Some s' -> config (mgr s') = config (mgr s).
Proof.
  intros H. unfold config.
  Step_cases H; simpl; try done;
    repeat match goal with
    | Hm : semaphore _ = _ |- _ => rewrite Hm
    end; try done.
Qed.

Lemma run_config ls s s' :
  run ls s = Some s' -> config (mgr s') = config (mgr s).
Proof.
  revert s. induction ls as [|l ls IH]; intros s H; simpl in H; [by simplify_eq|].
  destruct (step l s) as [s1|] eqn:E; [|done].
  rewrite (IH _ H). eauto using step_config.
Qed.

Lemma census_existsb P h : existsb P h = false -> census P h = 0.
Proof.
  induction h as [|c h IH]; simpl; [done|].
  destruct (P c); simpl; [done|]. auto.
Qed.

Lemma holds_slot_mark_cancelled c :
  holds_slot (mark_cancelled c) = holds_slot c.
Proof. unfold holds_slot, mark_cancelled. by destruct (worker c) eqn:E; simpl; rewrite ?E. Qed.

Lemma holds_slot_stop_timer c : holds_slot (stop_timer c) = holds_slot c.
Proof. unfold holds_slot. by rewrite stop_timer_worker. Qed.

Lemma is_parked_stop_timer c : is_parked (stop_timer c) = is_parked c.
Proof. unfold is_parked. by rewrite stop_timer_worker. Qed.

Lemma is_parked_mark_cancelled c : is_parked (mark_cancelled c) = false.
Proof.
  unfold is_parked, mark_cancelled.
  destruct (worker c) eqn:E; simpl; rewrite ?E; done.
Qed.

Lemma census_alter_le P f e h :
  (∀ c, P (f c) = true -> P c = true) ->
  census P (alter f e h) <= census P h.
Proof.
  intros Hf. pose proof (census_alter P f e h) as H.
  destruct (h !! e) as [c|]; simpl in H; [|lia].
  specialize (Hf c). unfold b2n in H.
  destruct (P (f c)), (P c); first [lia | by specialize (Hf eq_refl)].
Qed.

Lemma census_parked_cancel e h :
  census is_parked (alter mark_cancelled e (alter stop_timer e h)) <=
  census is_parked h.
Proof.
  etrans; [apply census_alter_le|].
  - intros c. by rewrite is_parked_mark_cancelled.
  - rewrite census_alter_same; [done|]. intros; apply is_parked_stop_timer.
Qed.

Lemma census_holds_cancel e h :
  census holds_slot (alter mark_cancelled e (alter stop_timer e h)) =
  census holds_slot h.
Proof.
  rewrite !census_alter_same; auto using holds_slot_mark_cancelled, holds_slot_stop_timer.
Qed.

Ltac slot_census E :=
  repeat first
    [ rewrite list_lookup_alter_eq in E
    | rewrite list_lookup_alter_ne in E by congruence ];
  repeat match goal with
  | Hl : _ !! _ = Some _ |- _ => rewrite Hl in E
  end;
  cbn [from_option] in E;
  rewrite ?holds_slot_mark_cancelled, ?is_parked_mark_cancelled,
    ?holds_slot_stop_timer, ?is_parked_stop_timer in E;
  unfold holds_slot, is_parked, in_body in E; simpl in E;
  rewrite ?stop_timer_worker in E;
  repeat match goal with
  | Hw : worker ?c = _ |- _ => rewrite Hw in E
  end;
  simpl in E.

Ltac slot_one P f e h :=
  let E := fresh "E" in
  pose proof (census_alter P f e h) as E;
  let n := fresh "n" in
  set (n := census P (alter f e h)) in *; clearbody n;
  let m := fresh "m" in
  set (m := census P h) in *;
  slot_census E; subst m.

Ltac slot_out :=
  repeat match goal with
  | |- context [census ?P (alter ?f ?e ?h)] => slot_one P f e h
  | H : context [census ?P (alter ?f ?e ?h)] |- _ => slot_one P f e h
  end.

Lemma census_parked_mark e h :
  census is_parked (alter mark_cancelled e h) <= census is_parked h.
Proof. apply census_alter_le. intros c. by rewrite is_parked_mark_cancelled. Qed.

Lemma census_holds_mark e h :
  census holds_slot (alter mark_cancelled e h) = census holds_slot h.
Proof. rewrite census_alter_same; auto using holds_slot_mark_cancelled. Qed.

Ltac parked_set e h :=
  let n := fresh "n" in
  first
    [ pose proof (census_parked_cancel e h);
      progress
        set (n := census is_parked (alter mark_cancelled e (alter stop_timer e h))) in *;
      clearbody n ].

Ltac parked_set1 e h :=
  let n := fresh "n" in
  pose proof (census_parked_mark e h);
  set (n := census is_parked (alter mark_cancelled e h)) in *;
  clearbody n.

Ltac parked_out :=
  repeat match goal with
  | |- context [census is_parked (alter mark_cancelled ?e (alter stop_timer ?e ?h))] =>
      parked_set e h
  | _ : context [census is_parked (alter mark_cancelled ?e (alter stop_timer ?e ?h))] |- _ =>
      parked_set e h
  | |- context [census is_parked (alter mark_cancelled ?e ?h)] =>
      parked_set1 e h
  | _ : context [census is_parked (alter mark_cancelled ?e ?h)] |- _ =>
      parked_set1 e h
  end.

Lemma step_slots_ok l s s' :
  consistent s -> slots_ok s -> step l s = Some s' -> slots_ok s'.
Proof.
  unfold slots_ok. intros Hc Hs H. pose proof (inv_entries _ Hc) as He.
  Step_cases H; entry_facts He; simpl in *;
    repeat match goal with
    | Hm : semaphore _ = _ |- _ => rewrite Hm in *
    end; simpl in *; try done;
    destruct (semaphore (mgr s)) as [ch0|] eqn:Esem; simpl in *; try done;
    simplify_eq; try done;
    rewrite ?census_app; simpl;
    try match goal with
    | Hroom : has_room _ = _ |- _ =>
        unfold has_room in Hroom;
        first [apply Nat.ltb_lt in Hroom | apply Nat.ltb_ge in Hroom]
    end;
    try match goal with
    | Hx : existsb is_parked _ = false |- _ => apply census_existsb in Hx
    end;
    try match goal with
    | Hl : heap s !! ?w = Some ?c, Hw : worker ?c = GParked |- _ =>
        pose proof (census_pos is_parked _ _ _ Hl
                      ltac:(unfold is_parked; by rewrite Hw))
    end;
    repeat (rewrite ?census_holds_cancel, ?census_holds_mark in *; parked_out;
            match goal with
            | |- context [census ?P (alter ?f ?e ?h)] => slot_one P f e h
            | _ : context [census ?P (alter ?f ?e ?h)] |- _ => slot_one P f e h
            end);
    rewrite ?census_holds_cancel, ?census_holds_mark in *; parked_out;
    unfold b2n in *; simpl in *;
    try lia;
    try (destruct Hs as (Hs1 & Hs2 & Hs3 & Hs4); split_and!; intros; lia).

Qed.

Lemma boot_slots_ok opts : slots_ok (boot (NewManager opts)).
Proof.
  unfold slots_ok. simpl.
  destruct (NewManager_fresh opts) as (_ & _ & _ & _ & _ & _ & [->|[n ->]]);
    simpl; [done|]. split_and!; lia.
Qed.

Lemma reachable_slots_ok opts ls s :
  run ls (boot (NewManager opts)) = Some s -> slots_ok s.
Proof.
  intros H.
  assert (consistent s ∧ slots_ok s) as [_ ?]; [|done].
  eapply (run_invariant (fun s => consistent s ∧ slots_ok s)); [| |exact H].
  - intros l s1 s2 [Hc Hs] Hstep.
    split; eauto using step_consistent, step_slots_ok.
  - split; [apply boot_consistent|apply boot_slots_ok].
Qed.

Lemma effective_limit_snoc opts opt :
  effective_limit (opts ++ [opt]) =
  match positive_limit opt with
  | Some p => Some p
  | None => effective_limit opts
  end.
Proof.
  unfold effective_limit. rewrite omap_app. simpl.
  destruct (positive_limit opt); simpl; [by rewrite last_snoc|by rewrite app_nil_r].
Qed.

Lemma effective_logger_snoc opts opt :
  effective_logger (opts ++ [opt]) =
  match given_logger opt with
  | Some h => Some h
  | None => effective_logger opts
  end.
Proof.
  unfold effective_logger. rewrite omap_app. simpl.
  destruct (given_logger opt); simpl; [by rewrite last_snoc|by rewrite app_nil_r].
Qed.

(** What the options make of the manager. *)
Lemma NewManager_options opts :
  semaphore (NewManager opts) =
    (fun p => {| cap := Z.to_nat p.1; len := 0 |}) <$> effective_limit opts ∧
  strategy (NewManager opts) =
    from_option snd StrategyBlock (effective_limit opts) ∧
  logger (NewManager opts) = default nopLogger (effective_logger opts).
Proof.
  induction opts as [|opt opts IH] using rev_ind; [done|].
  rewrite NewManager_snoc, effective_limit_snoc, effective_logger_snoc.
  destruct IH as (IH1 & IH2 & IH3).
  destruct opt as [limit strat|[h|]]; simpl; try done.
  destruct (0 <? limit)%Z; simpl; done.
Qed.

Lemma effective_limit_elem opts limit strat :
  effective_limit opts = Some (limit, strat) ->
  WithLimit limit strat ∈ opts ∧ (0 < limit)%Z.
Proof.
  unfold effective_limit. intros H. apply last_Some_elem_of in H.
  apply list_elem_of_omap in H as (opt & Hin & Hp).
  destruct opt as [n st|l]; simpl in Hp; [|done].
  destruct (0 <? n)%Z eqn:E; simplify_eq. apply Z.ltb_lt in E. done.
Qed.

(** X1. The concurrency limit. On a manager built with a limit, in every
    state the program can reach: the capacity of the semaphore is the
    positive limit of an option the manager was built with; the number
    of elements in the semaphore is the number of goroutines between
    their grant in [acquireSlot] and their [releaseSlot]; it never
    exceeds the capacity, so no more task bodies than the limit run at
    the same time; and a goroutine is parked in the [select] of
    [acquireSlot] only while the semaphore is full. *)
Theorem concurrency_limit opts ls s ch :
  run ls (boot (NewManager opts)) = Some s ->
  semaphore (mgr s) = Some ch ->
  (∃ limit strat, WithLimit limit strat ∈ opts ∧ (0 < limit)%Z ∧
                  cap ch = Z.to_nat limit) ∧
  census holds_slot (heap s) = len ch ∧
  len ch <= cap ch ∧
  census in_body (heap s) <= cap ch ∧
  (∀ e c, heap s !! e = Some c -> worker c = GParked -> len ch = cap ch).
Proof.
  intros Hrun Hsem.
  pose proof (reachable_slots_ok _ _ _ Hrun) as Hs.
  unfold slots_ok in Hs. rewrite Hsem in Hs.
  destruct Hs as (Hlen & Hle & Hfull & _).
  split_and!; try done.
  - pose proof (run_config _ _ _ Hrun) as Hcfg. unfold config in Hcfg.
    simpl in Hcfg. rewrite Hsem in Hcfg. simplify_eq/=.
    destruct (NewManager_options opts) as (Ho & _).
    destruct (effective_limit opts) as [[limit strat]|] eqn:E;
      rewrite Ho in *; simplify_eq/=.
    destruct (effective_limit_elem _ _ _ E). eauto.
  - rewrite <- Hlen in Hle. etrans; [|exact Hle].
    apply census_le. intros c. unfold in_body, holds_slot.
    by destruct (worker c).
  - intros e c Hc Hw. apply Hfull.
    eapply census_pos; [done|]. unfold is_parked. by rewrite Hw.
Qed.

Lemma concurrency_limit_witness :
  run granted_run (boot (NewManager [WithLimit 1 StrategyBlock])) =
    Some granted_state ∧
  census holds_slot (heap granted_state) = 1 ∧
  census in_body (heap granted_state) <= 1.
Proof.
  assert (run granted_run (boot (NewManager [WithLimit 1 StrategyBlock])) =
          Some granted_state) as Hrun by (vm_compute; reflexivity).
  assert (semaphore (mgr granted_state) = Some {| cap := 1; len := 1 |}) as Hsem
    by (vm_compute; reflexivity).
  destruct (concurrency_limit _ _ _ _ Hrun Hsem) as (_ & Hlen & _ & Hbody & _).
  split_and!; [exact Hrun|exact Hlen|exact Hbody].
Defined.

(** X2. How the options compose. [NewManager] applies its options in
    order: the semaphore and the strategy are those of the last
    [WithLimit] whose limit is positive (no semaphore and the zero value
    [StrategyBlock] when there is none), the handler is that of the last
    [WithLogger] that was given one (the package's [nopLogger] when there
    is none); an option with a limit that is not positive or a nil
    handler changes nothing, wherever it stands. The manager starts open,
    with an empty registry. And no step of the program changes the
    capacity, the strategy or the handler afterwards. *)
Theorem options_compose opts :
  semaphore (NewManager opts) =
    (fun p => {| cap := Z.to_nat p.1; len := 0 |}) <$> effective_limit opts ∧
  strategy (NewManager opts) =
    from_option snd StrategyBlock (effective_limit opts) ∧
  logger (NewManager opts) = default nopLogger (effective_logger opts) ∧
  pending (NewManager opts) = ∅ ∧ isClosed (NewManager opts) = false ∧
  (∀ before after limit strat,
     (limit <= 0)%Z ->
     NewManager (before ++ WithLimit limit strat :: after) =
     NewManager (before ++ after)) ∧
  (∀ before after,
     NewManager (before ++ WithLogger None :: after) =
     NewManager (before ++ after)) ∧
  (∀ ls s, run ls (boot (NewManager opts)) = Some s ->
     cap <$> semaphore (mgr s) = cap <$> semaphore (NewManager opts) ∧
     strategy (mgr s) = strategy (NewManager opts) ∧
     logger (mgr s) = logger (NewManager opts)).
Proof.
  destruct (NewManager_options opts) as (H1 & H2 & H3).
  destruct (NewManager_fresh opts) as (_ & Hp & _ & Hcl & _).
  split_and!; try done.
  - intros before after limit strat Hle. unfold NewManager.
    rewrite !fold_left_app. cbn [fold_left].
    by rewrite WithLimit_nonpositive.
  - intros before after. unfold NewManager.
    rewrite !fold_left_app. done.
  - intros ls s Hrun. pose proof (run_config _ _ _ Hrun) as Hcfg.
    unfold config in Hcfg. simpl in Hcfg. by simplify_eq.
Qed.

(* ===================================================================== *)
(** ** The registry and the entries                                        *)
(* ===================================================================== *)

Lemma e_id_stop_timer c : e_id (stop_timer c) = e_id c.
Proof. unfold stop_timer. by destruct (timer c). Qed.

Lemma e_id_mark_cancelled c : e_id (mark_cancelled c) = e_id c.
Proof. unfold mark_cancelled. by destruct (worker c). Qed.

Lemma live_mark_cancelled c : live (mark_cancelled c) = false.
Proof. unfold live. by rewrite ctx_done_mark_cancelled. Qed.

Lemma ended_mark_cancelled c :
  ended (worker (mark_cancelled c)) = ended (worker c).
Proof. unfold mark_cancelled. by destruct (worker c) eqn:E; simpl; rewrite ?E. Qed.

Lemma timer_stop_timer c : timer (stop_timer c) ≠ TimerArmed.
Proof. unfold stop_timer. by destruct (timer c) eqn:E; simpl; rewrite ?E. Qed.

Lemma tidy_entry_cancelled p0 p e c :
  tidy_entry p0 e c -> p !! e_id c ≠ Some e ->
  tidy_entry p e (mark_cancelled (stop_timer c)).
Proof.
  intros (H1 & H2 & H3) Hn. unfold tidy_entry.
  rewrite e_id_mark_cancelled, e_id_stop_timer, live_mark_cancelled,
    ended_mark_cancelled, stop_timer_worker, ctx_done_mark_cancelled,
    timer_mark_cancelled.
  split_and!; [split; [done|done]|done|]. intros _. apply timer_stop_timer.
Qed.

Lemma tidy_entry_own_cancel p e c :
  tidy_entry p e c -> entry_ok c -> live c = false -> worker c ≠ GNone ∨ handler c = HAbort ->
  tidy_entry p e (mark_cancelled c).
Proof.
  intros (H1 & H2 & H3) (K1 & K2 & _) Hl Hw. unfold tidy_entry.
  rewrite e_id_mark_cancelled, live_mark_cancelled,
    ended_mark_cancelled, ctx_done_mark_cancelled, timer_mark_cancelled.
  split_and!; [rewrite H1, Hl; done|done|]. intros _ Ht.
  assert (handler c = HNone) as Hh by (apply K1; congruence).
  rewrite Hh in *. destruct Hw as [Hw|]; [|done]. by apply Hw, K2.
Qed.

(** A step that leaves the token, the cleanup and the abort of an entry
    as they are leaves it tidy. *)
Lemma tidy_entry_same p e c c' :
  tidy_entry p e c ->
  e_id c' = e_id c -> live c' = live c -> ctx_done c' = ctx_done c ->
  (ended (worker c') = true -> ended (worker c) = true) ->
  (timer c' = TimerArmed -> timer c = TimerArmed) ->
  tidy_entry p e c'.
Proof.
  intros (H1 & H2 & H3) Hid Hl Hd He Ht. unfold tidy_entry.
  rewrite Hid, Hl, Hd. split_and!; auto.
  intros Hx Hy. by apply (H3 Hx), Ht.
Qed.

(** What a step does to the registry: it adds the entry it allocates, or
    removes mappings, or leaves it alone. *)
Lemma step_pending l s s' id e :
  step l s = Some s' -> pending (mgr s') !! id = Some e ->
  pending (mgr s) !! id = Some e ∨
  (e = length (heap s) ∧ isClosed (mgr s) = false ∧
   ∃ d task, heap s' !! e = Some (new_entry id d task (now s))).
Proof.
  intros H Hp.
  Step_cases H; simpl in *; auto;
    try (apply lookup_delete_Some in Hp as [_ Hp]; auto).
  - destruct (decide (id0 = id)) as [->|Hne].
    + rewrite lookup_insert_eq in Hp. simplify_eq. right. split_and!; auto.
      exists d, task. rewrite lookup_app_r by (by rewrite !length_alter).
      by rewrite !length_alter, Nat.sub_diag.
    + rewrite lookup_insert_ne in Hp by done. auto.
  - destruct (decide (id0 = id)) as [->|Hne].
    + rewrite lookup_insert_eq in Hp. simplify_eq. right. split_and!; auto.
      exists d, task. rewrite lookup_app_r by done.
      by rewrite Nat.sub_diag.
    + rewrite lookup_insert_ne in Hp by done. auto.
Qed.

Lemma step_tidy_names l s s' :
  (∀ id e, pending (mgr s) !! id = Some e ->
           ∃ c, heap s !! e = Some c ∧ e_id c = id) ->
  step l s = Some s' ->
  ∀ id e, pending (mgr s') !! id = Some e ->
          ∃ c, heap s' !! e = Some c ∧ e_id c = id.
Proof.
  intros Hn H id e Hp.
  destruct (step_pending _ _ _ _ _ H Hp) as [Hold|(-> & _ & d & task & Hnew)].
  - destruct (Hn _ _ Hold) as (c & Hc & Hid).
    destruct (step_heap_grows _ _ _ _ _ H Hc) as [c' Hc'].
    exists c'. split; [done|].
    destruct (step_frame _ _ _ _ _ _ H Hc Hc') as (-> & _). done.
  - eauto.
Qed.

Lemma step_tidy_over l s s' :
  consistent s ->
  (once_over (shutdownOnce (mgr s)) = true -> pending (mgr s) = ∅) ->
  step l s = Some s' ->
  once_over (shutdownOnce (mgr s')) = true -> pending (mgr s') = ∅.
Proof.
  intros Hc Hov H Ho. pose proof (inv_closed _ Hc) as Hcl.
  apply map_eq. intros id. rewrite lookup_empty.
  destruct (pending (mgr s') !! id) as [e|] eqn:Hp; [|done].
  destruct (step_pending _ _ _ _ _ H Hp) as [Hold|(-> & Hopen & _)].
  - Step_cases H; simpl in *; try (rewrite Hov in Hold by done; done);
      try congruence;
      repeat match goal with
      | Hx : shutdownOnce _ = _ |- _ => rewrite Hx in *
      | Hx : pending _ = ∅ |- _ => rewrite Hx in *
      end; simpl in *; try done;
      try (rewrite Hov in Hold by done; done).
  - Step_cases H; simpl in *;
      destruct (shutdownOnce (mgr s)); simpl in *; congruence.
Qed.

(** An entry of the heap after a step was there before, or is the one
    [Schedule] has just allocated and registered. *)
Lemma step_heap_cases l s s' e c' :
  step l s = Some s' -> heap s' !! e = Some c' ->
  is_Some (heap s !! e) ∨
  heap s !! e = None ∧
  ∃ id d task, c' = new_entry id d task (now s) ∧
               pending (mgr s') !! id = Some e.
Proof.
  intros H Hc'.
  destruct (decide (e < length (heap s))) as [Hlt|Hge];
    [left; by apply lookup_lt_is_Some_2|right].
  split; [apply lookup_ge_None; lia|].
  Step_cases H; simpl in *;
    rewrite ?length_alter in *;
    try (apply lookup_lt_Some in Hc'; rewrite ?length_alter in Hc'; lia).
  - rewrite lookup_app_r in Hc' by (rewrite !length_alter; lia).
    rewrite !length_alter in Hc'.
    apply list_lookup_singleton_Some in Hc' as [Hz <-].
    assert (e = length (heap s)) as -> by lia.
    exists id, d, task. split; [done|]. apply lookup_insert_eq.
  - rewrite lookup_app_r in Hc' by lia.
    apply list_lookup_singleton_Some in Hc' as [Hz <-].
    assert (e = length (heap s)) as -> by lia.
    exists id, d, task. split; [done|]. apply lookup_insert_eq.
Qed.

Lemma tidy_entry_frame p p' e c :
  tidy_entry p e c ->
  (p' !! e_id c = Some e <-> p !! e_id c = Some e) ->
  tidy_entry p' e c.
Proof. intros (H1 & H2 & H3) Hp. unfold tidy_entry. rewrite Hp. auto. Qed.

Lemma lookup_delete_frame (p : gmap string nat) id k e :
  p !! id ≠ Some e -> delete id p !! k = Some e <-> p !! k = Some e.
Proof.
  intros Hn. rewrite lookup_delete_Some. split; [by intros []|].
  intros Hk. split; [|done]. intros ->. done.
Qed.

Lemma lookup_insert_frame (p : gmap string nat) id new k e :
  p !! id ≠ Some e -> e ≠ new ->
  <[id:=new]> p !! k = Some e <-> p !! k = Some e.
Proof.
  intros Hn Hne. destruct (decide (id = k)) as [->|Hk].
  - rewrite lookup_insert_eq. split; [congruence|done].
  - by rewrite lookup_insert_ne.
Qed.

(** A callback that holds the read lock of a closed manager sees an
    empty registry: the closure of [Shutdown] has left its critical
    section. *)
Lemma closed_reader_empty s e c :
  consistent s ->
  (once_over (shutdownOnce (mgr s)) = true -> pending (mgr s) = ∅) ->
  isClosed (mgr s) = true -> heap s !! e = Some c -> in_read_cs c = true ->
  pending (mgr s) = ∅.
Proof.
  intros Hc Hov Hcl Hl Hr. apply Hov.
  pose proof (census_pos in_read_cs _ _ _ Hl Hr) as Hpos.
  rewrite <- (inv_readers _ Hc) in Hpos.
  pose proof (inv_excl _ Hc) as Hx. pose proof (inv_writer _ Hc) as Hw.
  pose proof (inv_closed _ Hc) as Hcl'. rewrite Hcl in Hcl'.
  destruct (writer (mu (mgr s))); [specialize (Hx eq_refl); lia|].
  destruct (shutdownOnce (mgr s)); simpl in *; try done; lia.
Qed.

Lemma step_tidy l s s' : consistent s -> tidy s -> step l s = Some s' -> tidy s'.
Proof.
  intros Hc [Hn Hen Hov] H. pose proof (inv_entries _ Hc) as He.
  split; [eauto using step_tidy_names| |eauto using step_tidy_over].
  intros e0 c0' Hc0'.
  destruct (step_heap_cases _ _ _ _ _ H Hc0')
    as [[c0 Hc0]|(_ & id & d & task & -> & Hp)].
  2: { split_and!; simpl; [by rewrite Hp|done|done]. }
  pose proof (Hen _ _ Hc0) as Ht0.
  pose proof (lookup_lt_Some _ _ _ Hc0) as Hlt0.
  Step_cases H; entry_facts He; norm_lookup Hc0'.
  all: repeat match goal with
       | Hl : heap _ !! ?e = Some ?c |- _ =>
           lazymatch goal with
           | _ : tidy_entry _ e c |- _ => fail
           | _ => pose proof (Hen _ _ Hl)
           end
       end.
  all: simpl.
  all: try assumption.
  all: try (eapply tidy_entry_same; [eassumption|..]; unfold live; simpl;
            repeat match goal with
            | Hw : worker ?c = _ |- _ => rewrite Hw
            | Hw : handler ?c = _ |- _ => rewrite Hw
            end; simpl; solve [done | congruence]).
  all: try match goal with
       | Hp : pending _ !! ?id = Some ?e |- tidy_entry _ ?e (mark_cancelled (stop_timer _)) =>
           simpl in Hp; destruct (Hn _ _ Hp) as (cx & Hcx & Hidx); simplify_eq;
           eapply tidy_entry_cancelled; [eassumption|];
           rewrite ?lookup_insert_eq, ?lookup_delete_eq; intros ?; simplify_eq; lia
       end.
  all: try match goal with
       | Hp : pending _ !! ?id = Some ?e |- tidy_entry (<[_:=_]> _) _ _ =>
           simpl in Hp; eapply tidy_entry_frame; [eassumption|];
           apply lookup_insert_frame; [congruence|lia]
       | Hp : pending _ !! ?id = None |- tidy_entry (<[_:=_]> _) _ _ =>
           simpl in Hp; eapply tidy_entry_frame; [eassumption|];
           apply lookup_insert_frame; [congruence|lia]
       | Hp : pending _ !! ?id = Some ?e |- tidy_entry (delete _ _) _ _ =>
           simpl in Hp; eapply tidy_entry_frame; [eassumption|];
           apply lookup_delete_frame; congruence
       end.
  - (* the callback finds the manager closed *)
    assert (pending (mgr s) = ∅) as Hp.
    { eapply closed_reader_empty; eauto. unfold in_read_cs. by rewrite H0. }
    destruct Ht0 as (T1 & T2 & T3). unfold tidy_entry, live. simpl.
    rewrite Hp, lookup_empty. split_and!; auto.
    rewrite andb_false_r. done.
  - (* ... and cancels its token *)
    eapply tidy_entry_same;
      [eapply (tidy_entry_own_cancel _ _ c); eauto|..]; unfold live; simpl;
      rewrite ?ctx_done_mark_cancelled, ?e_id_mark_cancelled; try done.
    destruct Ht0 as (T1 & _). unfold live. rewrite H0.
    by rewrite andb_false_r.
  - (* deleteIfCurrent removes the mapping *)
    destruct Ht0 as (T1 & T2 & T3). unfold tidy_entry, live. simpl.
    rewrite lookup_delete_eq, andb_false_r. split_and!; auto; try done.
  - (* deleteIfCurrent finds another entry, or none *)
    destruct Ht0 as (T1 & T2 & T3). unfold tidy_entry, live. simpl.
    rewrite andb_false_r. split_and!; auto; try done.
  - (* the deferred cancel *)
    assert (tidy_entry (pending (mgr s)) e0 (mark_cancelled c)) as (T1 & T2 & T3).
    { eapply tidy_entry_own_cancel; eauto; [|left; congruence].
      unfold live. rewrite H0. simpl. by rewrite andb_false_r. }
    pose proof (ctx_done_mark_cancelled c) as Hd.
    rewrite live_mark_cancelled in T1.
    split_and!.
    + change (e_id (set_worker GWgDone (mark_cancelled c)))
        with (e_id (mark_cancelled c)).
      rewrite T1. unfold live.
      change (ctx_done (set_worker GWgDone (mark_cancelled c)))
        with (ctx_done (mark_cancelled c)).
      by rewrite Hd.
    + intros _. exact Hd.
    + exact T3.
Qed.

Lemma boot_tidy opts : tidy (boot (NewManager opts)).
Proof.
  destruct (NewManager_fresh opts) as (_ & Hp & _).
  split; simpl; rewrite ?Hp; done.
Qed.

Lemma reachable_tidy s : reachable s -> tidy s.
Proof.
  intros (opts & ls & H).
  assert (consistent s ∧ tidy s) as [_ ?]; [|done].
  eapply (run_invariant (fun s => consistent s ∧ tidy s)); [| |exact H].
  - intros l s1 s2 [Hc Hs] Hstep.
    split; eauto using step_consistent, step_tidy.
  - split; [apply boot_consistent|apply boot_tidy].
Qed.

Lemma live_true c :
  live c = true ->
  ctx_done c = false ∧ cleaned (worker c) = false ∧ handler c ≠ HAbort.
Proof.
  unfold live. intros H. apply andb_prop in H as [H H3].
  apply andb_prop in H as [H1 H2].
  apply negb_true_iff in H1, H2, H3. apply bool_decide_eq_false in H3. done.
Qed.

Lemma live_intro c :
  ctx_done c = false -> cleaned (worker c) = false -> handler c ≠ HAbort ->
  live c = true.
Proof.
  intros H1 H2 H3. unfold live. rewrite H1, H2. simpl.
  by rewrite bool_decide_eq_false_2.
Qed.

(** X3. The registry holds live entries only. In every state the program
    can reach, an ID of the registry maps to an allocated entry that was
    scheduled under this very ID, whose token is not cancelled, whose
    goroutine (if started) has not yet done its [deleteIfCurrent], and
    whose callback did not find the manager closed; no entry is
    registered under two IDs; and once the closure of [Shutdown] has left
    its critical section, in particular whenever a call of [Shutdown]
    returns, with nil or with an error, the registry is empty. *)
Theorem registry_holds_live_entries s :
  reachable s ->
  (∀ id e, pending (mgr s) !! id = Some e ->
     ∃ c, heap s !! e = Some c ∧ e_id c = id ∧ ctx_done c = false ∧
          cleaned (worker c) = false ∧ handler c ≠ HAbort) ∧
  (∀ id1 id2 e, pending (mgr s) !! id1 = Some e ->
                pending (mgr s) !! id2 = Some e -> id1 = id2) ∧
  (once_over (shutdownOnce (mgr s)) = true -> pending (mgr s) = ∅) ∧
  (∀ ctx pick r, Shutdown ctx pick s = Some r -> pending (mgr s) = ∅).
Proof.
  intros Hreach. destruct (reachable_tidy _ Hreach) as [Hn Hen Hov].
  split_and!.
  - intros id e Hp. destruct (Hn _ _ Hp) as (c & Hc & Hid).
    exists c. split_and!; try done;
      destruct (Hen _ _ Hc) as (T1 & _); rewrite Hid in T1;
      apply T1, live_true in Hp; tauto.
  - intros id1 id2 e H1 H2.
    destruct (Hn _ _ H1) as (c1 & Hc1 & <-).
    destruct (Hn _ _ H2) as (c2 & Hc2 & <-). congruence.
  - done.
  - intros ctx pick r Hr. apply Hov. unfold Shutdown in Hr.
    by destruct (shutdownOnce (mgr s)).
Qed.

Lemma registry_holds_live_entries_witness :
  pending (mgr parked_state) !! "b" = Some 1 ∧
  ∃ c, heap parked_state !! 1 = Some c ∧ e_id c = "b" ∧ ctx_done c = false.
Proof.
  assert (pending (mgr parked_state) !! "b" = Some 1) as Hp
    by (vm_compute; reflexivity).
  split; [exact Hp|].
  destruct (registry_holds_live_entries parked_state parked_state_reachable)
    as (Hlive & _).
  destruct (Hlive "b" 1 Hp) as (c & Hc & Hid & Hd & _).
  exists c. split_and!; [exact Hc|exact Hid|exact Hd].
Defined.

(** X4. Nothing is left behind. In every state the program can reach,
    for every entry on the heap: an armed timer belongs to the entry that
    is registered under its ID, with a token that is not cancelled, so
    [Cancel], a replacing [Schedule] and [Shutdown] leave no timer armed;
    a goroutine parked in [acquireSlot] belongs to the entry registered
    under its ID; an entry whose token is not cancelled is registered
    unless its goroutine is past its [deleteIfCurrent] or its callback
    found the manager closed; and when the goroutine of an entry has come
    to [wg.Done] its token has been cancelled. *)
Theorem nothing_left_behind s e c :
  reachable s -> heap s !! e = Some c ->
  (timer c = TimerArmed ->
     pending (mgr s) !! e_id c = Some e ∧ ctx_done c = false) ∧
  (worker c = GParked -> pending (mgr s) !! e_id c = Some e) ∧
  (ctx_done c = false -> cleaned (worker c) = false -> handler c ≠ HAbort ->
     pending (mgr s) !! e_id c = Some e) ∧
  (ended (worker c) = true -> ctx_done c = true) ∧
  (ctx_done c = true -> timer c ≠ TimerArmed).
Proof.
  intros Hreach Hc. destruct (reachable_tidy _ Hreach) as [_ Hen _].
  destruct (Hen _ _ Hc) as (T1 & T2 & T3).
  pose proof (Forall_lookup_1 _ _ _ _
                (inv_entries _ (reachable_consistent _ Hreach)) Hc)
    as (K1 & K2 & K3 & K4).
  split_and!; try done.
  - intros Ht.
    assert (handler c = HNone) as Hh by (apply K1; congruence).
    assert (worker c = GNone) as Hw by (apply K2; by rewrite Hh).
    assert (ctx_done c = false) as Hd.
    { destruct (ctx_done c) eqn:E; [|done]. by destruct (T3 eq_refl). }
    split; [|done]. apply T1, live_intro; rewrite ?Hw, ?Hh; done.
  - intros Hw. apply T1, live_intro; rewrite ?Hw; auto.
    intros Hh. rewrite Hh in K2. specialize (K2 eq_refl). congruence.
  - intros H1 H2 H3. by apply T1, live_intro.
Qed.

Lemma nothing_left_behind_witness :
  pending (mgr rescheduled_state) !! "x" = Some 1 ∧
  ∀ c, heap rescheduled_state !! 0 = Some c -> timer c ≠ TimerArmed.
Proof.
  assert (pending (mgr rescheduled_state) !! "x" = Some 1) as Hp
    by (vm_compute; reflexivity).
  split; [exact Hp|]. intros c Hc Ht.
  assert (reachable rescheduled_state) as Hreach.
  { apply (reachable_step (Call (CallSchedule "x" 10 2)) scheduled_state);
      [exact scheduled_state_reachable|vm_compute; reflexivity]. }
  destruct (nothing_left_behind rescheduled_state 0 c Hreach Hc) as (Harmed & _).
  destruct (Harmed Ht) as [Hreg _].
  assert (e_id c = "x") as Hid.
  { vm_compute in Hc. injection Hc as <-. reflexivity. }
  rewrite Hid, Hp in Hreg. discriminate Hreg.
Defined.

(* ===================================================================== *)
(** ** Schedule, Cancel and the clock                                      *)
(* ===================================================================== *)

Lemma fire_at_stop_timer c : fire_at (stop_timer c) = fire_at c.
Proof. unfold stop_timer. by destruct (timer c). Qed.

Lemma fire_at_mark_cancelled c : fire_at (mark_cancelled c) = fire_at c.
Proof. unfold mark_cancelled. by destruct (worker c). Qed.

Lemma stop_timer_fired c : timer (stop_timer c) = TimerFired -> timer c = TimerFired.
Proof. unfold stop_timer. by destruct (timer c) eqn:E; simpl; rewrite ?E. Qed.

(** No step changes the time an entry is due, only the runtime's [Fire]
    makes a timer fired, and the clock never goes back. *)
Lemma step_timer_frame l s s' e c c' :
  step l s = Some s' -> heap s !! e = Some c -> heap s' !! e = Some c' ->
  fire_at c' = fire_at c ∧
  (timer c' = TimerFired -> timer c = TimerFired ∨ fire_at c <= now s) ∧
  now s <= now s'.
Proof.
  intros H Hc Hc'.
  Step_cases H; norm_lookup Hc'; simpl;
    repeat match goal with
    | |- context [match worker ?x with _ => _ end] => destruct (worker x)
    end; simpl; rewrite ?fire_at_stop_timer;
    split_and!; try done; try lia; auto using stop_timer_fired.
Qed.

Lemma step_timely l s s' :
  consistent s -> runs_ok s -> timely s -> step l s = Some s' -> timely s'.
Proof.
  intros Hs Hr Ht H e c' Hc'.
  destruct (step_heap_cases _ _ _ _ _ H Hc')
    as [[c Hc]|(_ & id & d & task & -> & Hp)].
  - destruct (Ht _ _ Hc) as [T1 T2].
    destruct (step_timer_frame _ _ _ _ _ _ H Hc Hc') as (Hf & Hfired & Hnow).
    destruct (step_frame _ _ _ _ _ _ H Hc Hc') as (_ & _ & Hstart).
    rewrite Hf. split.
    + intros Hx. destruct (Hfired Hx) as [Hy|Hy]; [specialize (T1 Hy)|]; lia.
    + intros Hruns.
      destruct (step_trace_grows _ _ _ H) as [tr Htr].
      rewrite (runs_since e s s' tr Htr) in Hruns.
      pose proof (since_app _ _ _ Htr) as Hsince.
      destruct (step_invokes l s s' e H) as [Hn|(c0 & Hc0 & Hw0 & Hn & Hnext)];
        rewrite Hsince in Hn; rewrite Hn in Hruns; simpl in Hruns.
      * assert (1 <= runs e s) as Hold by lia.
        destruct (T2 Hold) as [T3 T4].
        assert (worker c ≠ GStart) as Hne.
        { intros Hw. destruct (Hr e) as [_ Hz]. rewrite Hc in Hz. simpl in Hz.
          rewrite Hw in Hz. specialize (Hz eq_refl). lia. }
        rewrite (Hstart Hne). lia.
      * simplify_eq.
        pose proof (Forall_lookup_1 _ _ _ _ (inv_entries _ Hs) Hc)
          as (K1 & K2 & _).
        assert (timer c = TimerFired) as Hfd.
        { destruct (decide (timer c = TimerFired)) as [|Hnf]; [done|].
          specialize (K1 Hnf). rewrite K1 in K2. specialize (K2 eq_refl).
          congruence. }
        specialize (T1 Hfd).
        assert (start c' = now s ∧ now s' = now s) as [-> ->]; [|lia].
        pose proof (Hnext _ Hc') as Hw'.
        clear - H Hc Hc' Hw0 Hw'.
        Step_cases H; norm_lookup Hc'; simpl in *; try congruence; try done;
          crush_pcs.
  - split; [done|]. intros Hruns.
    destruct (step_runs_ok _ _ _ Hs Hr H e) as [_ Hz].
    rewrite Hc' in Hz. simpl in Hz. specialize (Hz eq_refl). lia.
Qed.

Lemma reachable_timely s : reachable s -> timely s.
Proof.
  intros (opts & ls & H).
  assert (consistent s ∧ runs_ok s ∧ timely s) as (_ & _ & ?); [|done].
  eapply (run_invariant (fun s => consistent s ∧ runs_ok s ∧ timely s));
    [| |exact H].
  - intros l s1 s2 (Hc & Hr & Ht) Hstep.
    split_and!; eauto using step_consistent, step_runs_ok, step_timely.
  - split_and!; [apply boot_consistent|apply boot_runs_ok|].
    intros e c Hc. done.
Qed.

Lemma run_clock ls s s' : run ls s = Some s' -> now s <= now s'.
Proof.
  revert s. induction ls as [|l ls IH]; intros s H; simpl in H; [by simplify_eq|].
  destruct (step l s) as [s1|] eqn:E; [|done].
  specialize (IH _ H). etrans; [|exact IH].
  clear - E. Step_cases E; simpl; lia.
Qed.

(** An entry keeps its ID, its task and its due time for ever. *)
Lemma run_frame ls s s' e c :
  run ls s = Some s' -> heap s !! e = Some c ->
  ∃ c', heap s' !! e = Some c' ∧ e_id c' = e_id c ∧ e_task c' = e_task c ∧
        fire_at c' = fire_at c.
Proof.
  revert s c. induction ls as [|l ls IH]; intros s c H Hc; simpl in H.
  - simplify_eq. eauto.
  - destruct (step l s) as [s1|] eqn:E; [|done].
    destruct (step_heap_grows _ _ _ _ _ E Hc) as [c1 Hc1].
    destruct (step_frame _ _ _ _ _ _ E Hc Hc1) as (Hid & Htask & _).
    destruct (step_timer_frame _ _ _ _ _ _ E Hc Hc1) as (Hf & _).
    destruct (IH _ _ H Hc1) as (c' & Hc' & Hid' & Htask' & Hf').
    exists c'. split_and!; congruence.
Qed.

Lemma step_invokes_own l s s' :
  runs_ok s -> invokes_own s -> step l s = Some s' -> invokes_own s'.
Proof.
  intros Hr Hi H e c' Hc'. unfold invoked.
  destruct (step_trace_grows _ _ _ H) as [tr Htr].
  pose proof (since_app _ _ _ Htr) as Hsince.
  rewrite Htr, by_actor_app, filter_app. apply Forall_app.
  destruct (step_heap_cases _ _ _ _ _ H Hc')
    as [[c Hc]|(Hnone & id & d & task & -> & Hp)].
  - destruct (step_frame _ _ _ _ _ _ H Hc Hc') as (_ & Htask & _).
    rewrite Htask. split; [by apply Hi|].
    destruct (step_invokes l s s' e H) as [Hn|(c0 & Hc0 & Hw0 & Hn & Hnext)];
      rewrite Hsince in Hn; rewrite Hn; [done|].
    simplify_eq. by apply Forall_singleton.
  - pose proof (step_heap_none _ _ _ _ H Hnone) as Hn. rewrite Hsince in Hn.
    rewrite Hn. split; [|done].
    destruct (Hr e) as [_ Hz]. rewrite Hnone in Hz. specialize (Hz eq_refl).
    unfold runs in Hz. apply nil_length_inv in Hz. by rewrite Hz.
Qed.

Lemma reachable_invokes_own s : reachable s -> invokes_own s.
Proof.
  intros (opts & ls & H).
  assert (consistent s ∧ runs_ok s ∧ invokes_own s) as (_ & _ & ?); [|done].
  eapply (run_invariant (fun s => consistent s ∧ runs_ok s ∧ invokes_own s));
    [| |exact H].
  - intros l s1 s2 (Hc & Hr & Ht) Hstep.
    split_and!; eauto using step_consistent, step_runs_ok, step_invokes_own.
  - split_and!; [apply boot_consistent|apply boot_runs_ok|].
    intros e c Hc. done.
Qed.

(** X5. [Schedule] on an open manager. The call allocates one entry,
    with an armed timer due [d] from now (at once for [d <= 0]) and a
    token that is not cancelled, and registers it under [id]; the other
    IDs of the registry and the entries that were not registered under
    [id] are left as they are; it makes exactly one telemetry call,
    [OnScheduled id d] when [id] was not registered and [OnRescheduled id]
    when it was. In every continuation of the program the body invoked
    for the new entry is the task that was given, it is invoked at most
    once, and not before [d] has passed on the clock since the call. *)
Theorem schedule_installs_task s id d task s1 :
  reachable s -> isClosed (mgr s) = false ->
  step (Call (CallSchedule id d task)) s = Some s1 ->
  let new := length (heap s) in
  telemetry (since s s1) =
    [match pending (mgr s) !! id with
     | Some _ => OnRescheduled id
     | None => OnScheduled id d
     end] ∧
  heap s1 !! new = Some (new_entry id d task (now s)) ∧
  length (heap s1) = S new ∧
  pending (mgr s1) = <[id := new]> (pending (mgr s)) ∧
  (∀ e c, heap s !! e = Some c -> pending (mgr s) !! id ≠ Some e ->
          heap s1 !! e = Some c) ∧
  (∀ ls s', run ls s1 = Some s' ->
     runs new s' <= 1 ∧
     Forall (fun a => a = AInvoke task) (invoked new s') ∧
     (1 <= runs new s' -> now s + Z.to_nat d <= now s')).
Proof.
  intros Hreach Hopen Hstep new.
  pose proof (reachable_step _ _ _ Hreach Hstep) as Hreach1.
  assert (heap s1 !! new = Some (new_entry id d task (now s)) ∧
          length (heap s1) = S new ∧
          pending (mgr s1) = <[id := new]> (pending (mgr s)) ∧
          telemetry (since s s1) =
            [match pending (mgr s) !! id with
             | Some _ => OnRescheduled id
             | None => OnScheduled id d
             end] ∧
          (∀ e c, heap s !! e = Some c -> pending (mgr s) !! id ≠ Some e ->
                  heap s1 !! e = Some c)) as (Hnew & Hlen & Hp & Htel & Hrest).
  { clear Hreach1. subst new. simpl in Hstep. unfold mu_Lock in Hstep.
    destruct (writer (mu (mgr s)) || negb (readers (mu (mgr s)) =? 0)); [done|].
    simpl in Hstep. unfold Schedule in Hstep. simpl in Hstep.
    rewrite Hopen in Hstep.
    destruct (pending (mgr s) !! id) as [old|] eqn:Hold; simplify_eq;
      since_tac; simpl; rewrite ?length_app, ?length_alter; simpl.
    - split_and!; try done; [|lia|].
      + rewrite lookup_app_r by (by rewrite !length_alter).
        by rewrite !length_alter, Nat.sub_diag.
      + intros e c Hc Hne.
        rewrite lookup_app_l by (rewrite !length_alter; by eapply lookup_lt_Some).
        rewrite !list_lookup_alter_ne by congruence. done.
    - split_and!; try done; [|lia|].
      + rewrite lookup_app_r by done. by rewrite Nat.sub_diag.
      + intros e c Hc Hne.
        rewrite lookup_app_l by (by eapply lookup_lt_Some). done. }
  split_and!; try done.
  intros ls s' Hrun.
  pose proof (reachable_run _ _ _ Hreach1 Hrun) as Hreach'.
  destruct (run_frame _ _ _ _ _ Hrun Hnew) as (c' & Hc' & _ & Htask & Hf).
  simpl in Htask, Hf. split_and!.
  - apply (reachable_runs_ok _ Hreach' new).
  - rewrite <- Htask. by apply (reachable_invokes_own _ Hreach').
  - intros Hruns.
    destruct (reachable_timely _ Hreach' _ _ Hc') as [_ Hlate].
    specialize (Hlate Hruns). lia.
Qed.

Lemma schedule_installs_task_witness :
  step (Call (CallSchedule "x" 10 2)) scheduled_state = Some rescheduled_state ∧
  heap rescheduled_state !! 1 = Some (new_entry "x" 10 2 0) ∧
  telemetry (since scheduled_state rescheduled_state) = [OnRescheduled "x"].
Proof.
  assert (step (Call (CallSchedule "x" 10 2)) scheduled_state =
          Some rescheduled_state) as Hstep by (vm_compute; reflexivity).
  assert (isClosed (mgr scheduled_state) = false) as Hopen
    by (vm_compute; reflexivity).
  destruct (schedule_installs_task scheduled_state "x" 10 2 rescheduled_state
              scheduled_state_reachable Hopen Hstep)
    as (Htel & Hnew & _).
  split_and!; [exact Hstep|exact Hnew|exact Htel].
Defined.

(** Once an ID is out of the registry of a closed or open manager, only a
    later [Schedule] brings it back, with an entry it allocates. *)
Lemma run_pending ls s s' id e :
  run ls s = Some s' -> pending (mgr s') !! id = Some e ->
  pending (mgr s) !! id = Some e ∨ length (heap s) <= e.
Proof.
  revert s. induction ls as [|l ls IH]; intros s H Hp; simpl in H.
  - simplify_eq. auto.
  - destruct (step l s) as [s1|] eqn:E; [|done].
    destruct (IH _ H Hp) as [H1|H1].
    + destruct (step_pending _ _ _ _ _ E H1) as [|(-> & _)]; auto.
    + right. etrans; [|exact H1]. clear - E.
      Step_cases E; simpl; rewrite ?length_app, ?length_alter; lia.
Qed.

(** X6. [Cancel] of a registered ID. The call does, in this order and
    nothing else: stop the timer of the entry, cancel its token, delete
    the mapping, emit [OnCancelled id]. Afterwards the timer is not armed
    and the token is cancelled; a goroutine that waited for a slot leaves
    its [select], any other goroutine of the entry goes on where it was
    (a running task is told through its context, not stopped); the other
    entries and the other IDs are left alone. If the timer had not fired,
    the task is never invoked in any continuation. And the mapping of
    [id] comes back only through a later [Schedule], with a new entry. *)
Theorem cancel_registered s id e s1 :
  reachable s -> pending (mgr s) !! id = Some e ->
  step (Call (CallCancel id)) s = Some s1 ->
  since s s1 =
    [(Caller, ATimerStop e); (Caller, ACancel e); (Caller, ADelete id e);
     (Caller, AEmit (OnCancelled id))] ∧
  telemetry (since s s1) = [OnCancelled id] ∧
  pending (mgr s1) = delete id (pending (mgr s)) ∧
  (∃ c c1, heap s !! e = Some c ∧ heap s1 !! e = Some c1 ∧ e_id c = id ∧
           timer c1 ≠ TimerArmed ∧ ctx_done c1 = true ∧ handler c1 = handler c ∧
           worker c1 =
             match worker c with GParked => GDelete AfterWait | g => g end) ∧
  (∀ e', e' ≠ e -> heap s1 !! e' = heap s !! e') ∧
  (∀ c, heap s !! e = Some c -> timer c = TimerArmed ->
        ∀ ls s', run ls s1 = Some s' -> runs e s' = 0) ∧
  (∀ ls s' e', run ls s1 = Some s' -> pending (mgr s') !! id = Some e' ->
               length (heap s) <= e').
Proof.
  intros Hreach Hp Hstep.
  pose proof (reachable_step _ _ _ Hreach Hstep) as Hreach1.
  destruct (reachable_tidy _ Hreach) as [Hn _ _].
  destruct (Hn _ _ Hp) as (c & Hc & Hid).
  pose proof (Forall_lookup_1 _ _ _ _
                (inv_entries _ (reachable_consistent _ Hreach)) Hc)
    as (K1 & K2 & _).
  assert (s1 = s |> lock_taken |> timer_Stop Caller e |> cancel Caller e
                 |> remove Caller id e |> emit Caller (OnCancelled id)
                 |> set_caller_in true) as Hs1.
  { clear Hreach1. simpl in Hstep. unfold mu_Lock in Hstep.
    destruct (writer (mu (mgr s)) || negb (readers (mu (mgr s)) =? 0)); [done|].
    simpl in Hstep. unfold Cancel in Hstep. simpl in Hstep.
    rewrite Hp in Hstep. by simplify_eq. }
  assert (heap s1 = alter mark_cancelled e (alter stop_timer e (heap s))) as Hheap
    by (by rewrite Hs1).
  assert (heap s1 !! e = Some (mark_cancelled (stop_timer c))) as Hc1.
  { by rewrite Hheap, !list_lookup_alter_eq, Hc. }
  split_and!.
  - apply since_app. rewrite Hs1. simpl. by rewrite <- !app_assoc.
  - erewrite since_app by (rewrite Hs1; simpl; by rewrite <- !app_assoc). done.
  - by rewrite Hs1.
  - exists c, (mark_cancelled (stop_timer c)). split_and!; try done;
      first [ rewrite timer_mark_cancelled; apply timer_stop_timer
            | apply ctx_done_mark_cancelled
            | by rewrite handler_mark_cancelled, stop_timer_handler
            | unfold mark_cancelled; rewrite stop_timer_worker;
              destruct (worker c) eqn:E; simpl;
              by rewrite ?stop_timer_worker, ?E ].
  - intros e' Hne. by rewrite Hheap, !list_lookup_alter_ne.
  - intros c2 Hc2 Harmed ls s' Hrun.
    rewrite Hc in Hc2. injection Hc2 as <-. rename c into c2.
    assert (handler c2 = HNone) as Hh by (apply K1; congruence).
    assert (worker c2 = GNone) as Hw by (apply K2; by rewrite Hh).
    assert (dormant (mark_cancelled (stop_timer c2))) as Hdorm.
    { split.
      - rewrite worker_mark_cancelled; rewrite stop_timer_worker; congruence.
      - rewrite handler_mark_cancelled, stop_timer_handler, Hh.
        rewrite timer_mark_cancelled. unfold stop_timer. by rewrite Harmed. }
    destruct (dormant_never_runs ls s1 s' e _
                (reachable_consistent _ Hreach1) (reachable_runs_ok _ Hreach1)
                Hc1 Hdorm) as (_ & Hnever).
    by destruct (Hnever Hrun) as (? & _ & _ & ?).
  - intros ls s' e' Hrun Hp'.
    destruct (run_pending _ _ _ _ _ Hrun Hp') as [Hold|Hge].
    + rewrite Hs1 in Hold. simpl in Hold. by rewrite lookup_delete_eq in Hold.
    + rewrite Hheap, !length_alter in Hge. done.
Qed.

Lemma cancel_registered_witness :
  pending (mgr parked_state) !! "b" = Some 1 ∧
  step (Call (CallCancel "b")) parked_state = Some unparked_state ∧
  telemetry (since parked_state unparked_state) = [OnCancelled "b"] ∧
  pending (mgr unparked_state) = delete "b" (pending (mgr parked_state)).
Proof.
  assert (pending (mgr parked_state) !! "b" = Some 1) as Hp
    by (vm_compute; reflexivity).
  assert (step (Call (CallCancel "b")) parked_state = Some unparked_state)
    as Hstep by (vm_compute; reflexivity).
  destruct (cancel_registered parked_state "b" 1 unparked_state
              parked_state_reachable Hp Hstep) as (_ & Htel & Hdel & _).
  split_and!; [exact Hp|exact Hstep|exact Htel|exact Hdel].
Defined.

(* ===================================================================== *)
(** ** Calls in a row                                                      *)
(* ===================================================================== *)

(** A caller that finds the lock free finds nobody inside. *)
Lemma lock_free_caller_out s :
  consistent s -> writer (mu (mgr s)) = false -> caller_in s = false.
Proof.
  intros Hc Hw. pose proof (inv_writer _ Hc) as H. rewrite Hw in H.
  destruct (caller_in s); simpl in H; [lia|done].
Qed.

Lemma run_cons l ls s : run (l :: ls) s = s' ← step l s; run ls s'.
Proof. simpl. by destruct (step l s). Qed.

Lemma step_Call c s :
  step (Call c) s =
  if writer (mu (mgr s)) || negb (readers (mu (mgr s)) =? 0) then None
  else Some (s |> lock_taken |> run_call c |> set_caller_in true).
Proof.
  cbn [step]. unfold mu_Lock.
  by destruct (writer (mu (mgr s)) || negb (readers (mu (mgr s)) =? 0)).
Qed.

(** A call that finds the lock free runs to its return. *)
Lemma run_call_return c s :
  run [Call c; Return] s =
  if writer (mu (mgr s)) || negb (readers (mu (mgr s)) =? 0) then None
  else Some (returned c s).
Proof.
  rewrite run_cons, step_Call.
  destruct (writer (mu (mgr s)) || negb (readers (mu (mgr s)) =? 0)); [done|].
  reflexivity.
Qed.

Lemma run_call_mu c s :
  mu (mgr (run_call c s)) = mu (mgr s).
Proof.
  destruct c as [id d task|id]; cbn [run_call].
  - unfold Schedule. destruct (isClosed (mgr s)); [done|].
    by destruct (pending (mgr s) !! id).
  - unfold Cancel. by destruct (pending (mgr s) !! id).
Qed.

Lemma returned_mu c s :
  mu (mgr (returned c s)) = {| writer := false; readers := 0 |}.
Proof.
  unfold returned.
  change (mu (mgr (set_caller_in false (mu_Unlock (set_caller_in true
            (run_call c (lock_taken s)))))))
    with {| writer := false;
            readers := readers (mu (mgr (run_call c (lock_taken s)))) |}.
  by rewrite run_call_mu.
Qed.

Lemma run_two_calls c1 c2 s :
  run [Call c1; Return; Call c2; Return] s =
  if writer (mu (mgr s)) || negb (readers (mu (mgr s)) =? 0) then None
  else Some (returned c2 (returned c1 s)).
Proof.
  change [Call c1; Return; Call c2; Return]
    with ([Call c1; Return] ++ [Call c2; Return]).
  rewrite run_app, run_call_return.
  destruct (writer (mu (mgr s)) || negb (readers (mu (mgr s)) =? 0)); [done|].
  cbn [mbind option_bind]. rewrite run_call_return, returned_mu. done.
Qed.

Lemma Cancel_unregistered id s : pending (mgr s) !! id = None -> Cancel id s = s.
Proof. intros H. unfold Cancel. by rewrite H. Qed.

Lemma returned_Cancel_unknown id s :
  pending (mgr s) !! id = None ->
  mu (mgr s) = {| writer := false; readers := 0 |} -> caller_in s = false ->
  returned (CallCancel id) s = s.
Proof.
  intros Hp Hmu Hin. unfold returned. cbn [run_call].
  rewrite Cancel_unregistered by exact Hp. clear Hp.
  destruct s as [[m p sem st lg wgc cl on dn] h ci dr t tr].
  cbn in Hmu, Hin. subst. reflexivity.
Qed.

Lemma returned_Cancel_pending id s :
  pending (mgr (returned (CallCancel id) s)) !! id = None.
Proof.
  unfold returned. cbn [run_call].
  change (pending (mgr (set_caller_in false (mu_Unlock (set_caller_in true
            (Cancel id (lock_taken s)))))))
    with (pending (mgr (Cancel id (lock_taken s)))).
  unfold Cancel.
  change (pending (mgr (lock_taken s))) with (pending (mgr s)).
  destruct (pending (mgr s) !! id) as [e|] eqn:E.
  - apply lookup_delete_eq.
  - exact E.
Qed.

Lemma returned_caller c s : caller_in (returned c s) = false.
Proof. reflexivity. Qed.

(** X7. [Cancel] of an ID that is not registered, and [Cancel] twice. In
    a state the program can reach, a call of [Cancel] for an ID that is
    not in the registry, from [Lock] to the deferred [Unlock], leaves the
    whole state as it was: no telemetry call, no entry touched. And for
    every ID, registered or not, calling [Cancel] twice in a row is the
    same as calling it once. *)
Theorem cancel_unknown_is_noop s id :
  reachable s -> pending (mgr s) !! id = None ->
  (∀ s', run [Call (CallCancel id); Return] s = Some s' -> s' = s) ∧
  (∀ s0 id0,
     run [Call (CallCancel id0); Return; Call (CallCancel id0); Return] s0 =
     run [Call (CallCancel id0); Return] s0).
Proof.
  intros Hreach Hp. split.
  - intros s' Hrun. rewrite run_call_return in Hrun.
    destruct (writer (mu (mgr s))) eqn:Hw; [done|].
    destruct (readers (mu (mgr s))) eqn:Hr; [|done].
    cbn in Hrun. injection Hrun as <-.
    apply returned_Cancel_unknown; [done| |].
    + destruct (mu (mgr s)). cbn in *. by subst.
    + by apply lock_free_caller_out; [apply reachable_consistent|].
  - intros s0 id0. rewrite run_two_calls, run_call_return.
    destruct (writer (mu (mgr s0)) || negb (readers (mu (mgr s0)) =? 0));
      [done|].
    f_equal. apply returned_Cancel_unknown;
      auto using returned_Cancel_pending, returned_mu, returned_caller.
Qed.

Lemma cancel_unknown_is_noop_witness :
  pending (mgr scheduled_state) !! "y" = None ∧
  run [Call (CallCancel "y"); Return] scheduled_state = Some scheduled_state.
Proof.
  assert (pending (mgr scheduled_state) !! "y" = None) as Hp
    by (vm_compute; reflexivity).
  split; [exact Hp|].
  destruct (cancel_unknown_is_noop scheduled_state "y"
              scheduled_state_reachable Hp) as [Hnoop _].
  assert (run [Call (CallCancel "y"); Return] scheduled_state =
          Some (after [Call (CallCancel "y"); Return] scheduled_state)) as Hrun
    by (vm_compute; reflexivity).
  exact (eq_trans Hrun (f_equal Some (Hnoop _ Hrun))).
Defined.

(** Computes the fields of a state given as a chain of updates. *)
Ltac state_norm :=
  lazy beta iota delta
    [returned mu_Unlock emit remove cancel timer_Stop lock_taken install alloc
     on_entry note on_mgr set_heap set_caller_in set_pending set_mu
     mgr heap caller_in drainer now trace
     mu pending semaphore strategy logger wg isClosed shutdownOnce
     shutdownDone writer readers].

Lemma Schedule_fresh_eq id d task s :
  isClosed (mgr s) = false -> pending (mgr s) !! id = None ->
  Schedule id d task s =
  s |> emit Caller (OnScheduled id d) |> alloc (new_entry id d task (now s))
    |> install Caller id (length (heap s)).
Proof. intros H1 H2. unfold Schedule. by rewrite H1, H2. Qed.

Lemma Cancel_known_eq id e s :
  pending (mgr s) !! id = Some e ->
  Cancel id s =
  s |> timer_Stop Caller e |> cancel Caller e |> remove Caller id e
    |> emit Caller (OnCancelled id).
Proof. intros H. unfold Cancel. by rewrite H. Qed.

Lemma Manager_ext (m1 m2 : Manager) :
  mu m1 = mu m2 -> pending m1 = pending m2 -> semaphore m1 = semaphore m2 ->
  strategy m1 = strategy m2 -> logger m1 = logger m2 -> wg m1 = wg m2 ->
  isClosed m1 = isClosed m2 -> shutdownOnce m1 = shutdownOnce m2 ->
  shutdownDone m1 = shutdownDone m2 -> m1 = m2.
Proof. destruct m1, m2. cbn. by intros -> -> -> -> -> -> -> -> ->. Qed.

(** The state after [Schedule] of an ID that is not registered and
    [Cancel] of the same ID, both returned. *)
Lemma returned_schedule_cancel id d task s :
  isClosed (mgr s) = false -> pending (mgr s) !! id = None ->
  returned (CallCancel id) (returned (CallSchedule id d task) s) =
  {| mgr :=
       set_pending (delete id (<[id := length (heap s)]> (pending (mgr s))))
         (set_mu {| writer := false; readers := 0 |} (mgr s));
     heap :=
       alter mark_cancelled (length (heap s))
         (alter stop_timer (length (heap s))
            (heap s ++ [new_entry id d task (now s)]));
     caller_in := false; drainer := drainer s; now := now s;
     trace :=
       trace s ++
       [(Caller, AEmit (OnScheduled id d));
        (Caller, AInstall id (length (heap s)));
        (Caller, ATimerStop (length (heap s)));
        (Caller, ACancel (length (heap s)));
        (Caller, ADelete id (length (heap s)));
        (Caller, AEmit (OnCancelled id))] |}.
Proof.
  intros Hopen Hp. unfold returned at 2. cbn [run_call].
  rewrite (Schedule_fresh_eq id d task (lock_taken s)) by done.
  unfold returned. cbn [run_call].
  erewrite Cancel_known_eq; [|cbn; apply lookup_insert_eq].
  state_norm. rewrite <- !app_assoc. reflexivity.
Qed.

(** X8. [Schedule] then [Cancel]. On an open manager, scheduling an ID
    that is not registered and cancelling it right away leaves the
    manager as it was before the two calls (registry, semaphore, wait
    group, flags); the two calls emit [OnScheduled id d] and then
    [OnCancelled id]; the entries that were there are untouched, the new
    one is left with a stopped timer and a cancelled token; and its task
    is never invoked in any continuation. *)
Theorem schedule_then_cancel s id d task s' :
  reachable s -> isClosed (mgr s) = false -> pending (mgr s) !! id = None ->
  run [Call (CallSchedule id d task); Return; Call (CallCancel id); Return] s
    = Some s' ->
  mgr s' = mgr s ∧
  telemetry (since s s') = [OnScheduled id d; OnCancelled id] ∧
  (∃ c, heap s' = heap s ++ [c] ∧ timer c = TimerStopped ∧ ctx_done c = true) ∧
  (∀ ls s'', run ls s' = Some s'' -> runs (length (heap s)) s'' = 0).
Proof.
  intros Hreach Hopen Hp Hrun.
  assert (reachable s') as Hreach' by (by eapply reachable_run).
  rewrite run_two_calls in Hrun.
  destruct (writer (mu (mgr s))) eqn:Hw; [done|].
  destruct (readers (mu (mgr s))) eqn:Hr; [|done].
  cbn [orb negb Nat.eqb] in Hrun. injection Hrun as Hs'.
  rewrite returned_schedule_cancel in Hs' by done.
  assert (heap s' = heap s ++
            [mark_cancelled (stop_timer (new_entry id d task (now s)))])
    as Hheap.
  { rewrite <- Hs'. cbn [heap].
    rewrite !alter_app_r_alt by (rewrite ?length_alter; lia).
    by rewrite Nat.sub_diag. }
  split_and!.
  - rewrite <- Hs'. cbn [mgr]. apply Manager_ext; try reflexivity.
    + cbn [mu set_pending set_mu]. destruct (mu (mgr s)). cbn in Hw, Hr.
      by subst.
    + cbn [pending set_pending]. by apply delete_insert_id.
  - erewrite since_app by (rewrite <- Hs'; reflexivity). reflexivity.
  - eexists. split; [exact Hheap|]. split; reflexivity.
  - intros ls s'' Hrun.
    assert (heap s' !! length (heap s) =
            Some (mark_cancelled (stop_timer (new_entry id d task (now s)))))
      as Hc.
    { rewrite Hheap, lookup_app_r by done. by rewrite Nat.sub_diag. }
    assert (dormant (mark_cancelled (stop_timer (new_entry id d task (now s)))))
      as Hdorm by (split; reflexivity).
    destruct (dormant_never_runs ls s' s'' _ _
                (reachable_consistent _ Hreach') (reachable_runs_ok _ Hreach')
                Hc Hdorm) as (_ & Hnever).
    by destruct (Hnever Hrun) as (? & _ & _ & ?).
Qed.

Lemma schedule_then_cancel_witness :
  run [Call (CallSchedule "y" 5 3); Return; Call (CallCancel "y"); Return]
    scheduled_state =
  Some (after [Call (CallSchedule "y" 5 3); Return; Call (CallCancel "y"); Return]
          scheduled_state) ∧
  mgr (after [Call (CallSchedule "y" 5 3); Return; Call (CallCancel "y"); Return]
         scheduled_state) = mgr scheduled_state.
Proof.
  assert (run [Call (CallSchedule "y" 5 3); Return; Call (CallCancel "y"); Return]
            scheduled_state =
          Some (after [Call (CallSchedule "y" 5 3); Return;
                       Call (CallCancel "y"); Return] scheduled_state)) as Hrun
    by (vm_compute; reflexivity).
  assert (isClosed (mgr scheduled_state) = false) as Hopen
    by (vm_compute; reflexivity).
  assert (pending (mgr scheduled_state) !! "y" = None) as Hp
    by (vm_compute; reflexivity).
  split; [exact Hrun|].
  exact (proj1 (schedule_then_cancel scheduled_state "y" 5 3 _
                  scheduled_state_reachable Hopen Hp Hrun)).
Defined.

(* ===================================================================== *)
(** ** Cancel after the timer has fired                                    *)
(* ===================================================================== *)

Ltac state_norm_goal :=
  cbn [returned mu_Unlock mu_RUnlock rlock_taken emit remove cancel timer_Stop
       lock_taken install alloc grant
       on_entry note on_mgr set_heap set_caller_in set_pending set_mu set_wg
       mgr heap caller_in drainer now trace
       mu pending semaphore strategy logger wg isClosed shutdownOnce
       shutdownDone writer readers].

Lemma e_task_stop_timer c : e_task (stop_timer c) = e_task c.
Proof. unfold stop_timer. by destruct (timer c). Qed.

Lemma e_task_mark_cancelled c : e_task (mark_cancelled c) = e_task c.
Proof. unfold mark_cancelled. by destruct (worker c). Qed.

Lemma invoked_app e s s' tr :
  trace s' = trace s ++ tr ->
  invoked e s' =
  invoked e s ++ filter (fun a => is_invoke a = true) (by_actor (Worker e) tr).
Proof. intros H. unfold invoked. by rewrite H, by_actor_app, filter_app. Qed.

Lemma invoked_runs e s : length (invoked e s) = runs e s.
Proof. reflexivity. Qed.

(** X9. [Cancel] does not stop a task whose timer has already fired. Let
    the manager be open and without semaphore, the lock free, [id]
    registered for the entry [e], and the timer of [e] fired with its
    callback waiting at [RLock]. Then [Cancel id] can be called and
    return, removing the mapping and cancelling the token, and
    afterwards the callback still finds the manager open, starts the
    goroutine, and the task body of [e] is invoked, once, with a context
    that is already cancelled. *)
Theorem cancel_after_fire_still_runs s id e c :
  reachable s -> isClosed (mgr s) = false -> semaphore (mgr s) = None ->
  writer (mu (mgr s)) = false -> readers (mu (mgr s)) = 0 ->
  pending (mgr s) !! id = Some e -> heap s !! e = Some c ->
  handler c = HRLock ->
  ∃ s', run (late_cancel_run id e) s = Some s' ∧
        pending (mgr s') !! id = None ∧
        invoked e s' = [AInvoke (e_task c)] ∧
        ∃ c', heap s' !! e = Some c' ∧ worker c' = GRunning ∧
              ctx_done c' = true.
Proof.
  intros Hreach Hopen Hsem Hw Hr Hp Hc Hh.
  pose proof (Forall_lookup_1 _ _ _ _
                (inv_entries _ (reachable_consistent _ Hreach)) Hc)
    as (_ & K2 & _).
  rewrite Hh in K2. specialize (K2 eq_refl).
  assert (invoked e s = []) as Hinv.
  { apply nil_length_inv. rewrite invoked_runs.
    destruct (reachable_runs_ok _ Hreach e) as [_ Hz]. apply Hz.
    rewrite Hc. simpl. by rewrite K2. }
  set (c1 := mark_cancelled (stop_timer c)).
  assert (handler c1 = HRLock) as Hh1
    by (unfold c1; by rewrite handler_mark_cancelled, stop_timer_handler).
  assert (worker c1 = GNone) as Hw1.
  { unfold c1. rewrite worker_mark_cancelled; rewrite stop_timer_worker; congruence. }
  assert (ctx_done c1 = true) as Hd1 by apply ctx_done_mark_cancelled.
  assert (e_task c1 = e_task c) as Ht1.
  { unfold c1. by rewrite e_task_mark_cancelled, e_task_stop_timer. }
  (* Cancel, from Lock to Unlock *)
  set (s1 := returned (CallCancel id) s).
  assert (run [Call (CallCancel id); Return] s = Some s1) as R1.
  { rewrite run_call_return, Hw, Hr. reflexivity. }
  assert (s1 = s |> lock_taken |> timer_Stop Caller e |> cancel Caller e
                 |> remove Caller id e |> emit Caller (OnCancelled id)
                 |> set_caller_in true |> mu_Unlock |> set_caller_in false)
    as Hs1.
  { unfold s1, returned. cbn [run_call]. by erewrite Cancel_known_eq. }
  clearbody s1.
  assert (heap s1 !! e = Some c1) as Hc1.
  { rewrite Hs1. state_norm_goal. by rewrite !list_lookup_alter_eq, Hc. }
  assert (writer (mu (mgr s1)) = false) as Hw1' by (by rewrite Hs1).
  assert (isClosed (mgr s1) = false) as Ho1 by (by rewrite Hs1).
  assert (semaphore (mgr s1) = None) as Hsem1 by (by rewrite Hs1).
  assert (pending (mgr s1) !! id = None) as Hp1.
  { rewrite Hs1. state_norm_goal. apply lookup_delete_eq. }
  assert (invoked e s1 = []) as Hinv1.
  { rewrite (invoked_app e s s1
               [(Caller, ATimerStop e); (Caller, ACancel e);
                (Caller, ADelete id e); (Caller, AEmit (OnCancelled id))]).
    - by rewrite Hinv.
    - rewrite Hs1. state_norm_goal. by rewrite <- !app_assoc. }
  clear Hs1.
  (* the callback *)
  set (s2 := s1 |> rlock_taken |> on_entry e (set_handler HCheck)).
  assert (step (RunHandler e) s1 = Some s2) as R2
    by (apply Step_step; by econstructor).
  set (s3 := on_entry e (set_handler HSpawn) s2).
  assert (step (RunHandler e) s2 = Some s3) as R3.
  { apply Step_step.
    eapply (Step_HCheck_open e (set_handler HCheck c1)); [|reflexivity|exact Ho1].
    unfold s2. state_norm_goal. by rewrite list_lookup_alter_eq, Hc1. }
  set (s4 := s3 |> on_mgr (fun m => set_wg (S (wg m)) m)
                |> on_entry e (fun c => set_handler HRUnlock (set_worker GAcquire c))
                |> note (Handler e) (AWgGo e)).
  assert (step (RunHandler e) s3 = Some s4) as R4.
  { apply Step_step.
    eapply (Step_HSpawn e (set_handler HSpawn (set_handler HCheck c1)));
      [|reflexivity].
    unfold s3, s2. state_norm_goal. by rewrite !list_lookup_alter_eq, Hc1. }
  set (s5 := s4 |> mu_RUnlock |> on_entry e (set_handler HExit)).
  assert (step (RunHandler e) s4 = Some s5) as R5.
  { apply Step_step.
    eapply (Step_HRUnlock e
              (set_handler HRUnlock (set_worker GAcquire
                 (set_handler HSpawn (set_handler HCheck c1)))));
      [|reflexivity].
    unfold s4, s3, s2. state_norm_goal.
    by rewrite !list_lookup_alter_eq, Hc1. }
  (* the goroutine *)
  set (c5 := set_handler HExit (set_handler HRUnlock (set_worker GAcquire
               (set_handler HSpawn (set_handler HCheck c1))))).
  assert (heap s5 !! e = Some c5) as Hc5.
  { unfold s5, s4, s3, s2. state_norm_goal.
    by rewrite !list_lookup_alter_eq, Hc1. }
  set (s6 := grant e s5).
  assert (step (RunWorker e 0) s5 = Some s6) as R6.
  { cbn [step]. unfold worker_step. rewrite Hc5. cbn [worker c5 set_handler set_worker].
    unfold acquireSlot.
    assert (semaphore (mgr s5) = None) as -> by exact Hsem1. done. }
  set (c6 := set_worker GStart c5).
  assert (heap s6 !! e = Some c6) as Hc6.
  { unfold s6. state_norm_goal. by rewrite list_lookup_alter_eq, Hc5. }
  set (s7 := s6 |> on_entry e (fun c => set_worker GRunning (set_start (now s6) c))
                |> note (Worker e) (AStart (now s6))
                |> note (Worker e) (AInvoke (e_task c6))).
  assert (step (RunWorker e 0) s6 = Some s7) as R7
    by (apply Step_step; by econstructor).
  exists s7. split_and!.
  - unfold late_cancel_run.
    change [Call (CallCancel id); Return; RunHandler e; RunHandler e;
            RunHandler e; RunHandler e; RunWorker e 0; RunWorker e 0]
      with ([Call (CallCancel id); Return] ++
            [RunHandler e; RunHandler e; RunHandler e; RunHandler e;
             RunWorker e 0; RunWorker e 0]).
    rewrite run_app, R1. cbn [mbind option_bind].
    repeat (rewrite run_cons;
            first [rewrite R2|rewrite R3|rewrite R4|rewrite R5|rewrite R6
                  |rewrite R7];
            cbn [mbind option_bind]).
    reflexivity.
  - exact Hp1.
  - rewrite (invoked_app e s1 s7
               [(Handler e, AWgGo e); (Worker e, AAcquire true);
                (Worker e, AStart (now s6)); (Worker e, AInvoke (e_task c6))]).
    + rewrite Hinv1. unfold by_actor. cbn [omap list_omap fst snd].
      rewrite decide_False by done. rewrite !decide_True by done.
      rewrite app_nil_l, !filter_cons, filter_nil. cbn [is_invoke].
      rewrite !decide_False by done. rewrite decide_True by done.
      change (e_task c6) with (e_task c1). by rewrite Ht1.
    + unfold s7, s6, s5, s4, s3, s2. state_norm_goal.
      by rewrite <- !app_assoc.
  - eexists. split; [|split].
    + unfold s7. state_norm_goal. rewrite list_lookup_alter_eq, Hc6. reflexivity.
    + reflexivity.
    + exact Hd1.
Qed.

Lemma fired_state_reachable : reachable fired_state.
Proof. apply reachable_after. vm_compute. eauto. Qed.

Lemma cancel_after_fire_still_runs_witness :
  pending (mgr fired_state) !! "a" = Some 0 ∧
  ∃ s', run (late_cancel_run "a" 0) fired_state = Some s' ∧
        pending (mgr s') !! "a" = None ∧ invoked 0 s' = [AInvoke 7].
Proof.
  assert (pending (mgr fired_state) !! "a" = Some 0) as Hp
    by (vm_compute; reflexivity).
  assert (heap fired_state !! 0 =
          Some {| timer := TimerFired; ctx_done := false; e_id := "a";
                  e_task := 7; fire_at := 0; handler := HRLock;
                  worker := GNone; start := 0 |}) as Hc
    by (vm_compute; reflexivity).
  split; [exact Hp|].
  destruct (cancel_after_fire_still_runs fired_state "a" 0 _
              fired_state_reachable eq_refl eq_refl eq_refl eq_refl Hp Hc eq_refl)
    as (s' & Hrun & Hgone & Hinv & _).
  exists s'. split_and!; [exact Hrun|exact Hgone|exact Hinv].
Defined.

(* ===================================================================== *)
(** ** The loop of Shutdown                                                *)
(* ===================================================================== *)

Lemma closed_ids_app tr1 tr2 :
  closed_ids (tr1 ++ tr2) = closed_ids tr1 ++ closed_ids tr2.
Proof. unfold closed_ids. apply omap_app. Qed.

(** With the closure of [Shutdown] in or past its critical section, a
    step either is a turn of its loop, which removes one mapping and
    emits [OnCancelled] for it, or leaves the registry alone and emits no
    [OnCancelled] of the closure. *)
Lemma step_closer l s s' :
  consistent s -> tidy s -> once_locked (shutdownOnce (mgr s)) = true ->
  step l s = Some s' ->
  once_locked (shutdownOnce (mgr s')) = true ∧
  ((closed_ids (since s s') = [] ∧ pending (mgr s') = pending (mgr s)) ∨
   (∃ k e, closed_ids (since s s') = [k] ∧ pending (mgr s) !! k = Some e ∧
           pending (mgr s') = delete k (pending (mgr s)))).
Proof.
  intros Hc Ht Ho H.
  pose proof (inv_writer _ Hc) as Hw. pose proof (inv_closed _ Hc) as Hcl.
  pose proof (td_over _ Ht) as Hov.
  Step_cases H; since_tac; simpl in *;
    repeat match goal with
    | Hx : shutdownOnce _ = _ |- _ => rewrite Hx in *
    end; simpl in *; try done; auto.
  all: try (split; [done|]; right; eauto).
  all: destruct (shutdownOnce (mgr s)) eqn:E; simpl in *; try done;
    try congruence;
    try (match goal with Hx : writer _ = false |- _ =>
           rewrite Hx in Hw; simpl in Hw; lia end);
    try (rewrite Hov in * by done;
         match goal with Hx : ∅ !! _ = Some _ |- _ =>
           by rewrite lookup_empty in Hx end).
Qed.

Lemma run_closer ls s s' :
  consistent s -> tidy s -> once_locked (shutdownOnce (mgr s)) = true ->
  run ls s = Some s' ->
  NoDup (closed_ids (since s s')) ∧
  (∀ k, k ∈ closed_ids (since s s') <->
        is_Some (pending (mgr s) !! k) ∧ pending (mgr s') !! k = None) ∧
  pending (mgr s') ⊆ pending (mgr s).
Proof.
  revert s. induction ls as [|l ls IH]; intros s Hc Ht Ho Hrun; simpl in Hrun.
  - simplify_eq. rewrite since_refl. split_and!; [constructor| |done].
    intros k. split; [by intros ?%elem_of_nil|].
    intros [[e He] Hn]. congruence.
  - destruct (step l s) as [s1|] eqn:E; [|done].
    destruct (step_closer _ _ _ Hc Ht Ho E) as [Ho1 Hcase].
    destruct (IH s1 (step_consistent _ _ _ Hc E) (step_tidy _ _ _ Hc Ht E)
                Ho1 Hrun) as (Hnd & Hin & Hsub).
    rewrite (since_step_run _ _ _ _ _ E Hrun), closed_ids_app.
    destruct Hcase as [[-> Hp]|(k & e & -> & Hk & Hp)]; rewrite Hp in *.
    + done.
    + simpl. split_and!.
      * apply NoDup_cons. split; [|done]. intros Hx%Hin.
        destruct Hx as [[e' He'] _]. by rewrite lookup_delete_eq in He'.
      * intros k'. rewrite elem_of_cons, Hin.
        destruct (decide (k' = k)) as [->|Hne].
        -- split; [intros _|auto]. split; [eauto|].
           eapply lookup_weaken_None; [|exact Hsub]. apply lookup_delete_eq.
        -- rewrite lookup_delete_ne by done.
           split; [intros [?|?]; done|auto].
      * etrans; [exact Hsub|]. apply delete_subseteq.
Qed.


(** X10. [Shutdown] cancels every registered task once. From the moment
    the closure of [Shutdown] holds the lock, in every continuation of
    the program: the closure emits [OnCancelled] at most once for an ID;
    it has emitted it for exactly the IDs that were registered at that
    moment and are no longer; the registry only shrinks; and once the
    closure has left its critical section it has emitted [OnCancelled]
    for every ID that was registered at that moment, and for no other. *)
Theorem shutdown_cancels_each_once s ls s' :
  reachable s -> once_locked (shutdownOnce (mgr s)) = true ->
  run ls s = Some s' ->
  NoDup (closed_ids (since s s')) ∧
  (∀ k, k ∈ closed_ids (since s s') <->
        is_Some (pending (mgr s) !! k) ∧ pending (mgr s') !! k = None) ∧
  pending (mgr s') ⊆ pending (mgr s) ∧
  (once_over (shutdownOnce (mgr s')) = true ->
   ∀ k, k ∈ closed_ids (since s s') <-> is_Some (pending (mgr s) !! k)).
Proof.
  intros Hreach Ho Hrun.
  destruct (run_closer ls s s' (reachable_consistent _ Hreach)
              (reachable_tidy _ Hreach) Ho Hrun) as (Hnd & Hin & Hsub).
  split_and!; try done.
  intros Hover k. rewrite Hin.
  pose proof (td_over _ (reachable_tidy _ (reachable_run _ _ _ Hreach Hrun)) Hover)
    as Hempty.
  rewrite Hempty, lookup_empty. tauto.
Qed.

Lemma ranging_state_reachable : reachable ranging_state.
Proof. apply reachable_after. vm_compute. eauto. Qed.

Lemma shutdown_cancels_each_once_witness :
  run [Closing "b"; Closing "a"; Closing "a"] ranging_state = Some ranged_state ∧
  NoDup (closed_ids (since ranging_state ranged_state)) ∧
  "a" ∈ closed_ids (since ranging_state ranged_state) ∧
  "b" ∈ closed_ids (since ranging_state ranged_state).
Proof.
  assert (run [Closing "b"; Closing "a"; Closing "a"] ranging_state =
          Some ranged_state) as Hrun by (vm_compute; reflexivity).
  destruct (shutdown_cancels_each_once ranging_state _ ranged_state
              ranging_state_reachable eq_refl Hrun) as (Hnd & _ & _ & Hall).
  assert (once_over (shutdownOnce (mgr ranged_state)) = true) as Hover
    by (vm_compute; reflexivity).
  split_and!; [exact Hrun|exact Hnd| |].
  - apply (Hall Hover "a"). vm_compute. eauto.
  - apply (Hall Hover "b"). vm_compute. eauto.
Defined.

(* ===================================================================== *)
(** ** Shutdown comes to an end                                            *)
(* ===================================================================== *)

Lemma total_alter w f e h :
  total w (alter f e h) + from_option w 0 (h !! e) =
  total w h + from_option (fun c => w (f c)) 0 (h !! e).
Proof.
  revert e. induction h as [|c h IH]; intros [|e]; simpl; try done.
  - lia.
  - specialize (IH e). unfold alter in IH. lia.
Qed.

Lemma total_alter_lt w f e h c :
  h !! e = Some c -> w (f c) < w c -> total w (alter f e h) < total w h.
Proof.
  intros Hc Hlt. pose proof (total_alter w f e h) as H.
  rewrite Hc in H. simpl in H. lia.
Qed.

Lemma total_alter_le w f e h :
  (∀ c, h !! e = Some c -> w (f c) <= w c) ->
  total w (alter f e h) <= total w h.
Proof.
  intros Hle. pose proof (total_alter w f e h) as H.
  destruct (h !! e) as [c|]; simpl in H; [specialize (Hle c eq_refl)|]; lia.
Qed.

(** Some entry is counted, or none is. *)
Lemma census_find P h :
  (∃ e c, h !! e = Some c ∧ P c = true) ∨ census P h = 0.
Proof.
  induction h as [|c h IH]; simpl; [by right|].
  destruct (P c) eqn:E.
  - left. exists 0, c. done.
  - destruct IH as [(e & c' & Hc & HP)|Hz]; [left|right; done].
    exists (S e), c'. done.
Qed.

Lemma todo_cancelled c : todo (mark_cancelled (stop_timer c)) <= todo c.
Proof.
  unfold todo. rewrite handler_mark_cancelled, stop_timer_handler.
  unfold mark_cancelled. rewrite stop_timer_worker.
  destruct (worker c) eqn:E; simpl; rewrite ?stop_timer_worker, ?E; simpl; lia.
Qed.

Lemma existsb_none {A} (P : A -> bool) (h : list A) :
  (∀ e c, h !! e = Some c -> P c = false) -> existsb P h = false.
Proof.
  induction h as [|c h IH]; intros H; simpl; [done|].
  rewrite (H 0 c eq_refl). simpl. apply IH. intros e c' Hc. by apply (H (S e)).
Qed.

(** A statement of the callback or the goroutine of one entry that
    brings the entry nearer to its end and adds nothing elsewhere. *)
Lemma backlog_heap s s' :
  total todo (heap s') < total todo (heap s) ->
  shutdownOnce (mgr s') = shutdownOnce (mgr s) -> drainer s' = drainer s ->
  size (pending (mgr s')) <= size (pending (mgr s)) ->
  caller_in s' = caller_in s ->
  backlog s' < backlog s.
Proof. intros Hlt Ho Hd Hp Hin. unfold backlog. rewrite Ho, Hd, Hin. lia. Qed.

Lemma backlog_entry s s' e c f :
  heap s !! e = Some c -> heap s' = alter f e (heap s) ->
  todo (f c) < todo c ->
  shutdownOnce (mgr s') = shutdownOnce (mgr s) -> drainer s' = drainer s ->
  size (pending (mgr s')) <= size (pending (mgr s)) ->
  caller_in s' = caller_in s ->
  backlog s' < backlog s.
Proof.
  intros Hc Hh Hlt Ho Hd Hp Hin. apply backlog_heap; try done.
  rewrite Hh. by eapply total_alter_lt.
Qed.

Lemma handler_progress s e c :
  heap s !! e = Some c -> in_read_cs c = true ->
  ∃ s', step (RunHandler e) s = Some s' ∧ backlog s' < backlog s.
Proof.
  intros Hl Hr. unfold in_read_cs in Hr.
  destruct (handler c) eqn:Hh; try done.
  - (* HCheck *)
    destruct (isClosed (mgr s)) eqn:Hcl.
    + exists (on_entry e (set_handler HAbort) s). split.
      { apply Step_step. by eapply Step_HCheck_closed. }
      eapply (backlog_entry s _ e c); try done.
      unfold todo. simpl. rewrite Hh. simpl. lia.
    + exists (on_entry e (set_handler HSpawn) s). split.
      { apply Step_step. by eapply Step_HCheck_open. }
      eapply (backlog_entry s _ e c); try done.
      unfold todo. simpl. rewrite Hh. simpl. lia.
  - (* HAbort *)
    exists (s |> cancel (Handler e) e |> on_entry e (set_handler HRUnlock)).
    split; [apply Step_step; by eapply Step_HAbort|].
    eapply (backlog_entry s _ e c
              (fun c => set_handler HRUnlock (mark_cancelled c))); try done.
    + simpl. by rewrite list_alter_alter_eq.
    + unfold todo. simpl. rewrite Hh. simpl.
      unfold mark_cancelled. destruct (worker c) eqn:E; simpl; rewrite ?E; simpl; lia.
  - (* HSpawn *)
    eexists. split; [apply Step_step; by eapply Step_HSpawn|].
    eapply (backlog_entry s _ e c); try done.
    unfold todo. simpl. rewrite Hh. simpl. lia.
  - (* HRUnlock *)
    eexists. split; [apply Step_step; by eapply Step_HRUnlock|].
    eapply (backlog_entry s _ e c); try done.
    unfold todo. simpl. rewrite Hh. simpl. lia.
Qed.

Lemma acquire_progress s e c :
  heap s !! e = Some c -> worker c = GAcquire ->
  backlog (acquireSlot e 0 c s) < backlog s.
Proof.
  intros Hl Hw. unfold acquireSlot.
  assert (∀ g, g_todo g < 12 -> todo (set_worker g c) < todo c) as Hlt.
  { intros g Hg. unfold todo. simpl. rewrite Hw. simpl. lia. }
  destruct (semaphore (mgr s)) as [ch|] eqn:Hsem.
  - destruct (strategy (mgr s)), (has_room ch), (ctx_done c);
      (eapply (backlog_entry s _ e c); [exact Hl|reflexivity|apply Hlt; simpl; lia
                                       |reflexivity..]).
  - eapply (backlog_entry s _ e c); [exact Hl|reflexivity|apply Hlt; simpl; lia
                                     |reflexivity..].
Qed.

(** [releaseSlot] goes through: the slot goes to a parked goroutine, or
    back to the semaphore, which holds the caller's element. *)
Lemma release_progress s e c :
  slots_ok s -> heap s !! e = Some c -> worker c = GRelease ->
  ∃ pick s', step (RunWorker e pick) s = Some s' ∧ backlog s' < backlog s.
Proof.
  intros Hsl Hl Hw.
  assert (todo (set_worker GCancel c) < todo c) as Hlt.
  { unfold todo. simpl. rewrite Hw. simpl. lia. }
  destruct (semaphore (mgr s)) as [ch|] eqn:Hsem.
  - destruct (census_find is_parked (heap s)) as [(w & cw & Hlw & HPw)|Hnone].
    + (* the slot goes to a parked goroutine *)
      assert (worker cw = GParked) as Hww.
      { unfold is_parked in HPw. by apply bool_decide_eq_true in HPw. }
      assert (w ≠ e) as Hne by (intros ->; congruence).
      assert (existsb is_parked (heap s) = true) as Hex.
      { destruct (existsb is_parked (heap s)) eqn:Hex; [done|].
        apply census_existsb in Hex.
        pose proof (census_pos is_parked _ _ _ Hlw HPw). lia. }
      exists w, (s |> note (Worker e) AReleaseSlot |> grant w
                   |> on_entry e (set_worker GCancel)).
      split.
      { cbn [step]. unfold worker_step. rewrite Hl, Hw.
        unfold releaseSlot. rewrite Hsem, Hex, Hlw, HPw. reflexivity. }
      apply backlog_heap; try done.
      change (heap (s |> note (Worker e) AReleaseSlot |> grant w
                      |> on_entry e (set_worker GCancel)))
        with (alter (set_worker GCancel) e
                (alter (set_worker GStart) w (heap s))).
      eapply Nat.lt_le_trans.
      * eapply total_alter_lt; [|exact Hlt].
        by rewrite list_lookup_alter_ne.
      * apply total_alter_le. intros c' Hc'. simplify_eq.
        unfold todo. simpl. rewrite Hww. simpl. lia.
    + (* the slot goes back to the semaphore *)
      assert (existsb is_parked (heap s) = false) as Hex.
      { apply existsb_none. intros e' c' Hc'. by eapply census_zero. }
      unfold slots_ok in Hsl. rewrite Hsem in Hsl. destruct Hsl as (Hlen & _).
      assert (1 <= census holds_slot (heap s)) as Hpos.
      { eapply census_pos; [exact Hl|]. unfold holds_slot. by rewrite Hw. }
      destruct (len ch) as [|n] eqn:En; [lia|].
      exists 0,
        (s |> on_mgr (set_semaphore (Some {| cap := cap ch; len := n |}))
           |> note (Worker e) AReleaseSlot
           |> on_entry e (set_worker GCancel)).
      split.
      { cbn [step]. unfold worker_step. rewrite Hl, Hw.
        unfold releaseSlot. rewrite Hsem, Hex, En. reflexivity. }
      eapply (backlog_entry s _ e c); done.
  - exists 0, (s |> note (Worker e) AReleaseSlot |> on_entry e (set_worker GCancel)).
    split.
    { cbn [step]. unfold worker_step. rewrite Hl, Hw.
      unfold releaseSlot. rewrite Hsem. reflexivity. }
    eapply (backlog_entry s _ e c); done.
Qed.

Lemma worker_progress s e c :
  slots_ok s -> heap s !! e = Some c -> running c = true ->
  writer (mu (mgr s)) = false -> readers (mu (mgr s)) = 0 ->
  ∃ pick s', step (RunWorker e pick) s = Some s' ∧ backlog s' < backlog s.
Proof.
  intros Hsl Hl Hrun Hwr Hrd. unfold running in Hrun.
  assert (∀ g, g_todo g < g_todo (worker c) -> todo (set_worker g c) < todo c)
    as Hlt.
  { intros g Hg. unfold todo. simpl. lia. }
  destruct (worker c) eqn:Hw; try done.
  - (* GAcquire *)
    exists 0, (acquireSlot e 0 c s). split; [|by apply acquire_progress].
    cbn [step]. unfold worker_step. by rewrite Hl, Hw.
  - (* GDelete *)
    exists 0.
    destruct (decide (pending (mgr s) !! e_id c = Some e)) as [Hcur|Hstale].
    + eexists. split; [apply Step_step; by eapply Step_Delete_current|].
      eapply (backlog_entry s _ e c); try done; [apply Hlt; simpl; lia|].
      cbn. rewrite map_size_delete_Some by eauto. lia.
    + eexists. split; [apply Step_step; by eapply Step_Delete_stale|].
      eapply (backlog_entry s _ e c); try done. apply Hlt; simpl; lia.
  - (* GStart *)
    exists 0. eexists. split; [apply Step_step; by eapply Step_Start|].
    eapply (backlog_entry s _ e c
              (fun c => set_worker GRunning (set_start (now s) c))); try done.
    unfold todo. simpl. rewrite Hw. simpl. lia.
  - (* GRunning *)
    exists 0. eexists. split; [apply Step_step; by eapply Step_TaskReturn|].
    eapply (backlog_entry s _ e c); try done. apply Hlt; simpl; lia.
  - (* GExecuted *)
    exists 0. eexists. split; [apply Step_step; by eapply Step_Executed|].
    eapply (backlog_entry s _ e c); try done. apply Hlt; simpl; lia.
  - (* GRelease *)
    by eapply release_progress.
  - (* GCancel *)
    exists 0. eexists. split; [apply Step_step; by eapply Step_DeferCancel|].
    eapply (backlog_entry s _ e c
              (fun c => set_worker GWgDone (mark_cancelled c))); try done.
    + simpl. by rewrite list_alter_alter_eq.
    + unfold todo.
      change (handler (set_worker GWgDone (mark_cancelled c)))
        with (handler (mark_cancelled c)).
      rewrite handler_mark_cancelled. simpl. rewrite Hw. simpl. lia.
  - (* GWgDone *)
    exists 0. eexists. split; [apply Step_step; by eapply Step_WgDone|].
    eapply (backlog_entry s _ e c); try done. apply Hlt; simpl; lia.
Qed.

Lemma census_zero_intro P h :
  (∀ e c, h !! e = Some c -> P c = false) -> census P h = 0.
Proof.
  induction h as [|c h IH]; intros H; simpl; [done|].
  rewrite (H 0 c eq_refl). simpl. apply IH. intros e c' Hc. by apply (H (S e)).
Qed.

(** With nobody running and nobody inside [deleteIfCurrent], nobody is
    parked: a parked goroutine stands before a full semaphore, whose
    slots are held by goroutines that can run. *)
Lemma idle_no_parked s e c :
  slots_ok s -> census running (heap s) = 0 ->
  census in_delete_cs (heap s) = 0 ->
  heap s !! e = Some c -> worker c ≠ GParked.
Proof.
  intros Hsl Hrun Hdel Hl Hw.
  assert (1 <= census is_parked (heap s)) as Hpos.
  { eapply census_pos; [exact Hl|]. unfold is_parked. by rewrite Hw. }
  unfold slots_ok in Hsl. destruct (semaphore (mgr s)) as [ch|]; [|lia].
  destruct Hsl as (Hlen & _ & Hfull & Hcap). specialize (Hfull Hpos).
  destruct (census_find holds_slot (heap s)) as [(w & cw & Hlw & HPw)|Hz];
    [|lia].
  pose proof (census_zero _ _ _ _ Hrun Hlw) as H1.
  pose proof (census_zero _ _ _ _ Hdel Hlw) as H2.
  unfold holds_slot, holding, running, in_delete_cs in *.
  destruct (worker cw) as [| | |[]|[]| | | | | | |]; done.
Qed.

(** Either nothing is going on, or some step of the program itself
    brings it nearer to that. *)
Lemma progress s :
  consistent s -> tidy s -> slots_ok s ->
  settled s ∨
  ∃ l s', winding_down l = true ∧ step l s = Some s' ∧ backlog s' < backlog s.
Proof.
  intros Hc Ht Hsl.
  pose proof (inv_writer _ Hc) as Hw. pose proof (inv_readers _ Hc) as Hr.
  pose proof (inv_excl _ Hc) as Hx.
  (* a caller inside returns *)
  destruct (caller_in s) eqn:Hin.
  { right. exists Return, (s |> mu_Unlock |> set_caller_in false).
    split; [done|]. split; [cbn [step]; by rewrite Hin|].
    unfold backlog. cbn. rewrite Hin. simpl. lia. }
  (* a goroutine inside deleteIfCurrent unlocks *)
  destruct (census_find in_delete_cs (heap s)) as [(e & c & Hl & HP)|Hdel].
  { right. unfold in_delete_cs in HP. destruct (worker c) eqn:Hwc; try done.
    exists (RunWorker e 0), (s |> mu_Unlock |> after_delete e from).
    split; [done|]. split.
    { cbn [step]. unfold worker_step. by rewrite Hl, Hwc. }
    destruct from; (eapply (backlog_entry s _ e c); try done);
      unfold todo; simpl; rewrite Hwc; simpl; lia. }
  rewrite Hdel in Hw. simpl in Hw.
  (* the closure of Shutdown, holding the lock *)
  destruct (once_in_cs (shutdownOnce (mgr s))) eqn:Hcs.
  { right. destruct (shutdownOnce (mgr s)) eqn:Ho; try done.
    - exists (Closing "k"). eexists. split; [done|].
      split; [apply Step_step; by eapply Step_OnceClose|].
      unfold backlog. cbn. rewrite Ho. simpl. lia.
    - destruct (map_choose_or_empty (pending (mgr s))) as [(k & e & Hk)|Hemp].
      + exists (Closing k), (shutdown_visit k e s). split; [done|].
        split; [apply Step_step; by eapply Step_OnceRange|].
        unfold backlog. cbn. rewrite Ho.
        rewrite map_size_delete_Some by eauto.
        assert (size (pending (mgr s)) ≠ 0) as Hsz.
        { apply map_size_non_empty_iff. intros Hx'. by rewrite Hx' in Hk. }
        assert (total todo (alter mark_cancelled e (alter stop_timer e (heap s)))
                <= total todo (heap s)) as Hle.
        { rewrite list_alter_alter_eq. apply total_alter_le.
          intros c _. apply todo_cancelled. }
        lia.
      + exists (Closing "k"). eexists. split; [done|].
        split; [apply Step_step; by eapply Step_OnceUnlock|].
        unfold backlog. cbn. rewrite Ho. simpl. lia. }
  simpl in Hw.
  assert (writer (mu (mgr s)) = false) as Hwr.
  { destruct (writer (mu (mgr s))); [simpl in Hw; lia|done]. }
  (* a callback inside its read section *)
  destruct (census_find in_read_cs (heap s)) as [(e & c & Hl & HP)|Hread].
  { right. destruct (handler_progress s e c Hl HP) as (s' & Hstep & Hlt).
    exists (RunHandler e), s'. done. }
  rewrite Hread in Hr.
  (* the closure, outside the lock *)
  destruct (decide (shutdownOnce (mgr s) = OnceLock)) as [Ho|HnL].
  { right. exists (Closing "k"). eexists. split; [done|].
    split; [apply Step_step; by eapply Step_OnceLock|].
    unfold backlog. cbn. rewrite Ho. simpl. lia. }
  destruct (decide (shutdownOnce (mgr s) = OnceSpawn)) as [Ho|HnS].
  { right. exists (Closing "k"). eexists. split; [done|].
    split; [apply Step_step; by eapply Step_OnceSpawn|].
    unfold backlog. cbn. rewrite Ho.
    assert (drainer s = DNone) as ->.
    { apply (inv_drainer _ Hc). by rewrite Ho. }
    simpl. lia. }
  (* callbacks and goroutines run to their end *)
  destruct (census_find at_rlock (heap s)) as [(e & c & Hl & HP)|Hrl].
  { right. unfold at_rlock in HP. destruct (handler c) eqn:Hh; try done.
    exists (RunHandler e). eexists. split; [done|].
    split; [apply Step_step; by eapply Step_HRLock|].
    eapply (backlog_entry s _ e c); try done.
    unfold todo. simpl. rewrite Hh. simpl. lia. }
  destruct (census_find running (heap s)) as [(e & c & Hl & HP)|Hrun].
  { right.
    destruct (worker_progress s e c Hsl Hl HP Hwr Hr) as (pick & s' & Hstep & Hlt).
    exists (RunWorker e pick), s'. done. }
  (* no callback and no goroutine has anything left *)
  assert (census busy (heap s) = 0) as Hbusy.
  { apply census_zero_intro. intros e c Hl.
    pose proof (census_zero _ _ _ _ Hrun Hl) as H1.
    pose proof (census_zero _ _ _ _ Hdel Hl) as H2.
    pose proof (census_zero _ _ _ _ Hread Hl) as H3.
    pose proof (census_zero _ _ _ _ Hrl Hl) as H4.
    pose proof (idle_no_parked _ _ _ Hsl Hrun Hdel Hl) as H5.
    unfold running, in_delete_cs, in_read_cs, at_rlock, busy, todo in *.
    destruct (worker c), (handler c); done. }
  destruct (decide (shutdownOnce (mgr s) = OnceIdle)) as [Ho|HnI];
    [left; split_and!; auto|].
  assert (shutdownOnce (mgr s) = OnceDone) as Ho.
  { destruct (shutdownOnce (mgr s)); done. }
  (* the drain goroutine goes on *)
  assert (wg (mgr s) = 0) as Hwg.
  { rewrite (inv_wg _ Hc). apply census_zero_intro. intros e c Hl.
    pose proof (census_zero _ _ _ _ Hbusy Hl) as H1.
    unfold busy, todo, in_flight in *.
    destruct (worker c), (handler c); done. }
  destruct (drainer s) eqn:Hd.
  - apply (inv_drainer _ Hc) in Hd. by rewrite Ho in Hd.
  - right. exists RunDrainer, (set_drainer DClose s). split; [done|].
    split; [apply Step_step; by eapply Step_DWait|].
    unfold backlog. cbn. rewrite Hd. simpl. lia.
  - right. exists RunDrainer. eexists. split; [done|].
    split; [apply Step_step; by eapply Step_DClose|].
    unfold backlog. cbn. rewrite Hd. simpl. lia.
  - left. split_and!; auto. right. by apply (inv_done _ Hc).
Qed.

Lemma step_winding_clock l s s' :
  winding_down l = true -> step l s = Some s' -> now s' = now s.
Proof. intros Hl H. Step_cases H; simpl in *; done. Qed.

Lemma settles_from s :
  consistent s -> tidy s -> slots_ok s ->
  ∃ ls s', Forall (fun l => winding_down l = true) ls ∧ run ls s = Some s' ∧
           settled s' ∧ now s' = now s.
Proof.
  remember (backlog s) as n eqn:Hn. revert s Hn.
  induction n as [n IH] using lt_wf_ind. intros s -> Hc Ht Hsl.
  destruct (progress s Hc Ht Hsl) as [Hset|(l & s1 & Hl & Hstep & Hlt)].
  - exists [], s. by split_and!.
  - destruct (IH _ Hlt s1 eq_refl (step_consistent _ _ _ Hc Hstep)
                (step_tidy _ _ _ Hc Ht Hstep) (step_slots_ok _ _ _ Hc Hsl Hstep))
      as (ls & s' & Hall & Hrun & Hset & Hnow).
    exists (l :: ls), s'. split_and!; [by constructor| |done|].
    + simpl. by rewrite Hstep.
    + rewrite Hnow. by eapply step_winding_clock.
Qed.

Lemma winding_down_internal l : winding_down l = true -> internal l = true.
Proof. by destruct l. Qed.

(** What a state where nothing is going on looks like. *)
Lemma settled_idle s :
  consistent s -> slots_ok s -> settled s ->
  (∀ e c, heap s !! e = Some c ->
          (handler c = HNone ∨ handler c = HExit) ∧
          (worker c = GNone ∨ worker c = GExit)) ∧
  wg (mgr s) = 0 ∧
  writer (mu (mgr s)) = false ∧ readers (mu (mgr s)) = 0 ∧
  (∀ ch, semaphore (mgr s) = Some ch -> len ch = 0).
Proof.
  intros Hc Hsl (Hin & Hbusy & Hsh).
  assert (∀ P, (∀ c, todo c = 0 -> P c = false) -> census P (heap s) = 0) as Hz.
  { intros P HP. apply census_zero_intro. intros e c Hl. apply HP.
    pose proof (census_zero _ _ _ _ Hbusy Hl) as H. unfold busy in H.
    apply negb_false_iff, Nat.eqb_eq in H. done. }
  assert (once_in_cs (shutdownOnce (mgr s)) = false) as Hcs.
  { destruct Hsh as [->|Hd]; [done|].
    apply (inv_done _ Hc) in Hd.
    destruct (decide (shutdownOnce (mgr s) = OnceDone)) as [->|Hn]; [done|].
    apply (inv_drainer _ Hc) in Hn. congruence. }
  split_and!.
  - intros e c Hl. pose proof (census_zero _ _ _ _ Hbusy Hl) as H.
    unfold busy, todo in H. apply negb_false_iff, Nat.eqb_eq in H.
    destruct (handler c), (worker c); simpl in H; try lia; auto.
  - rewrite (inv_wg _ Hc). apply Hz. intros c. unfold todo, in_flight.
    destruct (handler c), (worker c); simpl; try lia; done.
  - pose proof (inv_writer _ Hc) as Hw. rewrite Hin, Hcs in Hw.
    rewrite Hz in Hw.
    + by destruct (writer (mu (mgr s))).
    + intros c. unfold todo, in_delete_cs.
      destruct (handler c), (worker c); simpl; try lia; done.
  - rewrite (inv_readers _ Hc). apply Hz. intros c. unfold todo, in_read_cs.
    destruct (handler c), (worker c); simpl; try lia; done.
  - intros ch Hch. unfold slots_ok in Hsl. rewrite Hch in Hsl.
    destruct Hsl as (<- & _). apply Hz. intros c. unfold todo, holds_slot, holding.
    destruct (handler c), (worker c) as [| | |[]|[]| | | | | | |];
      simpl; try lia; done.
Qed.

(** X11. [Shutdown] can always come to its end. In every state the
    program can reach after a first call of [Shutdown], whatever the
    callers, timers and goroutines were doing, the program has a way on,
    by steps of its own only (no further call, no tick of the clock, no
    timer firing), to a state where [shutdownDone] is closed: callers
    inside return, the closure cancels what is registered, callbacks and
    goroutines run to their end (a task body that was invoked returns),
    and the drain goroutine closes the channel. There the registry is
    empty, the wait group is at zero, and [Shutdown] returns nil for
    every context that is not done. So [Shutdown] does not deadlock. *)
Theorem shutdown_can_complete s :
  reachable s -> shutdownOnce (mgr s) ≠ OnceIdle ->
  ∃ ls s', Forall (fun l => internal l = true) ls ∧ run ls s = Some s' ∧
           now s' = now s ∧
           shutdownDone (mgr s') = true ∧ pending (mgr s') = ∅ ∧
           wg (mgr s') = 0 ∧
           ∀ ctx pick, ctx_Err (now s') ctx = None ->
                       Shutdown ctx pick s' = Some None.
Proof.
  intros Hreach Hidle.
  destruct Hreach as (opts & ls0 & Hrun0).
  assert (reachable s) as Hreach by (by exists opts, ls0).
  destruct (settles_from s (reachable_consistent _ Hreach)
              (reachable_tidy _ Hreach) (reachable_slots_ok _ _ _ Hrun0))
    as (ls & s' & Hall & Hrun & (_ & _ & Hsh) & Hnow).
  pose proof (run_once_started _ _ _ Hrun Hidle) as Hidle'.
  destruct Hsh as [Hsh|Hdone]; [done|].
  exists ls, s'. split_and!; try done.
  { eapply Forall_impl; [exact Hall|]. intros l. apply winding_down_internal. }
  all: pose proof (reachable_run _ _ _ Hreach Hrun) as Hreach'.
  all: pose proof (reachable_consistent _ Hreach') as Hc'.
  all: assert (shutdownOnce (mgr s') = OnceDone) as Ho.
  all: try (destruct (decide (shutdownOnce (mgr s') = OnceDone)) as [|Hn];
            [done|]; apply (inv_drainer _ Hc') in Hn;
            apply (inv_done _ Hc') in Hdone; congruence).
  - apply (td_over _ (reachable_tidy _ Hreach')). by rewrite Ho.
  - apply (inv_drained _ Hc'). apply (inv_done _ Hc') in Hdone. by rewrite Hdone.
  - intros ctx pick Herr. unfold Shutdown. by rewrite Ho, Hdone, Herr.
Qed.

Lemma shutdown_can_complete_witness :
  shutdownOnce (mgr ranging_state) ≠ OnceIdle ∧
  ∃ ls s', run ls ranging_state = Some s' ∧ shutdownDone (mgr s') = true.
Proof.
  assert (shutdownOnce (mgr ranging_state) ≠ OnceIdle) as Hidle
    by (vm_compute; discriminate).
  split; [exact Hidle|].
  destruct (shutdown_can_complete ranging_state ranging_state_reachable Hidle)
    as (ls & s' & _ & Hrun & _ & Hdone & _).
  exists ls, s'. split; [exact Hrun|exact Hdone].
Defined.

(** X12. The manager never gets stuck. From every state the program can
    reach, whatever callers, callbacks and goroutines are in the middle
    of, and under either strategy, the program has a way on by steps of
    its own only (no further call, no tick of the clock, no further timer
    firing) to a state where nothing is going on: no caller is inside,
    every callback that fired and every goroutine that was started has
    run to its end (none is left parked before the semaphore), the wait
    group is at zero, the lock is free and every slot of the semaphore
    is free again. So no lock and no slot is ever lost, and a goroutine
    blocked in [acquireSlot] is always served in the end. *)
Theorem can_always_settle s :
  reachable s ->
  ∃ ls s', Forall (fun l => winding_down l = true) ls ∧ run ls s = Some s' ∧
           now s' = now s ∧ caller_in s' = false ∧
           (∀ e c, heap s' !! e = Some c ->
                   (handler c = HNone ∨ handler c = HExit) ∧
                   (worker c = GNone ∨ worker c = GExit)) ∧
           wg (mgr s') = 0 ∧
           writer (mu (mgr s')) = false ∧ readers (mu (mgr s')) = 0 ∧
           (∀ ch, semaphore (mgr s') = Some ch -> len ch = 0).
Proof.
  intros (opts & ls0 & Hrun0).
  assert (reachable s) as Hreach by (by exists opts, ls0).
  destruct (settles_from s (reachable_consistent _ Hreach)
              (reachable_tidy _ Hreach) (reachable_slots_ok _ _ _ Hrun0))
    as (ls & s' & Hall & Hrun & Hset & Hnow).
  assert (consistent s') as Hc'.
  { apply reachable_consistent. by eapply reachable_run. }
  assert (slots_ok s') as Hsl'.
  { eapply (reachable_slots_ok opts (ls0 ++ ls)). rewrite run_app, Hrun0. done. }
  destruct (settled_idle s' Hc' Hsl' Hset) as (H1 & H2 & H3 & H4 & H5).
  destruct Hset as (Hin & _).
  exists ls, s'. done.
Qed.

Lemma can_always_settle_witness :
  ∃ ls s', run ls parked_state = Some s' ∧
           ∀ e c, heap s' !! e = Some c -> worker c = GNone ∨ worker c = GExit.
Proof.
  destruct (can_always_settle parked_state parked_state_reachable)
    as (ls & s' & _ & Hrun & _ & _ & Hheap & _).
  exists ls, s'. split; [exact Hrun|].
  intros e c Hl. exact (proj2 (Hheap e c Hl)).
Defined.

(* ===================================================================== *)
(** ** What the goroutines report                                          *)
(* ===================================================================== *)

Lemma reported_since e s s' tr :
  trace s' = trace s ++ tr ->
  reported e s' = reported e s ++ emitted (by_actor (Worker e) tr).
Proof.
  intros H. unfold reported, emitted. by rewrite H, by_actor_app, omap_app.
Qed.

(** One step, seen from one entry: its goroutine stays where it is or
    goes on to its next statement, and says and invokes what belongs to
    that statement. *)
Lemma step_entry l s s' e c c' :
  consistent s ->
  step l s = Some s' -> heap s !! e = Some c -> heap s' !! e = Some c' ->
  (worker c' = worker c ∨ pc_next (worker c) (worker c') = true) ∧
  emitted (by_actor (Worker e) (since s s')) = said c c' (now s) ∧
  length (filter (fun a => is_invoke a = true)
            (by_actor (Worker e) (since s s'))) = entered c c' ∧
  e_id c' = e_id c ∧ now s <= now s' ∧
  (start c' = start c ∨ worker c = GStart ∧ start c' = now s) ∧
  (worker c = GAcquire -> worker c' = GDelete AfterDrop ->
   strategy (mgr s) = StrategyDrop ∧ semaphore (mgr s) ≠ None).
Proof.
  intros Hs H Hc Hc'. pose proof (inv_entries _ Hs) as He.
  Step_cases H; since_tac; entry_facts He; norm_lookup Hc';
    unfold by_actor, emitted, said, entered; simpl;
    repeat case_decide; simplify_eq/=;
    repeat match goal with
    | Hw : worker ?c = _ |- _ => rewrite Hw in *
    end;
    try (crush_pcs; fail);
    try (try unfold mark_cancelled; rewrite ?stop_timer_worker;
         repeat match goal with
         | |- context [match worker ?c with _ => _ end] =>
             is_var c; destruct (worker c) as [| | |[]|[]| | | | | | |] eqn:?
         end; simpl; rewrite ?stop_timer_worker;
         repeat match goal with
         | Hw : worker ?c = _ |- _ => rewrite Hw
         end;
         try unfold stop_timer;
         repeat match goal with
         | |- context [match timer ?c with _ => _ end] => destruct (timer c) eqn:?
         end; simpl;
         repeat match goal with
         | Hw : worker ?c = _ |- _ => rewrite Hw
         end;
         split_and!; auto; try lia; try congruence;
         try (intros; congruence); fail).
  - split_and!; auto. intros _ _. split; [done|].
    match goal with Hm : semaphore _ = Some _ |- _ => by rewrite Hm end.
  - split_and!; auto; [|done]. right. simpl. by apply bool_decide_eq_true.
  - split_and!; auto; [|done]. right. simpl. by apply bool_decide_eq_true.
Qed.

Lemma step_limit l s s' :
  step l s = Some s' ->
  strategy (mgr s') = strategy (mgr s) ∧
  (semaphore (mgr s) ≠ None -> semaphore (mgr s') ≠ None).
Proof.
  intros H. pose proof (step_config _ _ _ H) as Hcfg. unfold config in Hcfg.
  injection Hcfg as H1 H2 H3. split; [done|].
  intros Hn Hs'. rewrite Hs' in H1. simpl in H1.
  destruct (semaphore (mgr s)); done.
Qed.

Lemma step_reports_ok l s s' :
  consistent s -> timely s -> reports_ok s -> step l s = Some s' ->
  reports_ok s'.
Proof.
  intros Hs Ht Hr H e. specialize (Hr e).
  destruct (step_trace_grows _ _ _ H) as [tr Htr].
  pose proof (since_app _ _ _ Htr) as Hsince.
  destruct (heap s !! e) as [c|] eqn:Hc.
  - destruct (step_heap_grows _ _ _ _ _ H Hc) as [c' Hc']. rewrite Hc'.
    destruct (step_entry _ _ _ _ _ _ Hs H Hc Hc')
      as (Hpc & Hsaid & Hent & Hid & Hnow & Hstart & Hdrop).
    destruct (step_limit _ _ _ H) as (Hstrat & Hsem).
    specialize (Ht e c Hc). destruct Ht as (_ & Ht).
    rewrite Hsince in Hsaid, Hent.
    unfold report_ok, was_dropped, was_executed in *.
    rewrite (reported_since e s s' tr Htr), (runs_since e s s' tr Htr).
    rewrite Hsaid, Hent, Hid, Hstrat. unfold said, entered.
    destruct Hpc as [Heq|Hnext].
    + rewrite Heq.
      destruct (worker c) as [| | |[]|[]| | | | | | |] eqn:Hw; simpl;
        rewrite ?app_nil_r, ?Nat.add_0_r;
        try (destruct Hstart as [Hst|[? _]]; [|done]; rewrite Hst);
        try done.
      all: try (destruct Hr as (? & ? & ? & ?); split_and!; auto; fail).
      all: try (destruct Hr as (d & ? & ? & ?); exists d; split_and!; auto; lia).
      all: destruct Hr as [Hr|[Hr|Hr]]; [left; done|right; left|right; right].
      all: try (destruct Hr as (? & ? & ? & ?); split_and!; auto; fail).
      all: try (destruct Hr as (d & ? & ? & ?); exists d; split_and!; auto; lia).
    + destruct (worker c) as [| | |[]|[]| | | | | | |] eqn:Hw;
        destruct (worker c') as [| | |[]|[]| | | | | | |] eqn:Hw';
        simpl in Hnext; try done; simpl;
        rewrite ?app_nil_r, ?Nat.add_0_r;
        try (destruct Hr as [Hr1 Hr2]; rewrite Hr1, Hr2; simpl; try done);
        try (destruct Hstart as [Hst|[? _]]; [|done]; rewrite Hst);
        auto.
      all: try (destruct (Hdrop eq_refl eq_refl); split_and!; auto; fail).
      all: try (destruct Hr as (? & ? & ? & ?); split_and!; auto; fail).
      all: try (right; left; destruct Hr as (? & ? & ? & ?); split_and!; auto; fail).
      all: try (destruct Hr as [Hr|[Hr|Hr]]; [left; done|right; left|right; right];
                [destruct Hr as (? & ? & ? & ?); split_and!; auto
                |destruct Hr as (d & ? & ? & ?); exists d; split_and!; auto; lia]).
      all: try (right; right).
      all: try (destruct Hr as (d & ? & ? & ?); exists d; split_and!; auto; lia).
      all: try (specialize (Ht ltac:(lia)); eexists; split_and!; [reflexivity|lia..]).
  - assert (by_actor (Worker e) tr = []) as Hnone.
    { rewrite <- Hsince. by eapply step_heap_none. }
    destruct (heap s' !! e) as [c'|] eqn:Hc'.
    + destruct (step_heap_cases _ _ _ e c' H Hc') as [[c Hc2]|(_ & id & d & task & -> & _)];
        [congruence|].
      unfold report_ok. simpl. unfold reported, runs.
      rewrite Htr, by_actor_app, Hr, Hnone. done.
    + rewrite Htr, by_actor_app, Hr. simpl. rewrite <- Hsince.
      by eapply step_heap_none.
Qed.

Lemma reachable_reports_ok s : reachable s -> reports_ok s.
Proof.
  intros (opts & ls & H).
  assert (reachable s ∧ reports_ok s) as [_ ?]; [|done].
  eapply (run_invariant (fun s => reachable s ∧ reports_ok s)); [| |exact H].
  - intros l s1 s2 (Hreach & Hr) Hstep. split; [by eapply reachable_step|].
    eapply step_reports_ok; eauto using reachable_consistent, reachable_timely.
  - split; [by exists opts, []|]. intros e. simpl. by destruct e.
Qed.

Lemma dropped_state_reachable : reachable dropped_state.
Proof.
  apply (reachable_step (RunWorker 1 0) dropping_state);
    [exact dropping_state_reachable|vm_compute; reflexivity].
Qed.

(** X13. What the goroutine of a task reports. In every state the
    program can reach, the goroutine of an entry has made at most one
    telemetry call, about the ID of its own entry, and it says what
    happened. Either it has reported nothing; or it has reported
    [OnFailed] with [ErrTaskDropped], and then the manager has a limit
    and the drop strategy and the task body was not invoked; or it has
    reported [OnExecuted], and then the task body was invoked once and
    the duration is not negative and no longer than the time since the
    task was started. Nothing is reported before the task body has
    returned, and once the goroutine of a task that was invoked has ended,
    its [OnExecuted] has been reported. *)
Theorem one_report_per_task s e c :
  reachable s -> heap s !! e = Some c ->
  (reported e s = [] ∨
   (reported e s = [OnFailed (e_id c) ErrTaskDropped] ∧ runs e s = 0 ∧
    strategy (mgr s) = StrategyDrop ∧ semaphore (mgr s) ≠ None) ∨
   (∃ d, reported e s = [OnExecuted (e_id c) d] ∧
         (0 ≤ d ≤ Z.of_nat (now s) - Z.of_nat (start c))%Z ∧ runs e s = 1)) ∧
  (body_ahead (worker c) = true ∨ worker c = GRunning -> reported e s = []) ∧
  (worker c = GExit -> runs e s = 1 ->
   ∃ d, reported e s = [OnExecuted (e_id c) d]).
Proof.
  intros Hreach Hc. pose proof (reachable_reports_ok s Hreach e) as Hr.
  rewrite Hc in Hr. unfold report_ok, was_dropped, was_executed in Hr.
  split_and!.
  - destruct (worker c) as [| | |[]|[]| | | | | | |];
      try (left; by destruct Hr); try (right; left; done);
      try (right; right; done); destruct Hr as [[? _]|[?|?]]; auto.
  - intros [Hb|Hw].
    + destruct (worker c); try done; by destruct Hr.
    + rewrite Hw in Hr. by destruct Hr.
  - intros Hw Hruns. rewrite Hw in Hr.
    destruct Hr as [[_ ?]|[(_ & ? & _)|(d & ? & _)]]; [lia..|]. by exists d.
Qed.

Lemma one_report_per_task_witness :
  ∃ c, heap dropped_state !! 1 = Some c ∧
       reported 1 dropped_state = [OnFailed "b" ErrTaskDropped] ∧
       runs 1 dropped_state = 0.
Proof.
  assert (is_Some (heap dropped_state !! 1)) as [c Hc]
    by (vm_compute; eauto).
  exists c. split; [exact Hc|].
  assert (e_id c = "b") as Hid.
  { vm_compute in Hc. injection Hc as <-. reflexivity. }
  destruct (one_report_per_task dropped_state 1 c dropped_state_reachable Hc)
    as ([Hnil|[(Hrep & Hruns & _)|(d & Hrep & _)]] & _).
  - vm_compute in Hnil. discriminate Hnil.
  - rewrite Hid in Hrep. split; [exact Hrep|exact Hruns].
  - rewrite Hid in Hrep. vm_compute in Hrep. discriminate Hrep.
Defined.
